(** * UR3e drawing application: the SVG-to-trajectory pipeline

    A shallow embedding of the geometry pipeline of [Onlab/svg_code.py]
    (path interpreter, arc flattener, path optimizer, subpath closer,
    workspace mapper, trajectory generator, trajectory writer) and of the
    sibling converter of the root [svg_code.py], with the properties of the
    specification stated and settled on them.

    Numbers.  The pipeline is embedded on exact rationals ([Q]): float
    equality [==] is [Qeq], divisions raise [ZeroDivisionError] on a zero
    divisor, as Python's float division does, and [math.sqrt], which only
    ever occurs under a comparison with a tolerance, is kept symbolic (see
    [root]).  This is the reading in which the structure of the passes is
    settled: what is emitted, in which order and with which tags, and what
    the formulas of the mapper define.  It says nothing of overflow
    ([OverflowError] for numbers beyond the range of doubles) and nothing
    of the last digit of a computed number.  Where the outcome depends on
    how an operation rounds (the tolerance tests of the optimizer and of
    the closer, a mapped point on the border of the sheet) the passes are
    embedded a second time on binary64 numbers, in the module [Doubles]. *)

From Stdlib Require Import Reals Lra.
From Stdlib Require PrimFloat FloatOps SpecFloat.
From Stdlib Require Import String Ascii.
From Stdlib Require Import QArith Qminmax Qabs Qround Qreals.
From Stdlib Require Import ZArith List Bool Lia Lqa.
Import ListNotations.

Local Open Scope Q_scope.

(** ** Drawing commands *)

(** The first component of the tuples [('move', x, y)] and [('line', x, y)]. *)
Inductive cmd_type : Type := move | line.

Definition cmd_type_eqb (a b : cmd_type) : bool :=
  match a, b with
  | move, move | line, line => true
  | _, _ => false
  end.

(** A drawing command [(cmd_type, x, y)]. *)
Definition command : Type := (cmd_type * Q * Q)%type.

Definition cmd_tag (c : command) : cmd_type := fst (fst c).
Definition cmd_x (c : command) : Q := snd (fst c).
Definition cmd_y (c : command) : Q := snd c.

(** Two commands with the same tag and equal coordinates (as numbers). *)
Definition cmd_equiv (c d : command) : Prop :=
  cmd_tag c = cmd_tag d /\ cmd_x c == cmd_x d /\ cmd_y c == cmd_y d.

(** ** Errors

    The exceptions the pipeline raises.  [ValueError] is the one its [try]
    blocks catch. *)
Inductive error : Type :=
| ZeroDivisionError
| TypeError
| IndexError
| ValueError
| OverflowError.

Inductive result (A : Type) : Type :=
| Ok (a : A)
| Raise (e : error).
Arguments Ok {A} a.
Arguments Raise {A} e.

Definition bind {A B : Type} (m : result A) (k : A -> result B) : result B :=
  match m with
  | Ok a => k a
  | Raise e => Raise e
  end.

Notation "x <- m ;; k" := (bind m (fun x => k))
  (at level 61, m at next level, right associativity).

(** [a / b] on floats. *)
Definition fdiv (a b : Q) : result Q :=
  if Qeq_bool b 0 then Raise ZeroDivisionError else Ok (a / b).

Definition Qlt_bool (a b : Q) : bool := negb (Qle_bool b a).

(** ** Euclidean distance

    [distance] returns [math.sqrt((x2 - x1)**2 + (y2 - y1)**2)].  The
    square root of a rational is kept as a [root] whose radicand is the
    rational; the code only compares it with [PATH_TOLERANCE].  The
    comparisons [root_le] and [root_lt] are the exact ones; the code
    compares the rounded square root, which can differ from them when the
    distance is at the tolerance ([Doubles.distance] is the computation on
    doubles, with the [OverflowError] of the squares). *)
Record root : Type := Sqrt { radicand : Q }.

Definition distance (x1 y1 x2 y2 : Q) : root :=
  Sqrt ((x2 - x1) ^ 2 + (y2 - y1) ^ 2).

(** [r <= t] for a root [r] and a rational [t]. *)
Definition root_le (r : root) (t : Q) : bool :=
  Qle_bool 0 t && Qle_bool (radicand r) (t * t).

(** [r < t] for a root [r] and a rational [t]. *)
Definition root_lt (r : root) (t : Q) : bool :=
  Qlt_bool 0 t && Qlt_bool (radicand r) (t * t).

(** The real number a [root] stands for. *)
Definition root_value (r : root) : R := sqrt (Q2R (radicand r)).

(** ** Module-level configuration

    The constants at the head of [Onlab/svg_code.py] that the operator is
    told to edit.  The functions below read them from a [Settings] value;
    [source_settings] holds the values written in the source. *)
Record Settings : Type := {
  DRAWING_SCALE : Q;
  PRESERVE_ASPECT_RATIO : bool;
  DRAWING_OFFSET_X : Q;
  DRAWING_OFFSET_Y : Q;
  PEN_UP_Z : Q;
  PEN_DOWN_Z : Q;
  RX : Q;
  RY : Q;
  RZ : Q;
  PATH_OPTIMIZATION : bool;
  PATH_TOLERANCE : Q;
  MAX_SEGMENTS_PER_PATH : nat
}.

Definition source_settings : Settings := {|
  DRAWING_SCALE := 35 # 100;
  PRESERVE_ASPECT_RATIO := true;
  DRAWING_OFFSET_X := 0;
  DRAWING_OFFSET_Y := 0;
  PEN_UP_Z := 20;
  PEN_DOWN_Z := 0;
  RX := 22 # 10;
  RY := 22 # 10;
  RZ := 0;
  PATH_OPTIMIZATION := true;
  PATH_TOLERANCE := 1 # 2;
  MAX_SEGMENTS_PER_PATH := 1000
|}.

(** A4 paper dimensions in mm. *)
Definition A4_WIDTH : Q := 210.
Definition A4_HEIGHT : Q := 297.

(** [class RobotConfig]: the attributes left after [__init__] and
    [load_calibration]. *)
Record RobotConfig : Type := {
  center_x : Q;
  center_y : Q;
  z_surface : Q;
  rx : Q;
  ry : Q;
  rz : Q;
  home_position : list Q
}.

(** [RobotConfig.__init__] when no calibration file is found. *)
Definition default_robot_config (s : Settings) : RobotConfig := {|
  center_x := 0;
  center_y := 0;
  z_surface := 0;
  rx := RX s;
  ry := RY s;
  rz := RZ s;
  home_position := [-37; -295; -42; 22 # 10; 22 # 10; 0]
|}.

(** [class SVGToTrajectoryConverter]: its attributes. *)
Record SVGToTrajectoryConverter : Type := {
  robot_config : RobotConfig;
  scale_factor : Q;
  preserve_aspect_ratio : bool;
  offset_x : Q;
  offset_y : Q;
  pen_up_z : Q;
  pen_down_z : Q
}.

(** [SVGToTrajectoryConverter.__init__]. *)
Definition new_converter (s : Settings) (rc : RobotConfig)
  : SVGToTrajectoryConverter := {|
  robot_config := rc;
  scale_factor := DRAWING_SCALE s;
  preserve_aspect_ratio := PRESERVE_ASPECT_RATIO s;
  offset_x := DRAWING_OFFSET_X s;
  offset_y := DRAWING_OFFSET_Y s;
  pen_up_z := PEN_UP_Z s;
  pen_down_z := PEN_DOWN_Z s
|}.

Definition is_empty {A : Type} (l : list A) : bool :=
  match l with [] => true | _ => false end.

(** [l[-1]]; the default is never reached where the code guards the
    access. *)
Definition last_cmd (l : list command) : command := last l (move, 0, 0).

(** ** Path optimizer: [optimize_paths] *)

(** One iteration of [for i, cmd in enumerate(drawing_commands)], on the two
    accumulators [optimized] and [current_path]. *)
Definition optimize_step (s : Settings) (i : nat) (cmd : command)
    (optimized current_path : list command)
  : list command * list command :=
  let '(cmd_type, x, y) := cmd in
  match cmd_type with
  | move =>
      let '(optimized, current_path) :=
        if negb (is_empty current_path)
        then (optimized ++ current_path, [])
        else (optimized, current_path) in
      if (0 <? i)%nat && (0 <? length optimized)%nat &&
         root_le (distance (cmd_x (last_cmd optimized))
                           (cmd_y (last_cmd optimized)) x y)
                 (PATH_TOLERANCE s)
      then (optimized ++ [(line, x, y)], current_path)
      else (optimized, current_path ++ [(move, x, y)])
  | _ =>
      let current_path := current_path ++ [(cmd_type, x, y)] in
      if (MAX_SEGMENTS_PER_PATH s <=? length current_path)%nat
      then (optimized ++ current_path, [])
      else (optimized, current_path)
  end.

Fixpoint optimize_loop (s : Settings) (i : nat) (cmds : list command)
    (optimized current_path : list command)
  : list command * list command :=
  match cmds with
  | [] => (optimized, current_path)
  | cmd :: rest =>
      let '(optimized, current_path) :=
        optimize_step s i cmd optimized current_path in
      optimize_loop s (S i) rest optimized current_path
  end.

Definition optimize_paths (s : Settings) (drawing_commands : list command)
  : list command :=
  if negb (PATH_OPTIMIZATION s) || is_empty drawing_commands
  then drawing_commands
  else
    let '(optimized, current_path) :=
      optimize_loop s 0 drawing_commands [] [] in
    if negb (is_empty current_path)
    then optimized ++ current_path
    else optimized.

(** ** Subpath closer: [detect_closed_paths] *)

(** The test repeated twice in the source: the last point is close to the
    path start but not exactly at it. *)
Definition near_miss (s : Settings) (last_x last_y : Q) (path_start : Q * Q)
  : bool :=
  root_lt (distance last_x last_y (fst path_start) (snd path_start))
          (PATH_TOLERANCE s) &&
  (negb (Qeq_bool last_x (fst path_start)) ||
   negb (Qeq_bool last_y (snd path_start))).

Definition close_step (s : Settings) (cmd : command)
    (result : list command) (path_start : option (Q * Q))
  : list command * option (Q * Q) :=
  let '(cmd_type, x, y) := cmd in
  let '(result, path_start) :=
    match cmd_type with
    | move =>
        let result :=
          match path_start with
          | Some start =>
              let last_cmd := last_cmd result in
              if near_miss s (cmd_x last_cmd) (cmd_y last_cmd) start
              then result ++ [(line, fst start, snd start)]
              else result
          | None => result
          end in
        (result, Some (x, y))
    | _ => (result, path_start)
    end in
  (result ++ [cmd], path_start).

Fixpoint close_loop (s : Settings) (cmds : list command)
    (result : list command) (path_start : option (Q * Q))
  : list command * option (Q * Q) :=
  match cmds with
  | [] => (result, path_start)
  | cmd :: rest =>
      let '(result, path_start) := close_step s cmd result path_start in
      close_loop s rest result path_start
  end.

Definition detect_closed_paths (s : Settings) (drawing_commands : list command)
  : list command :=
  if is_empty drawing_commands then drawing_commands
  else
    let '(result, path_start) := close_loop s drawing_commands [] None in
    match path_start with
    | Some start =>
        if (0 <? length result)%nat &&
           near_miss s (cmd_x (last_cmd result)) (cmd_y (last_cmd result)) start
        then result ++ [(line, fst start, snd start)]
        else result
    | None => result
    end.

(** ** Workspace mapper: [scale_to_robot_coordinates] *)

(** The bounding box [(min_x, min_y, max_x, max_y)] of a non-empty command
    list.  The source starts the four accumulators at [inf] and [-inf];
    [min(inf, x)] and [max(-inf, x)] are [x], so the fold starts from the
    first command. *)
Definition bounding_box (first : command) (rest : list command)
  : Q * Q * Q * Q :=
  fold_left
    (fun '(min_x, min_y, max_x, max_y) cmd =>
       (Qmin min_x (cmd_x cmd), Qmin min_y (cmd_y cmd),
        Qmax max_x (cmd_x cmd), Qmax max_y (cmd_y cmd)))
    rest
    (cmd_x first, cmd_y first, cmd_x first, cmd_y first).

(** The pair [(scale_x, scale_y)] computed from the drawing's size. *)
Definition scaling_factors (self : SVGToTrajectoryConverter)
    (svg_width svg_height : Q) : result (Q * Q) :=
  if preserve_aspect_ratio self then
    w <- fdiv A4_WIDTH svg_width ;;
    h <- fdiv A4_HEIGHT svg_height ;;
    let scale := Qmin w h * scale_factor self in
    Ok (scale, scale)
  else
    w <- fdiv A4_WIDTH svg_width ;;
    let scale_x := w * scale_factor self in
    h <- fdiv A4_HEIGHT svg_height ;;
    let scale_y := h * scale_factor self in
    Ok (scale_x, scale_y).

Definition to_robot (self : SVGToTrajectoryConverter)
    (svg_center_x svg_center_y scale_x scale_y : Q) (cmd : command) : command :=
  let x_centered := (cmd_x cmd - svg_center_x) * scale_x in
  let y_centered := (cmd_y cmd - svg_center_y) * scale_y in
  let robot_x := center_x (robot_config self) + x_centered + offset_x self in
  let robot_y := center_y (robot_config self) + y_centered + offset_y self in
  (cmd_tag cmd, robot_x, robot_y).

Definition scale_to_robot_coordinates (self : SVGToTrajectoryConverter)
    (drawing_commands : list command) : result (list command) :=
  match drawing_commands with
  | [] => Ok []
  | first :: rest =>
      let '(min_x, min_y, max_x, max_y) := bounding_box first rest in
      let svg_width := max_x - min_x in
      let svg_height := max_y - min_y in
      let svg_center_x := min_x + svg_width / 2 in
      let svg_center_y := min_y + svg_height / 2 in
      sc <- scaling_factors self svg_width svg_height ;;
      let '(scale_x, scale_y) := sc in
      Ok (map (to_robot self svg_center_x svg_center_y scale_x scale_y)
              drawing_commands)
  end.

(** ** Trajectory generator: [generate_trajectory] *)

(** [pen_state], the strings ["up"] and ["down"]. *)
Inductive pen_state : Type := up | down.

(** A pose is the Python list [[x, y, z, rx, ry, rz]]; a trajectory step is
    the pair [(tag, pose)]. *)
Definition pose : Type := list Q.
Definition step : Type := (cmd_type * pose)%type.

Definition step_tag (st : step) : cmd_type := fst st.
Definition step_pose (st : step) : pose := snd st.

(** The loop state: the trajectory so far, the pen state and the current
    position ([current_x] and [current_y] are set and cleared together). *)
Record gen_state : Type := {
  trajectory : list step;
  pen : pen_state;
  current : option (Q * Q)
}.

Definition pose_at (self : SVGToTrajectoryConverter) (x y offset : Q) : pose :=
  [x; y; z_surface (robot_config self) + offset;
   rx (robot_config self); ry (robot_config self); rz (robot_config self)].

Definition generate_step (self : SVGToTrajectoryConverter)
    (st : gen_state) (cmd : command) : gen_state :=
  let '(cmd_type, x, y) := cmd in
  match cmd_type with
  | move =>
      let st :=
        match pen st, current st with
        | down, Some (current_x, current_y) =>
            let lift_pose := pose_at self current_x current_y (pen_up_z self) in
            {| trajectory := trajectory st ++ [(move, lift_pose)];
               pen := up;
               current := current st |}
        | _, _ => st
        end in
      let pose := pose_at self x y (pen_up_z self) in
      {| trajectory := trajectory st ++ [(move, pose)];
         pen := pen st;
         current := Some (x, y) |}
  | line =>
      let st :=
        match pen st, current st with
        | up, Some (current_x, current_y) =>
            let lower_pose :=
              pose_at self current_x current_y (pen_down_z self) in
            {| trajectory := trajectory st ++ [(line, lower_pose)];
               pen := down;
               current := current st |}
        | _, _ => st
        end in
      let pose := pose_at self x y (pen_down_z self) in
      {| trajectory := trajectory st ++ [(line, pose)];
         pen := down;
         current := Some (x, y) |}
  end.

(** [l[i]] on a Python list. *)
Definition index {A : Type} (l : list A) (i : nat) : result A :=
  match nth_error l i with
  | Some a => Ok a
  | None => Raise IndexError
  end.

(** The part of [generate_trajectory] after the loop. *)
Definition generate_finish (self : SVGToTrajectoryConverter) (st : gen_state)
  : result (list step) :=
  let trajectory :=
    match pen st, current st with
    | down, Some (current_x, current_y) =>
        let final_pose := pose_at self current_x current_y (pen_up_z self) in
        trajectory st ++ [(move, final_pose)]
    | _, _ => trajectory st
    end in
  if negb (is_empty trajectory) then
    safe_x <- index (home_position (robot_config self)) 0 ;;
    safe_y <- index (home_position (robot_config self)) 1 ;;
    safe_z <- index (home_position (robot_config self)) 2 ;;
    let safe_pose :=
      [safe_x; safe_y; safe_z;
       rx (robot_config self); ry (robot_config self); rz (robot_config self)] in
    Ok (trajectory ++ [(move, safe_pose)])
  else Ok trajectory.

Definition initial_gen_state : gen_state :=
  {| trajectory := []; pen := up; current := None |}.

Definition generate_trajectory (self : SVGToTrajectoryConverter)
    (robot_commands : list command) : result (list step) :=
  if is_empty robot_commands then Ok []
  else generate_finish self
         (fold_left (generate_step self) robot_commands initial_gen_state).

(** ** Trajectory writer: [save_trajectory] *)

(** The JSON documents [json.dump] writes here. *)
#[warnings="-register-all"]
Inductive json : Type :=
| JNumber (q : Q)
| JString (s : string)
| JArray (items : list json).

(** Rounding to the nearest integer, ties to even, as the [.2f] format
    rounds the digit it keeps. *)
Definition round_half_even (q : Q) : Z :=
  let f := Qfloor q in
  match Qcompare (q - inject_Z f) (1 # 2) with
  | Lt => f
  | Gt => (f + 1)%Z
  | Eq => if Z.even f then f else (f + 1)%Z
  end.

(** [float(f"{p:.2f}")]. *)
Definition format_2f (p : Q) : Q :=
  inject_Z (round_half_even (p * 100)) / 100.

(** The document written to [output_file]; [None] when the trajectory is
    empty and the function returns [False] without writing.  Failures of
    the file system are not modelled. *)
Definition save_trajectory (trajectory : list step) : option json :=
  if is_empty trajectory then None
  else
    let serializable_trajectory :=
      map (fun '(_, pose) =>
             let formatted_pose := map (fun p => JNumber (format_2f p)) pose in
             JArray [JArray formatted_pose])
          trajectory in
    Some (JArray serializable_trajectory).

(** ** Curve flattener: [approximate_bezier_curve], [approximate_arc] *)

(** [range(1, steps + 1)]. *)
Definition range1 (steps : nat) : list nat := seq 1 steps.

Definition of_nat (n : nat) : Q := inject_Z (Z.of_nat n).

(** The commands appended for one cubic Bezier segment; [t = i / steps]
    divides by a [steps] that is positive whenever the loop body runs. *)
Definition approximate_bezier_curve (commands : list command)
    (x0 y0 x1 y1 x2 y2 x3 y3 : Q) (steps : nat) : list command :=
  fold_left
    (fun commands i =>
       let t := of_nat i / of_nat steps in
       let x := (1 - t) ^ 3 * x0 + 3 * (1 - t) ^ 2 * t * x1
                + 3 * (1 - t) * t ^ 2 * x2 + t ^ 3 * x3 in
       let y := (1 - t) ^ 3 * y0 + 3 * (1 - t) ^ 2 * t * y1
                + 3 * (1 - t) * t ^ 2 * y2 + t ^ 3 * y3 in
       commands ++ [(line, x, y)])
    (range1 steps) commands.

(** The functions of Python's [math] module that the arc sampling calls.
    They are not part of the repository and have no rational model; the
    flattener takes them as a parameter. *)
Record MathModule : Type := {
  math_radians : Q -> Q;
  math_cos : Q -> Q;
  math_sin : Q -> Q;
  math_sqrt : Q -> Q;
  math_atan2 : Q -> Q -> Q;
  math_acos : Q -> Q;
  math_pi : Q
}.

Section Flattener.

Variable math : MathModule.

(** The sampling loop at the end of [approximate_arc]. *)
Definition arc_samples (commands : list command)
    (cx cy rx ry cos_angle sin_angle start_angle angle_extent : Q)
    (steps : nat) : list command :=
  fold_left
    (fun commands i =>
       let t := of_nat i / of_nat steps in
       let angle := start_angle + t * angle_extent in
       let px := cx + rx * math_cos math angle * cos_angle
                 - ry * math_sin math angle * sin_angle in
       let py := cy + rx * math_cos math angle * sin_angle
                 + ry * math_sin math angle * cos_angle in
       commands ++ [(line, px, py)])
    (range1 steps) commands.

(** [approximate_arc]: the list [commands] after the call.  On the
    rationals the divisions are what can raise; the [OverflowError] of
    [**] on doubles beyond 1e154 is not in this reading. *)
Definition approximate_arc (commands : list command)
    (x0 y0 rx ry angle : Q) (large_arc sweep : Z) (x y : Q) (steps : nat)
  : result (list command) :=
  (* Handle degenerate case *)
  if Qeq_bool x0 x && Qeq_bool y0 y then Ok commands
  else
    (* Ensure radii are positive *)
    let rx := Qabs rx in
    let ry := Qabs ry in
    (* If rx or ry is 0, treat as a straight line *)
    if Qeq_bool rx 0 || Qeq_bool ry 0 then Ok (commands ++ [(line, x, y)])
    else
      let angle_rad := math_radians math angle in
      let cos_angle := math_cos math angle_rad in
      let sin_angle := math_sin math angle_rad in
      (* Step 1: Compute transformed coordinates *)
      let dx := (x0 - x) / 2 in
      let dy := (y0 - y) / 2 in
      let x1d := cos_angle * dx + sin_angle * dy in
      let y1d := - sin_angle * dx + cos_angle * dy in
      (* Step 2: Ensure radii are large enough *)
      a <- fdiv (x1d ^ 2) (rx ^ 2) ;;
      b <- fdiv (y1d ^ 2) (ry ^ 2) ;;
      let radii_check := a + b in
      let '(rx, ry) :=
        if Qlt_bool 1 radii_check
        then (rx * math_sqrt math radii_check, ry * math_sqrt math radii_check)
        else (rx, ry) in
      (* Step 3: Compute center *)
      sq <- fdiv (rx ^ 2 * ry ^ 2 - rx ^ 2 * y1d ^ 2 - ry ^ 2 * x1d ^ 2)
                 (rx ^ 2 * y1d ^ 2 + ry ^ 2 * x1d ^ 2) ;;
      let sq := Qmax 0 sq in
      let coef := math_sqrt math sq in
      let coef := if Z.eqb large_arc sweep then - coef else coef in
      cxd <- fdiv (coef * rx * y1d) ry ;;
      cyd <- fdiv (- coef * ry * x1d) rx ;;
      (* Transform center back *)
      let cx := cos_angle * cxd - sin_angle * cyd + (x0 + x) / 2 in
      let cy := sin_angle * cxd + cos_angle * cyd + (y0 + y) / 2 in
      (* Step 4: Compute start and end angles *)
      ux <- fdiv (x1d - cxd) rx ;;
      uy <- fdiv (y1d - cyd) ry ;;
      vx <- fdiv (- x1d - cxd) rx ;;
      vy <- fdiv (- y1d - cyd) ry ;;
      let start_angle := math_atan2 math uy ux in
      let n := math_sqrt math ((ux ^ 2 + uy ^ 2) * (vx ^ 2 + vy ^ 2)) in
      let p := ux * vx + uy * vy in
      d <- fdiv p n ;;
      let d := Qmax (-1) (Qmin 1 d) in
      let angle_extent := math_acos math d in
      let angle_extent :=
        if Qlt_bool (ux * vy - uy * vx) 0 then - angle_extent
        else angle_extent in
      let angle_extent :=
        if Z.eqb sweep 0 && Qlt_bool 0 angle_extent
        then angle_extent - 2 * math_pi math
        else if Z.eqb sweep 1 && Qlt_bool angle_extent 0
        then angle_extent + 2 * math_pi math
        else angle_extent in
      Ok (arc_samples commands cx cy rx ry cos_angle sin_angle
                      start_angle angle_extent steps).

End Flattener.

(** ** Path interpreter: [parse_path_data] *)

Local Open Scope string_scope.

(** [s.replace(c, rep)] for a one-character [c]. *)
Fixpoint replace_char (c : ascii) (rep : string) (s : string) : string :=
  match s with
  | EmptyString => EmptyString
  | String a rest =>
      if Ascii.eqb a c then rep ++ replace_char c rep rest
      else String a (replace_char c rep rest)
  end.

(** The characters [str.split()] separates on (ASCII). *)
Definition is_space (c : ascii) : bool :=
  let n := nat_of_ascii c in
  ((9 <=? n) && (n <=? 13) || (28 <=? n) && (n <=? 32))%nat.

(** [s.split()]: the maximal runs of non-space characters.  [word] is the
    run being read, in reverse. *)
Fixpoint split_from (word : string) (s : string) : list string :=
  match s with
  | EmptyString =>
      match word with EmptyString => [] | _ => [word] end
  | String a rest =>
      if is_space a then
        match word with
        | EmptyString => split_from EmptyString rest
        | _ => word :: split_from EmptyString rest
        end
      else split_from (word ++ String a EmptyString) rest
  end.

Definition split (s : string) : list string := split_from EmptyString s.

(** [a in b] on strings: [a] occurs in [b] as a substring. *)
Fixpoint str_in (a b : string) : bool :=
  String.prefix a b ||
  match b with
  | EmptyString => false
  | String _ rest => str_in a rest
  end.

Definition command_letters : string := "MLHVCSQTAZmlhvcsqtaz".

(** The first lines of [parse_path_data]: spaces around every command
    letter, commas to spaces, split. *)
Definition tokenize (path_d : string) : list string :=
  let path_d :=
    fold_left
      (fun path_d cmd =>
         replace_char cmd (String " " (String cmd (String " " EmptyString)))
                      path_d)
      (list_ascii_of_string command_letters) path_d in
  split (replace_char "," " " path_d).

(** *** Reading numbers

    [float(token)] on decimal literals: an optional sign, digits with an
    optional fraction, an optional exponent.  Any other token raises
    [ValueError] here; the spellings of infinity and not-a-number and digit
    grouping with underscores, which Python also accepts, have no place in
    the rational model. *)
Definition digit_of (c : ascii) : option Z :=
  let n := nat_of_ascii c in
  if ((48 <=? n) && (n <=? 57))%nat then Some (Z.of_nat (n - 48)) else None.

Fixpoint read_digits (s : string) (acc : Z) (count : nat)
  : Z * nat * string :=
  match s with
  | EmptyString => (acc, count, s)
  | String c rest =>
      match digit_of c with
      | Some d => read_digits rest (acc * 10 + d)%Z (S count)
      | None => (acc, count, s)
      end
  end.

Definition read_sign (s : string) : bool * string :=
  match s with
  | String "-" rest => (true, rest)
  | String "+" rest => (false, rest)
  | _ => (false, s)
  end.

Definition pow10 (e : Z) : Q := inject_Z 10 ^ e.

Definition float_of_string (s : string) : option Q :=
  let '(neg, s) := read_sign s in
  let '(int_part, n1, s) := read_digits s 0%Z 0%nat in
  let '(mant, n2, s) :=
    match s with
    | String "." rest => read_digits rest int_part 0%nat
    | _ => (int_part, 0%nat, s)
    end in
  if (n1 + n2 =? 0)%nat then None
  else
    let mantissa := inject_Z mant * pow10 (- Z.of_nat n2) in
    let mantissa := if (neg : bool) then (- mantissa)%Q else mantissa in
    match s with
    | EmptyString => Some (Qred mantissa)
    | String c rest =>
        if Ascii.eqb c "e" || Ascii.eqb c "E" then
          let '(eneg, rest) := read_sign rest in
          let '(e, n3, rest) := read_digits rest 0%Z 0%nat in
          match rest with
          | EmptyString =>
              if (n3 =? 0)%nat then None
              else Some (Qred (mantissa * pow10 (if (eneg : bool) then - e else e)))
          | _ => None
          end
        else None
    end.

Local Close Scope string_scope.

(** *** The interpreter loop

    The local variables of [parse_path_data] that live across iterations.
    [x1] and [y1] are the locals the smooth quadratic command finds (or
    not) in [locals()]; they are assigned one at a time, so an exception
    between the two assignments leaves one of them changed. *)
Record parse_state : Type := {
  i : nat;
  current_cmd : option string;
  drawing_commands : list command;
  abs_position : Q * Q;
  start_position : Q * Q;
  first_position : Q * Q;
  x1 : option Q;
  y1 : option Q
}.

(** Statements: they read and write the locals and end normally or by
    raising. *)
Definition stmt (A : Type) : Type := parse_state -> parse_state * result A.

Definition ret {A : Type} (a : A) : stmt A := fun st => (st, Ok a).

Definition raise {A : Type} (e : error) : stmt A := fun st => (st, Raise e).

Definition seq_stmt {A B : Type} (m : stmt A) (k : A -> stmt B) : stmt B :=
  fun st =>
    match m st with
    | (st', Ok a) => k a st'
    | (st', Raise e) => (st', Raise e)
    end.

Declare Scope stmt_scope.
Delimit Scope stmt_scope with stmt.
Notation "'let*' x := m 'in' k" := (seq_stmt m (fun x => k))
  (at level 10, x pattern, m at level 100, k at level 200) : stmt_scope.
Notation "m ;;; k" := (seq_stmt m (fun _ => k))
  (at level 100, k at level 200, right associativity) : stmt_scope.

(** [try: body except ValueError: handler]. *)
Definition try_except (body handler : stmt unit) : stmt unit :=
  fun st =>
    match body st with
    | (st', Raise ValueError) => handler st'
    | r => r
    end.

Definition get : stmt parse_state := fun st => (st, Ok st).

Definition lift_result {A : Type} (r : result A) : stmt A :=
  fun st =>
    (st, r).

(** [i += k]. *)
Definition advance (k : nat) : stmt unit := fun st =>
  ({| i := i st + k; current_cmd := current_cmd st;
      drawing_commands := drawing_commands st;
      abs_position := abs_position st; start_position := start_position st;
      first_position := first_position st; x1 := x1 st; y1 := y1 st |},
   Ok tt).

Definition set_current_cmd (c : string) : stmt unit := fun st =>
  ({| i := i st; current_cmd := Some c;
      drawing_commands := drawing_commands st;
      abs_position := abs_position st; start_position := start_position st;
      first_position := first_position st; x1 := x1 st; y1 := y1 st |},
   Ok tt).

Definition set_drawing_commands (l : list command) : stmt unit := fun st =>
  ({| i := i st; current_cmd := current_cmd st;
      drawing_commands := l;
      abs_position := abs_position st; start_position := start_position st;
      first_position := first_position st; x1 := x1 st; y1 := y1 st |},
   Ok tt).

(** [drawing_commands.append(cmd)]. *)
Definition append (cmd : command) : stmt unit := fun st =>
  set_drawing_commands (drawing_commands st ++ [cmd]) st.

Definition set_abs_position (p : Q * Q) : stmt unit := fun st =>
  ({| i := i st; current_cmd := current_cmd st;
      drawing_commands := drawing_commands st;
      abs_position := p; start_position := start_position st;
      first_position := first_position st; x1 := x1 st; y1 := y1 st |},
   Ok tt).

Definition set_start_position (p : Q * Q) : stmt unit := fun st =>
  ({| i := i st; current_cmd := current_cmd st;
      drawing_commands := drawing_commands st;
      abs_position := abs_position st; start_position := p;
      first_position := first_position st; x1 := x1 st; y1 := y1 st |},
   Ok tt).

Definition set_first_position (p : Q * Q) : stmt unit := fun st =>
  ({| i := i st; current_cmd := current_cmd st;
      drawing_commands := drawing_commands st;
      abs_position := abs_position st; start_position := start_position st;
      first_position := p; x1 := x1 st; y1 := y1 st |},
   Ok tt).

Definition set_x1 (v : Q) : stmt unit := fun st =>
  ({| i := i st; current_cmd := current_cmd st;
      drawing_commands := drawing_commands st;
      abs_position := abs_position st; start_position := start_position st;
      first_position := first_position st; x1 := Some v; y1 := y1 st |},
   Ok tt).

Definition set_y1 (v : Q) : stmt unit := fun st =>
  ({| i := i st; current_cmd := current_cmd st;
      drawing_commands := drawing_commands st;
      abs_position := abs_position st; start_position := start_position st;
      first_position := first_position st; x1 := x1 st; y1 := Some v |},
   Ok tt).

(** [a == b] on the two-element lists that hold positions. *)
Definition position_eqb (a b : Q * Q) : bool :=
  Qeq_bool (fst a) (fst b) && Qeq_bool (snd a) (snd b).

(** [int(v)] on a float: truncation towards zero.  ([int] of an infinity
    raises [OverflowError] and of a not-a-number [ValueError]; the
    rationals have neither.) *)
Definition int_of_float (v : Q) : Z :=
  if Qlt_bool v 0 then Qceiling v else Qfloor v.

Section Interpreter.

(** Python's [float] on a token ([None]: it raises [ValueError]) and the
    [math] module. *)
Variable float : string -> option Q.
Variable math : MathModule.

Variable tokens : list string.

Local Open Scope stmt_scope.

(** [float(tokens[k])]. *)
Definition float_token (k : nat) : stmt Q :=
  match nth_error tokens k with
  | None => raise IndexError
  | Some tok =>
      match float tok with
      | Some v => ret v
      | None => raise ValueError
      end
  end.

(** [x += abs_position[0]; y += abs_position[1]] when the command letter
    is the relative one. *)
Definition adjust (relative : bool) (abs_position p : Q * Q) : Q * Q :=
  if relative
  then (fst p + fst abs_position, snd p + snd abs_position)
  else p.

Definition is_cmd (cmd letter : string) : bool := String.eqb cmd letter.

(** The branch [current_cmd in "Mm"]. *)
Definition move_command (cmd : string) : stmt unit :=
  let* st := get in
  if (i st + 1 <? length tokens)%nat then
    try_except
      (let* x := float_token (i st) in
       let* y := float_token (i st + 1) in
       let '(x, y) := adjust (is_cmd cmd "m") (abs_position st) (x, y) in
       (if is_empty (drawing_commands st)
           || cmd_type_eqb (cmd_tag (last_cmd (drawing_commands st))) move
        then set_first_position (x, y) else ret tt) ;;;
       set_abs_position (x, y) ;;;
       set_start_position (x, y) ;;;
       append (move, x, y) ;;;
       advance 2)
      (advance 1)
  else advance 1.

(** The branch [current_cmd in "Ll"]. *)
Definition line_command (cmd : string) : stmt unit :=
  let* st := get in
  if (i st + 1 <? length tokens)%nat then
    try_except
      (let* x := float_token (i st) in
       let* y := float_token (i st + 1) in
       let '(x, y) := adjust (is_cmd cmd "l") (abs_position st) (x, y) in
       set_abs_position (x, y) ;;;
       append (line, x, y) ;;;
       advance 2)
      (advance 1)
  else advance 1.

(** The branch [current_cmd in "Hh"]. *)
Definition horizontal_command (cmd : string) : stmt unit :=
  let* st := get in
  if (i st <? length tokens)%nat then
    try_except
      (let* x := float_token (i st) in
       let x := if is_cmd cmd "h" then x + fst (abs_position st) else x in
       set_abs_position (x, snd (abs_position st)) ;;;
       append (line, x, snd (abs_position st)) ;;;
       advance 1)
      (advance 1)
  else advance 1.

(** The branch [current_cmd in "Vv"]. *)
Definition vertical_command (cmd : string) : stmt unit :=
  let* st := get in
  if (i st <? length tokens)%nat then
    try_except
      (let* y := float_token (i st) in
       let y := if is_cmd cmd "v" then y + snd (abs_position st) else y in
       set_abs_position (fst (abs_position st), y) ;;;
       append (line, fst (abs_position st), y) ;;;
       advance 1)
      (advance 1)
  else advance 1.

(** The branch [current_cmd in "Zz"]. *)
Definition close_command : stmt unit :=
  let* st := get in
  (if negb (position_eqb (abs_position st) (first_position st))
      && (0 <? length (drawing_commands st))%nat
   then
     append (line, fst (first_position st), snd (first_position st)) ;;;
     set_abs_position (first_position st)
   else ret tt) ;;;
  advance 1.

(** The branch [current_cmd in "Cc" and i + 5 < len(tokens)]. *)
Definition cubic_command (cmd : string) : stmt unit :=
  let* st := get in
  try_except
    (let* x1 := float_token (i st) in
     set_x1 x1 ;;;
     let* y1 := float_token (i st + 1) in
     set_y1 y1 ;;;
     let* x2 := float_token (i st + 2) in
     let* y2 := float_token (i st + 3) in
     let* x := float_token (i st + 4) in
     let* y := float_token (i st + 5) in
     let relative := is_cmd cmd "c" in
     let '(x1, y1) := adjust relative (abs_position st) (x1, y1) in
     (if relative then set_x1 x1 ;;; set_y1 y1 else ret tt) ;;;
     let '(x2, y2) := adjust relative (abs_position st) (x2, y2) in
     let '(x, y) := adjust relative (abs_position st) (x, y) in
     set_drawing_commands
       (approximate_bezier_curve (drawing_commands st)
          (fst (abs_position st)) (snd (abs_position st))
          x1 y1 x2 y2 x y 10) ;;;
     set_abs_position (x, y) ;;;
     advance 6)
    (advance 1).

(** The branch [current_cmd in "Ss" and i + 3 < len(tokens)]. *)
Definition smooth_cubic_command (cmd : string) : stmt unit :=
  let* st := get in
  let ax := fst (abs_position st) in
  let ay := snd (abs_position st) in
  try_except
    (let* x1 :=
       if (2 <=? i st)%nat
       then let* v := float_token (i st - 2) in ret (ax + (ax - v))
       else ret (ax + 0) in
     set_x1 x1 ;;;
     let* y1 :=
       if (2 <=? i st)%nat
       then let* v := float_token (i st - 1) in ret (ay + (ay - v))
       else ret (ay + 0) in
     set_y1 y1 ;;;
     let* x2 := float_token (i st) in
     let* y2 := float_token (i st + 1) in
     let* x := float_token (i st + 2) in
     let* y := float_token (i st + 3) in
     let relative := is_cmd cmd "s" in
     let '(x2, y2) := adjust relative (abs_position st) (x2, y2) in
     let '(x, y) := adjust relative (abs_position st) (x, y) in
     set_drawing_commands
       (approximate_bezier_curve (drawing_commands st) ax ay
          x1 y1 x2 y2 x y 10) ;;;
     set_abs_position (x, y) ;;;
     advance 4)
    (advance 1).

(** The four lines that turn a quadratic control point into the two cubic
    ones, followed by the flattening. *)
Definition quadratic_as_cubic (st : parse_state) (x1 y1 x y : Q)
  : list command :=
  let ax := fst (abs_position st) in
  let ay := snd (abs_position st) in
  let cx1 := ax + (2 # 3) * (x1 - ax) in
  let cy1 := ay + (2 # 3) * (y1 - ay) in
  let cx2 := x + (2 # 3) * (x1 - x) in
  let cy2 := y + (2 # 3) * (y1 - y) in
  approximate_bezier_curve (drawing_commands st) ax ay cx1 cy1 cx2 cy2 x y 10.

(** The branch [current_cmd in "Qq" and i + 3 < len(tokens)]. *)
Definition quadratic_command (cmd : string) : stmt unit :=
  let* st := get in
  try_except
    (let* x1 := float_token (i st) in
     set_x1 x1 ;;;
     let* y1 := float_token (i st + 1) in
     set_y1 y1 ;;;
     let* x := float_token (i st + 2) in
     let* y := float_token (i st + 3) in
     let relative := is_cmd cmd "q" in
     let '(x1, y1) := adjust relative (abs_position st) (x1, y1) in
     (if relative then set_x1 x1 ;;; set_y1 y1 else ret tt) ;;;
     let '(x, y) := adjust relative (abs_position st) (x, y) in
     set_drawing_commands (quadratic_as_cubic st x1 y1 x y) ;;;
     set_abs_position (x, y) ;;;
     advance 4)
    (advance 1).

(** The branch [current_cmd in "Tt" and i + 1 < len(tokens)]. *)
Definition smooth_quadratic_command (cmd : string) : stmt unit :=
  let* st := get in
  let ax := fst (abs_position st) in
  let ay := snd (abs_position st) in
  try_except
    (let x1 := match x1 st with Some v => 2 * ax - v | None => ax end in
     set_x1 x1 ;;;
     let y1 := match y1 st with Some v => 2 * ay - v | None => ay end in
     set_y1 y1 ;;;
     let* x := float_token (i st) in
     let* y := float_token (i st + 1) in
     let '(x, y) := adjust (is_cmd cmd "t") (abs_position st) (x, y) in
     set_drawing_commands (quadratic_as_cubic st x1 y1 x y) ;;;
     set_abs_position (x, y) ;;;
     advance 2)
    (advance 1).

(** The branch [current_cmd in "Aa" and i + 6 < len(tokens)]. *)
Definition arc_command (cmd : string) : stmt unit :=
  let* st := get in
  try_except
    (let* rx := float_token (i st) in
     let* ry := float_token (i st + 1) in
     let* angle := float_token (i st + 2) in
     let* large_arc := float_token (i st + 3) in
     let large_arc := int_of_float large_arc in
     let* sweep := float_token (i st + 4) in
     let sweep := int_of_float sweep in
     let* x := float_token (i st + 5) in
     let* y := float_token (i st + 6) in
     let '(x, y) := adjust (is_cmd cmd "a") (abs_position st) (x, y) in
     let* commands :=
       lift_result
         (approximate_arc math (drawing_commands st)
            (fst (abs_position st)) (snd (abs_position st))
            rx ry angle large_arc sweep x y 20) in
     set_drawing_commands commands ;;;
     set_abs_position (x, y) ;;;
     advance 7)
    (advance 1).

(** The body of the [while] loop. *)
Definition iteration : stmt unit :=
  let* st := get in
  match nth_error tokens (i st) with
  | None => raise IndexError
  | Some tok =>
      (* Check if token is a command letter *)
      if str_in tok command_letters then
        set_current_cmd tok ;;; advance 1
      else
        match current_cmd st with
        | None => raise TypeError
        | Some cmd =>
            let room k := (i st + k <? length tokens)%nat in
            if str_in cmd "Mm" then move_command cmd
            else if str_in cmd "Ll" then line_command cmd
            else if str_in cmd "Hh" then horizontal_command cmd
            else if str_in cmd "Vv" then vertical_command cmd
            else if str_in cmd "Zz" then close_command
            else if str_in cmd "Cc" && room 5%nat then cubic_command cmd
            else if str_in cmd "Ss" && room 3%nat
                 then smooth_cubic_command cmd
            else if str_in cmd "Qq" && room 3%nat then quadratic_command cmd
            else if str_in cmd "Tt" && room 1%nat
                 then smooth_quadratic_command cmd
            else if str_in cmd "Aa" && room 6%nat then arc_command cmd
            else advance 1
        end
  end.

(** [while i < len(tokens)]: every iteration moves [i] forward, so
    [len(tokens)] rounds of [fuel] are enough (see [parse_loop_finished]). *)
Fixpoint parse_loop (fuel : nat) : stmt unit :=
  match fuel with
  | O => ret tt
  | S fuel =>
      let* st := get in
      if (i st <? length tokens)%nat
      then iteration ;;; parse_loop fuel
      else ret tt
  end.

End Interpreter.

Definition initial_parse_state : parse_state := {|
  i := 0;
  current_cmd := None;
  drawing_commands := [];
  abs_position := (0, 0);
  start_position := (0, 0);
  first_position := (0, 0);
  x1 := None;
  y1 := None
|}.

(** The state and outcome of the whole loop on a path string. *)
Definition run_path_data (float : string -> option Q) (math : MathModule)
    (path_d : string) : parse_state * result unit :=
  let tokens := tokenize path_d in
  parse_loop float math tokens (length tokens) initial_parse_state.

Definition parse_path_data (float : string -> option Q) (math : MathModule)
    (path_d : string) : result (list command) :=
  match run_path_data float math path_d with
  | (st, Ok _) => Ok (drawing_commands st)
  | (_, Raise e) => Raise e
  end.

(** ** The root converter, [svg_code.py]

    The sibling implementation of the same pipeline.  Its interpreter keeps
    [i], [current_cmd], [absolute_position] (the field [abs_position]
    here) and [drawing_commands]; the other fields of [parse_state] are
    left alone. *)
Module Root.

(** A4 paper dimensions in metres. *)
Definition A4_WIDTH : Q := 210 # 1000.
Definition A4_HEIGHT : Q := 297 # 1000.

(** The attributes set by [SVGToTrajectoryConverter.__init__]. *)
Record SVGToTrajectoryConverter : Type := {
  center_x : Q;
  center_y : Q;
  z_surface : Q;
  pen_up_z : Q;
  pen_down_z : Q;
  rx : Q;
  ry : Q;
  rz : Q
}.

(** The converter [main] builds from the constants of the module. *)
Definition source_converter : SVGToTrajectoryConverter := {|
  center_x := 0;
  center_y := 0;
  z_surface := 0;
  pen_up_z := 7 # 100;
  pen_down_z := 0;
  rx := 0;
  ry := 314159 # 100000;
  rz := 0
|}.

(** *** [parse_path_commands] *)

Definition command_letters : string := "MLmlHhVvZzCcSsQqTtAa"%string.

(** [int(token)] on a decimal integer literal. *)
Definition int_of_string (s : string) : option Z :=
  let '(neg, s) := read_sign s in
  let '(v, n, rest) := read_digits s 0%Z 0%nat in
  match rest with
  | EmptyString =>
      if (n =? 0)%nat then None
      else Some (if (neg : bool) then (- v)%Z else v)
  | _ => None
  end.

(** The index of the first [move] of the list, [0] when there is none:
    the value of [segment_start] after the search loop. *)
Fixpoint first_move_index (j : nat) (cmds : list command) : nat :=
  match cmds with
  | [] => 0
  | cmd :: rest =>
      match cmd_tag cmd with
      | move => j
      | line => first_move_index (S j) rest
      end
  end.

(** One quadratic Bezier segment sampled at [steps] points. *)
Definition quadratic_samples (commands : list command)
    (x0 y0 ctrl_x ctrl_y end_x end_y : Q) (steps : nat) : list command :=
  fold_left
    (fun commands t =>
       let t_norm := of_nat t / of_nat steps in
       let bx := (1 - t_norm) ^ 2 * x0 + 2 * (1 - t_norm) * t_norm * ctrl_x
                 + t_norm ^ 2 * end_x in
       let by_ := (1 - t_norm) ^ 2 * y0 + 2 * (1 - t_norm) * t_norm * ctrl_y
                  + t_norm ^ 2 * end_y in
       commands ++ [(line, bx, by_)])
    (range1 steps) commands.

Local Open Scope string_scope.

Section Interpreter.

Variable float : string -> option Q.
Variable commands : list string.

Local Open Scope stmt_scope.

(** [try: body except (ValueError, IndexError): handler]. *)
Definition try_except2 (body handler : stmt unit) : stmt unit :=
  fun st =>
    match body st with
    | (st', Raise ValueError) => handler st'
    | (st', Raise IndexError) => handler st'
    | r => r
    end.

(** [int(commands[k])]. *)
Definition int_token (k : nat) : stmt Z :=
  match nth_error commands k with
  | None => raise IndexError
  | Some tok =>
      match int_of_string tok with
      | Some v => ret v
      | None => raise ValueError
      end
  end.

Definition move_command (cmd : string) : stmt unit :=
  let* st := get in
  try_except
    (let* x := float_token float commands (i st) in
     let* y := float_token float commands (i st + 1) in
     let '(x, y) := adjust (is_cmd cmd "m") (abs_position st) (x, y) in
     set_abs_position (x, y) ;;;
     append (move, x, y) ;;;
     advance 2)
    (advance 1).

Definition line_command (cmd : string) : stmt unit :=
  let* st := get in
  try_except
    (let* x := float_token float commands (i st) in
     let* y := float_token float commands (i st + 1) in
     let '(x, y) := adjust (is_cmd cmd "l") (abs_position st) (x, y) in
     set_abs_position (x, y) ;;;
     append (line, x, y) ;;;
     advance 2)
    (advance 1).

Definition horizontal_command (cmd : string) : stmt unit :=
  let* st := get in
  try_except
    (let* x := float_token float commands (i st) in
     let x := if is_cmd cmd "h" then x + fst (abs_position st) else x in
     set_abs_position (x, snd (abs_position st)) ;;;
     append (line, x, snd (abs_position st)) ;;;
     advance 1)
    (advance 1).

Definition vertical_command (cmd : string) : stmt unit :=
  let* st := get in
  try_except
    (let* y := float_token float commands (i st) in
     let y := if is_cmd cmd "v" then y + snd (abs_position st) else y in
     set_abs_position (fst (abs_position st), y) ;;;
     append (line, fst (abs_position st), y) ;;;
     advance 1)
    (advance 1).

(** The branch [current_cmd in 'Zz']: a line to the first [move] of
    [drawing_commands] (to its first command when it holds no
    [move]). *)
Definition close_command : stmt unit :=
  let* st := get in
  let segment_start := first_move_index 0 (drawing_commands st) in
  (if (segment_start <? length (drawing_commands st))%nat then
     let* first_move :=
       lift_result (index (drawing_commands st) segment_start) in
     append (line, cmd_x first_move, cmd_y first_move) ;;;
     set_abs_position (cmd_x first_move, cmd_y first_move)
   else ret tt) ;;;
  advance 1.

Definition cubic_command (cmd : string) : stmt unit :=
  let* st := get in
  try_except2
    (let* ctrl1_x := float_token float commands (i st) in
     let* ctrl1_y := float_token float commands (i st + 1) in
     let* ctrl2_x := float_token float commands (i st + 2) in
     let* ctrl2_y := float_token float commands (i st + 3) in
     let* end_x := float_token float commands (i st + 4) in
     let* end_y := float_token float commands (i st + 5) in
     let relative := is_cmd cmd "c" || is_cmd cmd "s" in
     let '(ctrl1_x, ctrl1_y) :=
       adjust relative (abs_position st) (ctrl1_x, ctrl1_y) in
     let '(ctrl2_x, ctrl2_y) :=
       adjust relative (abs_position st) (ctrl2_x, ctrl2_y) in
     let '(end_x, end_y) :=
       adjust relative (abs_position st) (end_x, end_y) in
     set_drawing_commands
       (approximate_bezier_curve (drawing_commands st)
          (fst (abs_position st)) (snd (abs_position st))
          ctrl1_x ctrl1_y ctrl2_x ctrl2_y end_x end_y 10) ;;;
     set_abs_position (end_x, end_y) ;;;
     advance 6)
    (advance 1).

Definition quadratic_command (cmd : string) : stmt unit :=
  let* st := get in
  try_except2
    (let* ctrl_x := float_token float commands (i st) in
     let* ctrl_y := float_token float commands (i st + 1) in
     let* end_x := float_token float commands (i st + 2) in
     let* end_y := float_token float commands (i st + 3) in
     let relative := is_cmd cmd "q" || is_cmd cmd "t" in
     let '(ctrl_x, ctrl_y) :=
       adjust relative (abs_position st) (ctrl_x, ctrl_y) in
     let '(end_x, end_y) :=
       adjust relative (abs_position st) (end_x, end_y) in
     set_drawing_commands
       (quadratic_samples (drawing_commands st)
          (fst (abs_position st)) (snd (abs_position st))
          ctrl_x ctrl_y end_x end_y 10) ;;;
     set_abs_position (end_x, end_y) ;;;
     advance 4)
    (advance 1).

(** Arcs are drawn as one line to their end point. *)
Definition arc_command (cmd : string) : stmt unit :=
  let* st := get in
  try_except2
    (let* rx := float_token float commands (i st) in
     let* ry := float_token float commands (i st + 1) in
     let* x_axis_rotation := float_token float commands (i st + 2) in
     let* large_arc_flag := int_token (i st + 3) in
     let* sweep_flag := int_token (i st + 4) in
     let* end_x := float_token float commands (i st + 5) in
     let* end_y := float_token float commands (i st + 6) in
     let '(end_x, end_y) :=
       adjust (is_cmd cmd "a") (abs_position st) (end_x, end_y) in
     append (line, end_x, end_y) ;;;
     set_abs_position (end_x, end_y) ;;;
     advance 7)
    (advance 1).

(** The body of the [while] loop: one [if]/[elif] chain. *)
Definition iteration : stmt unit :=
  let* st := get in
  match nth_error commands (i st) with
  | None => raise IndexError
  | Some tok =>
      if str_in tok command_letters then
        set_current_cmd tok ;;; advance 1
      else
        match current_cmd st with
        | None => raise TypeError
        | Some cmd =>
            let room k := (i st + k <? length commands)%nat in
            if str_in cmd "Mm" && room 1%nat then move_command cmd
            else if str_in cmd "Ll" && room 1%nat then line_command cmd
            else if str_in cmd "Hh" && room 0%nat
                 then horizontal_command cmd
            else if str_in cmd "Vv" && room 0%nat then vertical_command cmd
            else if str_in cmd "Zz" then close_command
            else if str_in cmd "CcSs" && room 5%nat then cubic_command cmd
            else if str_in cmd "QqTt" && room 3%nat
                 then quadratic_command cmd
            else if str_in cmd "Aa" && room 6%nat then arc_command cmd
            else advance 1
        end
  end.

Fixpoint parse_loop (fuel : nat) : stmt unit :=
  match fuel with
  | O => ret tt
  | S fuel =>
      let* st := get in
      if (i st <? length commands)%nat
      then iteration ;;; parse_loop fuel
      else ret tt
  end.

End Interpreter.

(** One round of [for path_index, path_d in enumerate(paths)]: the path
    is interpreted from a fresh position, appending to the commands of
    the paths before it; [except Exception] keeps what was appended
    before the exception. *)
Definition parse_one_path (float : string -> option Q)
    (collected : list command) (path_d : string) : list command :=
  let commands := split (replace_char "," " " path_d) in
  let st := {|
    i := 0;
    current_cmd := None;
    drawing_commands := collected;
    abs_position := (0, 0);
    start_position := (0, 0);
    first_position := (0, 0);
    x1 := None;
    y1 := None
  |} in
  drawing_commands
    (fst (parse_loop float commands (length commands) st)).

Definition parse_path_commands (float : string -> option Q)
    (paths : list string) : list command :=
  fold_left (parse_one_path float) paths [].

Local Close Scope string_scope.

(** *** [scale_to_a4] *)
Definition scale_to_a4 (self : SVGToTrajectoryConverter)
    (drawing_commands : list command) : list command :=
  match drawing_commands with
  | [] => []
  | first :: rest =>
      let '(min_x, min_y, max_x, max_y) := bounding_box first rest in
      let svg_width := max_x - min_x in
      let svg_height := max_y - min_y in
      let scale_x :=
        if Qlt_bool 0 svg_width
        then (A4_WIDTH * (9 # 10)) / svg_width else 1 in
      let scale_y :=
        if Qlt_bool 0 svg_height
        then (A4_HEIGHT * (9 # 10)) / svg_height else 1 in
      let scale := Qmin scale_x scale_y in
      map (fun cmd =>
             let x_norm := cmd_x cmd - (min_x + svg_width / 2) in
             let y_norm := cmd_y cmd - (min_y + svg_height / 2) in
             let x := center_x self + x_norm * scale in
             let y := center_y self + y_norm * scale in
             (cmd_tag cmd, x, y))
          drawing_commands
  end.

(** *** [generate_trajectory] *)
Definition generate_trajectory (self : SVGToTrajectoryConverter)
    (scaled_commands : list command) : list step :=
  map (fun cmd =>
         let x := cmd_x cmd in
         let y := cmd_y cmd in
         match cmd_tag cmd with
         | move =>
             let z := z_surface self + pen_up_z self in
             (move, [x; y; z; rx self; ry self; rz self])
         | line =>
             let z := z_surface self + pen_down_z self in
             (line, [x; y; z; rx self; ry self; rz self])
         end)
      scaled_commands.

(** *** [save_trajectory] *)
Definition tag_name (t : cmd_type) : string :=
  match t with
  | move => "move"%string
  | line => "line"%string
  end.

(** The document written: every step is the pair of its tag and its
    pose, which [json.dump] writes as a two-element array. *)
Definition save_trajectory (trajectory : list step) : option json :=
  if is_empty trajectory then None
  else
    let serializable_trajectory :=
      map (fun '(cmd, pose) =>
             let serializable_pose := map JNumber pose in
             JArray [JString (tag_name cmd); JArray serializable_pose])
          trajectory in
    Some (JArray serializable_trajectory).

End Root.

(** ** Shape adapters and [parse_svg_path] *)

(** [circle_to_commands]: a [move] to the point at angle 0 and one [line]
    per segment. *)
Definition circle_to_commands (math : MathModule) (cx cy r : Q)
    (num_segments : nat) : list command :=
  let x := cx + r * math_cos math (math_radians math 0) in
  let y := cy + r * math_sin math (math_radians math 0) in
  fold_left
    (fun commands i =>
       let angle := of_nat (i * 360) / of_nat num_segments in
       let x := cx + r * math_cos math (math_radians math angle) in
       let y := cy + r * math_sin math (math_radians math angle) in
       commands ++ [(line, x, y)])
    (range1 num_segments) [(move, x, y)].

(** The commands written for a [<rect>] and for a [<line>]. *)
Definition rect_cmds (x y width height : Q) : list command :=
  [(move, x, y);
   (line, x + width, y);
   (line, x + width, y + height);
   (line, x, y + height);
   (line, x, y)].

Definition line_cmds (x1 y1 x2 y2 : Q) : list command :=
  [(move, x1, y1); (line, x2, y2)].

(** The elements [root.findall] returns, by kind and in document order,
    each with its attributes as written ([None]: the attribute is
    absent). *)
Record svg_document : Type := {
  path_elements : list (option string);
  circle_elements : list (option string * option string * option string);
  rect_elements :
    list (option string * option string * option string * option string);
  line_elements :
    list (option string * option string * option string * option string);
  polyline_elements : list (option string);
  polygon_elements : list (option string)
}.

Section Adapters.

Variable float : string -> option Q.
Variable math : MathModule.

(** [float(s)]. *)
Definition to_float (s : string) : result Q :=
  match float s with
  | Some v => Ok v
  | None => Raise ValueError
  end.

(** [float(element.get(name, 0))]. *)
Definition float_attribute (attribute : option string) : result Q :=
  match attribute with
  | Some s => to_float s
  | None => Ok 0
  end.

(** [[(float(coords[i]), float(coords[i+1])) for i in range(0, len(coords), 2)]]
    on a list of even length. *)
Fixpoint coordinate_pairs (coords : list string) : result (list (Q * Q)) :=
  match coords with
  | a :: b :: rest =>
      x <- to_float a ;;
      y <- to_float b ;;
      l <- coordinate_pairs rest ;;
      Ok ((x, y) :: l)
  | _ => Ok []
  end.

(** The loop [for point_pair in points.replace(',', ' ').strip().split()]
    that fills [point_list].  A token with a space in it is split in two
    (the polygon appends the pair, the polyline only unpacks it); any other
    token makes the code look at all the coordinates: when their number
    is even they become the point list and the loop stops. *)
Fixpoint points_loop (polygon : bool) (coords todo : list string)
    (point_list : list (Q * Q)) : result (list (Q * Q)) :=
  match todo with
  | [] => Ok point_list
  | point_pair :: rest =>
      if str_in " " point_pair then
        match split point_pair with
        | [x; y] =>
            if polygon then
              fx <- to_float x ;;
              fy <- to_float y ;;
              points_loop polygon coords rest (point_list ++ [(fx, fy)])
            else points_loop polygon coords rest point_list
        | _ => Raise ValueError
        end
      else if Nat.even (length coords) then coordinate_pairs coords
      else points_loop polygon coords rest point_list
  end.

Definition parse_points (polygon : bool) (points : string)
  : result (list (Q * Q)) :=
  let coords := split (replace_char "," " " points) in
  points_loop polygon coords coords [].

(** The commands of a point list: nothing for an empty list, else a [move]
    to the first point and a [line] to every other one; the polygon adds a
    [line] back to the first point. *)
Definition poly_cmds (polygon : bool) (point_list : list (Q * Q))
  : list command :=
  match point_list with
  | [] => []
  | (x, y) :: rest =>
      let poly_cmds :=
        (move, x, y) :: map (fun '(x, y) => (line, x, y)) rest in
      if polygon then poly_cmds ++ [(line, x, y)] else poly_cmds
  end.

(** What one [<polyline>] or [<polygon>] element adds. *)
Definition poly_element (polygon : bool) (points : option string)
  : result (list command) :=
  match points with
  | None | Some EmptyString => Ok []
  | Some points =>
      point_list <- parse_points polygon points ;;
      Ok (poly_cmds polygon point_list)
  end.

(** What one [<path>] element adds. *)
Definition path_element (d : option string) : result (list command) :=
  match d with
  | None | Some EmptyString => Ok []
  | Some d => parse_path_data float math d
  end.

Definition circle_element
    (attributes : option string * option string * option string)
  : result (list command) :=
  let '(cx, cy, r) := attributes in
  cx <- float_attribute cx ;;
  cy <- float_attribute cy ;;
  r <- float_attribute r ;;
  Ok (circle_to_commands math cx cy r 36).

Definition rect_element
    (attributes : option string * option string * option string * option string)
  : result (list command) :=
  let '(x, y, width, height) := attributes in
  x <- float_attribute x ;;
  y <- float_attribute y ;;
  width <- float_attribute width ;;
  height <- float_attribute height ;;
  Ok (rect_cmds x y width height).

Definition line_element
    (attributes : option string * option string * option string * option string)
  : result (list command) :=
  let '(x1, y1, x2, y2) := attributes in
  x1 <- float_attribute x1 ;;
  y1 <- float_attribute y1 ;;
  x2 <- float_attribute x2 ;;
  y2 <- float_attribute y2 ;;
  Ok (line_cmds x1 y1 x2 y2).

(** One [for element in root.findall(...)] loop: every element extends
    [drawing_commands]; an exception ends the loop. *)
Fixpoint extend_all {A : Type} (element : A -> result (list command))
    (elements : list A) (drawing_commands : list command)
  : result (list command) :=
  match elements with
  | [] => Ok drawing_commands
  | e :: rest =>
      cmds <- element e ;;
      extend_all element rest (drawing_commands ++ cmds)
  end.

(** The body of the [try] block of [parse_svg_path], from the parsed
    document on. *)
Definition collect_commands (document : svg_document)
  : result (list command) :=
  c <- extend_all path_element (path_elements document) [] ;;
  c <- extend_all circle_element (circle_elements document) c ;;
  c <- extend_all rect_element (rect_elements document) c ;;
  c <- extend_all line_element (line_elements document) c ;;
  c <- extend_all (poly_element false) (polyline_elements document) c ;;
  extend_all (poly_element true) (polygon_elements document) c.

(** [parse_svg_path] on a file that exists and parses as XML: any exception
    is logged and the result is the empty list. *)
Definition parse_svg_path (document : svg_document) : list command :=
  match collect_commands document with
  | Ok drawing_commands => drawing_commands
  | Raise _ => []
  end.

(** ** The pipeline: [convert_svg_to_trajectory] *)

Definition convert_svg_to_trajectory (s : Settings)
    (self : SVGToTrajectoryConverter) (document : svg_document)
  : result (list step) :=
  let drawing_commands := parse_svg_path document in
  if is_empty drawing_commands then Ok []
  else
    let drawing_commands := detect_closed_paths s drawing_commands in
    let drawing_commands :=
      if PATH_OPTIMIZATION s then optimize_paths s drawing_commands
      else drawing_commands in
    robot_commands <- scale_to_robot_coordinates self drawing_commands ;;
    if is_empty robot_commands then Ok []
    else generate_trajectory self robot_commands.

End Adapters.

(** ** Calibration: [RobotConfig.load_calibration] *)

(** The keys of the calibration file that reach the attributes of
    [RobotConfig] kept here, for a file whose values have the expected
    types ([None]: the key is absent). *)
Record Calibration : Type := {
  drawing_surface : option Q;
  calibrated_home_position : option (list Q)
}.

Definition get_default {A : Type} (value : option A) (default : A) : A :=
  match value with
  | Some v => v
  | None => default
  end.

(** [load_calibration]; [file] is [None] when the calibration file does
    not exist or cannot be read.  The assignments are made one after the
    other: an
    [IndexError] on the home position is caught and leaves the attributes
    assigned before it changed. *)
Definition load_calibration (self : RobotConfig) (file : option Calibration)
  : RobotConfig :=
  match file with
  | None => self
  | Some calibration =>
      let z := get_default (drawing_surface calibration) (z_surface self) in
      let home :=
        get_default (calibrated_home_position calibration)
                    (home_position self) in
      let loaded cx cy rx' ry' rz' := {|
        center_x := cx; center_y := cy; z_surface := z;
        rx := rx'; ry := ry'; rz := rz'; home_position := home |} in
      match home with
      | [] => loaded (center_x self) (center_y self) (rx self) (ry self) (rz self)
      | [h0] => loaded h0 (center_y self) (rx self) (ry self) (rz self)
      | h0 :: h1 :: rest =>
          if (6 <=? length home)%nat then
            match nth_error home 3, nth_error home 4, nth_error home 5 with
            | Some h3, Some h4, Some h5 => loaded h0 h1 h3 h4 h5
            | _, _, _ => loaded h0 h1 (rx self) (ry self) (rz self)
            end
          else loaded h0 h1 (rx self) (ry self) (rz self)
      end
  end.

(** [RobotConfig(calibration_file)]. *)
Definition new_robot_config (s : Settings) (file : option Calibration)
  : RobotConfig :=
  load_calibration (default_robot_config s) file.

(** ** Consumers of the trajectory file *)

(** [drawing_app.load_trajectory_from_json], after the file is chosen and
    read: [coordinates = [item[0] for item in data]]; [None] when the
    comprehension raises (the function prints the error and returns
    [None]). *)
Definition first_item (item : json) : option json :=
  match item with
  | JArray (x :: _) => Some x
  | JString (String c _) => Some (JString (String c EmptyString))
  | _ => None
  end.

Fixpoint first_items (items : list json) : option (list json) :=
  match items with
  | [] => Some []
  | item :: rest =>
      match first_item item, first_items rest with
      | Some x, Some l => Some (x :: l)
      | _, _ => None
      end
  end.

Definition load_coordinates (data : json) : option (list json) :=
  match data with
  | JArray items => first_items items
  | JString s =>
      Some (map (fun c => JString (String c EmptyString))
                (list_ascii_of_string s))
  | JNumber _ => None
  end.

(** [l[k] = v] on a Python list. *)
Fixpoint assign {A : Type} (l : list A) (k : nat) (v : A) : result (list A) :=
  match l, k with
  | [], _ => Raise IndexError
  | _ :: rest, O => Ok (v :: rest)
  | a :: rest, S k => l' <- assign rest k v ;; Ok (a :: l')
  end.

(** [mm_to_m] of [drawing_app.py] and [csakdash.py]: the first three
    entries divided by 1000. *)
Definition mm_to_m (position_mm : list Q) : result (list Q) :=
  fold_left
    (fun position_m k =>
       position_m <- position_m ;;
       v <- index position_mm k ;;
       assign position_m k (v / 1000))
    [0; 1; 2]%nat (Ok position_mm).




(** ** The Koch curve generator, [Onlab/koch.py] *)

Section Koch.

Variable math : MathModule.

(** The module [random]: [draws k] is what the call number [k] of
    [random.random()] returns; the state of the generator is the number of
    calls made so far. *)
Variable draws : nat -> Q.

Definition random_random (rng : nat) : Q * nat := (draws rng, S rng).

(** [random.uniform(a, b)] is [a + (b - a) * random()]. *)
Definition random_uniform (a b : Q) (rng : nat) : Q * nat :=
  (a + (b - a) * draws rng, S rng).

(** [generate_koch_points] for a [depth] that is a natural number (on a
    negative one the source recurses without end); the state of the random
    generator goes in and out. *)
Fixpoint generate_koch_points (start_x start_y end_x end_y : Q) (depth : nat)
    (randomize : bool) (rand_factor : Q) (rng : nat)
  : list (Q * Q) * nat :=
  match depth with
  | O => ([(start_x, start_y); (end_x, end_y)], rng)
  | S depth =>
      let vector_x := end_x - start_x in
      let vector_y := end_y - start_y in
      (* Calculate 1/3 and 2/3 points along the line *)
      let one_third_x := start_x + vector_x / 3 in
      let one_third_y := start_y + vector_y / 3 in
      let two_thirds_x := start_x + 2 * vector_x / 3 in
      let two_thirds_y := start_y + 2 * vector_y / 3 in
      (* Calculate the peak point *)
      let segment_length :=
        math_sqrt math (vector_x ^ 2 + vector_y ^ 2) / 3 in
      let original_angle := math_atan2 math vector_y vector_x in
      let peak_angle_offset := math_pi math / 3 in
      let '(peak_angle_offset, segment_length, rng) :=
        if randomize then
          let '(degrees, rng) := random_uniform 40 80 rng in
          let '(factor, rng) := random_uniform (8 # 10) (12 # 10) rng in
          (math_radians math degrees, segment_length * factor, rng)
        else (peak_angle_offset, segment_length, rng) in
      let peak_angle := original_angle - peak_angle_offset in
      let peak_x := one_third_x + segment_length * math_cos math peak_angle in
      let peak_y := one_third_y + segment_length * math_sin math peak_angle in
      (* Apply randomness to the point positions if requested *)
      let '(displace, rng) :=
        if randomize then
          let '(r, rng) := random_random rng in (Qlt_bool r rand_factor, rng)
        else (false, rng) in
      let '(one_third_x, one_third_y, two_thirds_x, two_thirds_y,
            peak_x, peak_y, rng) :=
        if (displace : bool) then
          let max_offset := segment_length * (5 # 100) in
          let '(d1, rng) := random_uniform (- max_offset) max_offset rng in
          let '(d2, rng) := random_uniform (- max_offset) max_offset rng in
          let '(d3, rng) := random_uniform (- max_offset) max_offset rng in
          let '(d4, rng) := random_uniform (- max_offset) max_offset rng in
          let '(d5, rng) := random_uniform (- max_offset) max_offset rng in
          let '(d6, rng) := random_uniform (- max_offset) max_offset rng in
          (one_third_x + d1, one_third_y + d2,
           two_thirds_x + d3, two_thirds_y + d4,
           peak_x + d5, peak_y + d6, rng)
        else (one_third_x, one_third_y, two_thirds_x, two_thirds_y,
              peak_x, peak_y, rng) in
      (* Recursively generate points for each of the 4 new line segments *)
      let '(p1, rng) :=
        generate_koch_points start_x start_y one_third_x one_third_y
                             depth randomize rand_factor rng in
      let '(p2, rng) :=
        generate_koch_points one_third_x one_third_y peak_x peak_y
                             depth randomize rand_factor rng in
      let '(p3, rng) :=
        generate_koch_points peak_x peak_y two_thirds_x two_thirds_y
                             depth randomize rand_factor rng in
      let '(p4, rng) :=
        generate_koch_points two_thirds_x two_thirds_y end_x end_y
                             depth randomize rand_factor rng in
      (removelast p1 ++ removelast p2 ++ removelast p3 ++ p4, rng)
  end.

(** The vertices of the hexagon of [create_abstract_koch]. *)
Definition hexagon_vertices : list (Q * Q) :=
  let svg_width := 210 in
  let svg_height := 297 in
  let center_x := svg_width / 2 in
  let center_y := svg_height / 2 in
  let radius := 50 in
  let num_sides := 6%nat in
  map (fun i =>
         let angle := 2 * math_pi math * of_nat i / of_nat num_sides in
         (center_x + radius * math_cos math angle,
          center_y + radius * math_sin math angle))
      (seq 0 num_sides).

(** [vertices[k]]. *)
Definition vertex (vertices : list (Q * Q)) (k : nat) : result (Q * Q) :=
  match nth_error vertices k with
  | Some v => Ok v
  | None => Raise IndexError
  end.

(** One side of the hexagon: the body of the second loop of
    [create_abstract_koch], on [all_points] and the random generator. *)
Definition koch_side (vertices : list (Q * Q)) (acc : result (list (Q * Q) * nat))
    (i : nat) : result (list (Q * Q) * nat) :=
  acc <- acc ;;
  let '(all_points, rng) := acc in
  start <- vertex vertices i ;;
  finish <- vertex vertices ((i + 1) mod 6) ;;
  let '(points, rng) :=
    if Nat.even i
    then generate_koch_points (fst start) (snd start) (fst finish) (snd finish)
                              4 false (2 # 10) rng
    else generate_koch_points (fst start) (snd start) (fst finish) (snd finish)
                              4 true (3 # 10) rng in
  Ok (all_points ++ removelast points, rng).

(** [all_points] of [create_abstract_koch] when the path is written. *)
Definition abstract_koch_points (rng : nat) : result (list (Q * Q)) :=
  let vertices := hexagon_vertices in
  acc <- fold_left (koch_side vertices) (seq 0 6) (Ok ([], rng)) ;;
  let all_points := fst acc in
  (* Close the shape *)
  first <- match all_points with
           | [] => Raise IndexError
           | p :: _ => Ok p
           end ;;
  Ok (all_points ++ [first]).

End Koch.

(** * The numeric passes in double precision

    The optimizer, the closer and the mapper decide by comparing and
    combining floats, and their results at a boundary depend on how the
    operations round.  Here the three passes are embedded on binary64
    numbers ([PrimFloat]: IEEE 754 arithmetic, rounded to nearest with ties
    to even, which is what CPython's [float] is).  [+], [-], [*], [/], the
    comparisons and [math.sqrt] are the primitive operations.  [x ** 2] is
    the C library's [pow], whose result is not always the correctly rounded
    square; it is a parameter of the passes ([square]) and may raise
    [OverflowError].  [rounded_square] is the correctly rounded square, which
    [pow] returns whenever the square is a double. *)

Module Doubles.

Import PrimFloat.
Local Open Scope float_scope.

Definition command : Type := (cmd_type * float * float)%type.

Definition cmd_tag (c : command) : cmd_type := fst (fst c).
Definition cmd_x (c : command) : float := snd (fst c).
Definition cmd_y (c : command) : float := snd c.

(** [l[-1]]; the default is never reached where the code guards the
    access. *)
Definition last_cmd (l : list command) : command := last l (move, 0, 0).

(** [a / b]: a zero divisor of either sign raises. *)
Definition fdiv (a b : float) : result float :=
  if b =? 0 then Raise ZeroDivisionError else Ok (a / b).

(** [math.sqrt]: a negative argument is a domain error. *)
Definition math_sqrt (x : float) : result float :=
  if x <? 0 then Raise ValueError else Ok (sqrt x).

(** [x ** 2] where the library rounds correctly: the product rounded once,
    [OverflowError] when a finite [x] has a square out of range. *)
Definition rounded_square (x : float) : result float :=
  let r := x * x in
  if is_infinity r && negb (is_infinity x) then Raise OverflowError
  else Ok r.

(** The number a double stands for ([None] for the infinities and
    not-a-number). *)
Definition double_value (f : float) : option Q :=
  match FloatOps.Prim2SF f with
  | SpecFloat.S754_zero _ => Some 0%Q
  | SpecFloat.S754_finite s m e =>
      let v := (inject_Z (Zpos m) * 2 ^ e)%Q in
      Some (if s then (- v)%Q else v)
  | _ => None
  end.

(** The two-argument [min] and [max] of Python: the first argument is kept
    unless the second is strictly smaller (larger). *)
Definition py_min (a b : float) : float := if b <? a then b else a.
Definition py_max (a b : float) : float := if a <? b then b else a.

Section Passes.

(** [x ** 2] on the platform. *)
Variable square : float -> result float.

Variable PATH_OPTIMIZATION : bool.
Variable PATH_TOLERANCE : float.
Variable MAX_SEGMENTS_PER_PATH : nat.

(** [math.sqrt((x2 - x1)**2 + (y2 - y1)**2)]. *)
Definition distance (x1 y1 x2 y2 : float) : result float :=
  a <- square (x2 - x1) ;;
  b <- square (y2 - y1) ;;
  math_sqrt (a + b).

(** One iteration of the loop of [optimize_paths]. *)
Definition optimize_step (i : nat) (cmd : command)
    (optimized current_path : list command)
  : result (list command * list command) :=
  let '(cmd_type, x, y) := cmd in
  match cmd_type with
  | move =>
      let '(optimized, current_path) :=
        if negb (is_empty current_path)
        then (optimized ++ current_path, [])
        else (optimized, current_path) in
      connect <-
        (if (0 <? i)%nat && (0 <? length optimized)%nat then
           d <- distance (cmd_x (last_cmd optimized))
                         (cmd_y (last_cmd optimized)) x y ;;
           Ok (d <=? PATH_TOLERANCE)
         else Ok false) ;;
      if (connect : bool)
      then Ok (optimized ++ [(line, x, y)], current_path)
      else Ok (optimized, current_path ++ [(move, x, y)])
  | _ =>
      let current_path := current_path ++ [(cmd_type, x, y)] in
      if (MAX_SEGMENTS_PER_PATH <=? length current_path)%nat
      then Ok (optimized ++ current_path, [])
      else Ok (optimized, current_path)
  end.

Fixpoint optimize_loop (i : nat) (cmds : list command)
    (optimized current_path : list command)
  : result (list command * list command) :=
  match cmds with
  | [] => Ok (optimized, current_path)
  | cmd :: rest =>
      acc <- optimize_step i cmd optimized current_path ;;
      optimize_loop (S i) rest (fst acc) (snd acc)
  end.

Definition optimize_paths (drawing_commands : list command)
  : result (list command) :=
  if negb PATH_OPTIMIZATION || is_empty drawing_commands
  then Ok drawing_commands
  else
    acc <- optimize_loop 0 drawing_commands [] [] ;;
    let '(optimized, current_path) := acc in
    if negb (is_empty current_path)
    then Ok (optimized ++ current_path)
    else Ok optimized.

(** The test of [detect_closed_paths]: the last point is close to the path
    start but not exactly at it. *)
Definition near_miss (last_x last_y : float) (path_start : float * float)
  : result bool :=
  d <- distance last_x last_y (fst path_start) (snd path_start) ;;
  Ok ((d <? PATH_TOLERANCE) &&
      (negb (last_x =? fst path_start) || negb (last_y =? snd path_start))).

Definition close_step (cmd : command) (result' : list command)
    (path_start : option (float * float))
  : result (list command * option (float * float)) :=
  let '(cmd_type, x, y) := cmd in
  acc <-
    match cmd_type with
    | move =>
        closed <-
          match path_start with
          | Some start =>
              let last_cmd := last_cmd result' in
              close <- near_miss (cmd_x last_cmd) (cmd_y last_cmd) start ;;
              if (close : bool)
              then Ok (result' ++ [(line, fst start, snd start)])
              else Ok result'
          | None => Ok result'
          end ;;
        Ok (closed, Some (x, y))
    | _ => Ok (result', path_start)
    end ;;
  Ok (fst acc ++ [cmd], snd acc).

Fixpoint close_loop (cmds : list command) (result' : list command)
    (path_start : option (float * float))
  : result (list command * option (float * float)) :=
  match cmds with
  | [] => Ok (result', path_start)
  | cmd :: rest =>
      acc <- close_step cmd result' path_start ;;
      close_loop rest (fst acc) (snd acc)
  end.

Definition detect_closed_paths (drawing_commands : list command)
  : result (list command) :=
  if is_empty drawing_commands then Ok drawing_commands
  else
    acc <- close_loop drawing_commands [] None ;;
    let '(result', path_start) := acc in
    match path_start with
    | Some start =>
        if (0 <? length result')%nat then
          close <- near_miss (cmd_x (last_cmd result'))
                             (cmd_y (last_cmd result')) start ;;
          if (close : bool)
          then Ok (result' ++ [(line, fst start, snd start)])
          else Ok result'
        else Ok result'
    | None => Ok result'
    end.

End Passes.

(** The attributes of the converter the mapper reads. *)
Record Converter : Type := {
  center_x : float;
  center_y : float;
  scale_factor : float;
  preserve_aspect_ratio : bool;
  offset_x : float;
  offset_y : float
}.

(** A4 paper dimensions in mm. *)
Definition A4_WIDTH : float := 210.
Definition A4_HEIGHT : float := 297.

(** The bounding box [(min_x, min_y, max_x, max_y)], the four accumulators
    starting at [inf] and [-inf]. *)
Definition bounding_box (drawing_commands : list command)
  : float * float * float * float :=
  fold_left
    (fun '(min_x, min_y, max_x, max_y) cmd =>
       (py_min min_x (cmd_x cmd), py_min min_y (cmd_y cmd),
        py_max max_x (cmd_x cmd), py_max max_y (cmd_y cmd)))
    drawing_commands
    (infinity, infinity, neg_infinity, neg_infinity).

Definition scaling_factors (self : Converter) (svg_width svg_height : float)
  : result (float * float) :=
  if preserve_aspect_ratio self then
    w <- fdiv A4_WIDTH svg_width ;;
    h <- fdiv A4_HEIGHT svg_height ;;
    let scale := py_min w h * scale_factor self in
    Ok (scale, scale)
  else
    w <- fdiv A4_WIDTH svg_width ;;
    let scale_x := w * scale_factor self in
    h <- fdiv A4_HEIGHT svg_height ;;
    let scale_y := h * scale_factor self in
    Ok (scale_x, scale_y).

Definition to_robot (self : Converter)
    (svg_center_x svg_center_y scale_x scale_y : float) (cmd : command)
  : command :=
  let x_centered := (cmd_x cmd - svg_center_x) * scale_x in
  let y_centered := (cmd_y cmd - svg_center_y) * scale_y in
  let robot_x := center_x self + x_centered + offset_x self in
  let robot_y := center_y self + y_centered + offset_y self in
  (cmd_tag cmd, robot_x, robot_y).

Definition scale_to_robot_coordinates (self : Converter)
    (drawing_commands : list command) : result (list command) :=
  if is_empty drawing_commands then Ok []
  else
    let '(min_x, min_y, max_x, max_y) := bounding_box drawing_commands in
    let svg_width := max_x - min_x in
    let svg_height := max_y - min_y in
    let svg_center_x := min_x + svg_width / 2 in
    let svg_center_y := min_y + svg_height / 2 in
    sc <- scaling_factors self svg_width svg_height ;;
    let '(scale_x, scale_y) := sc in
    Ok (map (to_robot self svg_center_x svg_center_y scale_x scale_y)
            drawing_commands).

End Doubles.

(** * Properties *)

(** ** Comparisons *)

Lemma Qlt_bool_iff (a b : Q) : Qlt_bool a b = true <-> a < b.
Proof.
  unfold Qlt_bool. rewrite negb_true_iff.
  split; intro H.
  - apply Qnot_le_lt. intro Hle. apply Qle_bool_iff in Hle. congruence.
  - destruct (Qle_bool b a) eqn:E; [|reflexivity].
    apply Qle_bool_iff in E. exfalso. apply (Qlt_not_le _ _ H E).
Qed.


Lemma Qle_bool_false_iff (a b : Q) : Qle_bool a b = false <-> b < a.
Proof.
  rewrite <- Qlt_bool_iff. unfold Qlt_bool.
  destruct (Qle_bool a b); simpl; split; congruence.
Qed.

(** ** The path optimizer *)

(** The optimizer in the words of the specification: a [move] whose target
    lies within the tolerance of the point emitted just before it becomes a
    [line]; every other command is kept.  [prev] is the point emitted just
    before, if any. *)
Fixpoint rewrite_moves (tolerance : Q) (prev : option (Q * Q))
    (cmds : list command) : list command :=
  match cmds with
  | [] => []
  | (t, x, y) :: rest =>
      let t' :=
        match t, prev with
        | move, Some (px, py) =>
            if root_le (distance px py x y) tolerance then line else move
        | _, _ => t
        end in
      (t', x, y) :: rewrite_moves tolerance (Some (x, y)) rest
  end.

(** The point of the last command of a list. *)
Definition last_point (l : list command) : option (Q * Q) :=
  match l with
  | [] => None
  | _ => Some (cmd_x (last_cmd l), cmd_y (last_cmd l))
  end.

Lemma last_cmd_snoc (l : list command) (c : command) :
  last_cmd (l ++ [c]) = c.
Proof. unfold last_cmd. apply last_last. Qed.

Lemma last_point_snoc (l : list command) (t : cmd_type) (x y : Q) :
  last_point (l ++ [(t, x, y)]) = Some (x, y).
Proof.
  unfold last_point. rewrite last_cmd_snoc.
  destruct l; reflexivity.
Qed.

Lemma is_empty_length {A : Type} (l : list A) :
  is_empty l = (length l =? 0)%nat.
Proof. destruct l; reflexivity. Qed.

Lemma flush_pending (optimized current_path : list command) :
  (if negb (is_empty current_path)
   then (optimized ++ current_path, [])
   else (optimized, current_path)) = (optimized ++ current_path, []).
Proof.
  destruct current_path; simpl; [now rewrite app_nil_r | reflexivity].
Qed.

(** The two accumulators of the loop always hold, one after the other, the
    commands emitted so far; the chunking by [MAX_SEGMENTS_PER_PATH] only
    moves commands from one accumulator to the other. *)
Lemma optimize_step_emits (s : Settings) (n : nat) (cmd : command)
    (optimized current_path : list command) :
  n = length (optimized ++ current_path) ->
  let '(o, c) := optimize_step s n cmd optimized current_path in
  o ++ c =
  (optimized ++ current_path) ++
  rewrite_moves (PATH_TOLERANCE s)
    (last_point (optimized ++ current_path)) [cmd].
Proof.
  intro Hn. destruct cmd as [[t x] y].
  cbn [rewrite_moves]. destruct t; cbn [optimize_step].
  - (* move: the pending path is flushed first *)
    rewrite flush_pending.
    remember (optimized ++ current_path) as flushed eqn:Hfl.
    destruct flushed as [|c0 fl].
    + subst n. reflexivity.
    + assert (Hpos : ((0 <? n) && (0 <? length (c0 :: fl)) = true)%nat)
        by (subst n; reflexivity).
      rewrite Hpos. cbn [andb last_point].
      destruct (root_le _ _); [now rewrite app_nil_r | reflexivity].
  - (* line: appended to the pending path, which may then be flushed *)
    destruct (MAX_SEGMENTS_PER_PATH s <=? _)%nat.
    + rewrite app_nil_r, app_assoc. reflexivity.
    + now rewrite app_assoc.
Qed.

Lemma rewrite_moves_cons (tolerance : Q) (prev : option (Q * Q))
    (cmd : command) (rest : list command) :
  rewrite_moves tolerance prev (cmd :: rest) =
  rewrite_moves tolerance prev [cmd] ++
  rewrite_moves tolerance (Some (cmd_x cmd, cmd_y cmd)) rest.
Proof. destruct cmd as [[t x] y]. reflexivity. Qed.

Lemma last_point_rewritten (tolerance : Q) (prev : option (Q * Q))
    (cmd : command) (l : list command) :
  last_point (l ++ rewrite_moves tolerance prev [cmd]) =
  Some (cmd_x cmd, cmd_y cmd).
Proof. destruct cmd as [[t x] y]. cbn [rewrite_moves]. apply last_point_snoc. Qed.

Lemma rewrite_moves_length (tolerance : Q) (cmds : list command) :
  forall prev, length (rewrite_moves tolerance prev cmds) = length cmds.
Proof.
  induction cmds as [|[[t x] y] rest IH]; intro prev; simpl; [|rewrite IH];
    reflexivity.
Qed.

Lemma optimize_loop_emits (s : Settings) (cmds : list command) :
  forall (n : nat) (optimized current_path : list command),
    n = length (optimized ++ current_path) ->
    let '(o, c) := optimize_loop s n cmds optimized current_path in
    o ++ c =
    (optimized ++ current_path) ++
    rewrite_moves (PATH_TOLERANCE s)
      (last_point (optimized ++ current_path)) cmds.
Proof.
  induction cmds as [|cmd rest IH]; intros n optimized current_path Hn.
  - simpl. now rewrite app_nil_r.
  - cbn [optimize_loop].
    pose proof (optimize_step_emits s n cmd optimized current_path Hn) as Hstep.
    destruct (optimize_step s n cmd optimized current_path) as [o1 c1].
    specialize (IH (S n) o1 c1).
    destruct (optimize_loop s (S n) rest o1 c1) as [o c].
    rewrite IH.
    + rewrite Hstep, last_point_rewritten.
      rewrite (rewrite_moves_cons _ _ cmd rest).
      now rewrite <- app_assoc.
    + rewrite Hstep, length_app, rewrite_moves_length. simpl. lia.
Qed.

Lemma optimize_paths_rewrites (s : Settings) (c : list command) :
  optimize_paths s c =
  if PATH_OPTIMIZATION s then rewrite_moves (PATH_TOLERANCE s) None c else c.
Proof.
  unfold optimize_paths.
  destruct (PATH_OPTIMIZATION s); [|reflexivity].
  destruct c as [|c0 rest]; [reflexivity|].
  cbn [negb orb is_empty].
  pose proof (optimize_loop_emits s (c0 :: rest) 0 [] [] eq_refl) as H.
  destruct (optimize_loop s 0 (c0 :: rest) [] []) as [o p].
  cbn [app last_point] in H. rewrite <- H.
  destruct p; simpl; [now rewrite app_nil_r | reflexivity].
Qed.

Lemma rewrite_moves_idempotent (tolerance : Q) (cmds : list command) :
  forall prev,
    rewrite_moves tolerance prev (rewrite_moves tolerance prev cmds) =
    rewrite_moves tolerance prev cmds.
Proof.
  induction cmds as [|[[t x] y] rest IH]; intro prev; [reflexivity|].
  cbn [rewrite_moves]. f_equal.
  - destruct t; [|reflexivity].
    destruct prev as [[px py]|]; [|reflexivity].
    destruct (root_le _ _); reflexivity.
  - apply IH.
Qed.

(** ** The symbolic square root

    The comparisons [root_le] and [root_lt] decide the comparisons of the
    real square root with the tolerance. *)

Lemma square_nonneg (a : Q) : 0 <= a ^ 2.
Proof. change (a ^ 2) with (a * a). nra. Qed.

Lemma distance_radicand_nonneg (x1 y1 x2 y2 : Q) :
  0 <= radicand (distance x1 y1 x2 y2).
Proof.
  cbn [distance radicand].
  pose proof (square_nonneg (x2 - x1)) as H1.
  pose proof (square_nonneg (y2 - y1)) as H2.
  lra.
Qed.

Lemma root_le_real (r : root) (t : Q) :
  0 <= radicand r ->
  root_le r t = true <-> (root_value r <= Q2R t)%R.
Proof.
  intro Hr. unfold root_le, root_value.
  rewrite andb_true_iff, !Qle_bool_iff.
  apply Qle_Rle in Hr. change (Q2R 0) with (0 / 1)%R in Hr.
  assert (Hr' : (0 <= Q2R (radicand r))%R) by Lra.lra.
  split.
  - intros [Ht Hsq].
    apply Qle_Rle in Ht, Hsq. rewrite Q2R_mult in Hsq.
    change (Q2R 0) with (0 / 1)%R in Ht.
    assert (Ht' : (0 <= Q2R t)%R) by Lra.lra.
    rewrite <- (sqrt_square (Q2R t)) by exact Ht'.
    apply sqrt_le_1_alt. exact Hsq.
  - intro H.
    pose proof (sqrt_pos (Q2R (radicand r))) as Hpos.
    assert (Ht' : (0 <= Q2R t)%R) by Lra.lra.
    split.
    + apply Rle_Qle. change (Q2R 0) with (0 / 1)%R. Lra.lra.
    + apply Rle_Qle. rewrite Q2R_mult.
      rewrite <- (sqrt_sqrt (Q2R (radicand r))) at 1 by exact Hr'.
      apply Rmult_le_compat; Lra.lra.
Qed.

Lemma root_lt_real (r : root) (t : Q) :
  0 <= radicand r ->
  root_lt r t = true <-> (root_value r < Q2R t)%R.
Proof.
  intro Hr. unfold root_lt, root_value.
  rewrite andb_true_iff, !Qlt_bool_iff.
  apply Qle_Rle in Hr. change (Q2R 0) with (0 / 1)%R in Hr.
  assert (Hr' : (0 <= Q2R (radicand r))%R) by Lra.lra.
  split.
  - intros [Ht Hsq].
    apply Qlt_Rlt in Ht, Hsq. rewrite Q2R_mult in Hsq.
    change (Q2R 0) with (0 / 1)%R in Ht.
    assert (Ht' : (0 <= Q2R t)%R) by Lra.lra.
    rewrite <- (sqrt_square (Q2R t)) by exact Ht'.
    apply sqrt_lt_1_alt. split; [exact Hr' | exact Hsq].
  - intro H.
    pose proof (sqrt_pos (Q2R (radicand r))) as Hpos.
    assert (Ht' : (0 < Q2R t)%R) by Lra.lra.
    split.
    + apply Rlt_Qlt. change (Q2R 0) with (0 / 1)%R. Lra.lra.
    + apply Rlt_Qlt. rewrite Q2R_mult.
      rewrite <- (sqrt_sqrt (Q2R (radicand r))) at 1 by exact Hr'.
      apply Rmult_le_0_lt_compat; Lra.lra.
Qed.

(** ** The subpath closer *)

(** [s] with another [PATH_TOLERANCE]. *)
Definition with_tolerance (s : Settings) (tolerance : Q) : Settings := {|
  DRAWING_SCALE := DRAWING_SCALE s;
  PRESERVE_ASPECT_RATIO := PRESERVE_ASPECT_RATIO s;
  DRAWING_OFFSET_X := DRAWING_OFFSET_X s;
  DRAWING_OFFSET_Y := DRAWING_OFFSET_Y s;
  PEN_UP_Z := PEN_UP_Z s;
  PEN_DOWN_Z := PEN_DOWN_Z s;
  RX := RX s;
  RY := RY s;
  RZ := RZ s;
  PATH_OPTIMIZATION := PATH_OPTIMIZATION s;
  PATH_TOLERANCE := tolerance;
  MAX_SEGMENTS_PER_PATH := MAX_SEGMENTS_PER_PATH s
|}.

(** The subpaths of a command list, delimited by [move] boundaries.  The
    first chunk holds the commands before the first [move] (it is empty
    when the list starts with a [move]); every other chunk is a [move] and
    the commands up to the next [move]. *)
Fixpoint subpaths_from (current : list command) (cmds : list command)
  : list (list command) :=
  match cmds with
  | [] => [current]
  | (move, x, y) :: rest => current :: subpaths_from [(move, x, y)] rest
  | cmd :: rest => subpaths_from (current ++ [cmd]) rest
  end.

Definition subpaths (cmds : list command) : list (list command) :=
  subpaths_from [] cmds.

(** The start point of a subpath: the target of its opening [move]. *)
Definition subpath_start (sp : list command) : option (Q * Q) :=
  match sp with
  | (move, x, y) :: _ => Some (x, y)
  | _ => None
  end.

(** The final point of a subpath. *)
Definition subpath_end (sp : list command) : Q * Q :=
  (cmd_x (last_cmd sp), cmd_y (last_cmd sp)).

(** The closing rule on one subpath: when the final point is at a distance
    strictly below the tolerance from the start point and is not the start
    point itself, one [line] to the start point is appended. *)
Definition close_subpath (tolerance : Q) (sp : list command) : list command :=
  match subpath_start sp with
  | Some start =>
      let final := subpath_end sp in
      if root_lt (distance (fst final) (snd final) (fst start) (snd start))
                 tolerance
         && negb (position_eqb final start)
      then sp ++ [(line, fst start, snd start)]
      else sp
  | None => sp
  end.

(** The rule with the boundary included: a final point at a distance of at
    most the tolerance is closed. *)
Definition close_subpath_inclusive (tolerance : Q) (sp : list command)
  : list command :=
  match subpath_start sp with
  | Some start =>
      let final := subpath_end sp in
      if root_le (distance (fst final) (snd final) (fst start) (snd start))
                 tolerance
         && negb (position_eqb final start)
      then sp ++ [(line, fst start, snd start)]
      else sp
  | None => sp
  end.

Lemma near_miss_closes (s : Settings) (sp : list command) (start : Q * Q) :
  near_miss s (cmd_x (last_cmd sp)) (cmd_y (last_cmd sp)) start =
  root_lt (distance (fst (subpath_end sp)) (snd (subpath_end sp))
                    (fst start) (snd start)) (PATH_TOLERANCE s)
  && negb (position_eqb (subpath_end sp) start).
Proof.
  unfold near_miss, position_eqb, subpath_end. cbn [fst snd].
  now rewrite negb_andb.
Qed.

Lemma last_cmd_app (l1 l2 : list command) :
  l2 <> [] -> last_cmd (l1 ++ l2) = last_cmd l2.
Proof.
  intro H. unfold last_cmd.
  induction l1 as [|a l1 IH]; [reflexivity|].
  cbn [app]. destruct (l1 ++ l2) eqn:E.
  - apply app_eq_nil in E. tauto.
  - rewrite <- IH. reflexivity.
Qed.

Lemma subpath_start_nonempty (sp : list command) (start : Q * Q) :
  subpath_start sp = Some start -> sp <> [].
Proof. destruct sp; discriminate. Qed.

Lemma subpath_start_snoc_line (sp : list command) (x y : Q) :
  subpath_start (sp ++ [(line, x, y)]) = subpath_start sp.
Proof. destruct sp as [|[[[] ?] ?] ?]; reflexivity. Qed.

(** What the closer does once the loop is over. *)
Definition close_finish (s : Settings)
    (st : list command * option (Q * Q)) : list command :=
  let '(result, path_start) := st in
  match path_start with
  | Some start =>
      if (0 <? length result)%nat &&
         near_miss s (cmd_x (last_cmd result)) (cmd_y (last_cmd result)) start
      then result ++ [(line, fst start, snd start)]
      else result
  | None => result
  end.

Lemma close_pending (s : Settings) (done current : list command) :
  close_finish s (done ++ current, subpath_start current) =
  done ++ close_subpath (PATH_TOLERANCE s) current.
Proof.
  unfold close_finish, close_subpath.
  destruct (subpath_start current) as [start|] eqn:Hs; [|reflexivity].
  pose proof (subpath_start_nonempty _ _ Hs) as Hne.
  rewrite last_cmd_app by exact Hne.
  rewrite near_miss_closes.
  assert (Hlen : (0 <? length (done ++ current))%nat = true).
  { apply Nat.ltb_lt. rewrite length_app.
    destruct current; [congruence | simpl; lia]. }
  rewrite Hlen. cbn [andb].
  destruct (_ && _); [now rewrite app_assoc | reflexivity].
Qed.

Lemma close_loop_subpaths (s : Settings) (cmds : list command) :
  forall done current,
    close_finish s
      (close_loop s cmds (done ++ current) (subpath_start current)) =
    done ++ concat (map (close_subpath (PATH_TOLERANCE s))
                        (subpaths_from current cmds)).
Proof.
  induction cmds as [|[[t x] y] rest IH]; intros done current.
  - cbn [close_loop subpaths_from map concat].
    rewrite app_nil_r. apply close_pending.
  - cbn [close_loop subpaths_from close_step].
    destruct t.
    + (* a move closes the pending subpath and opens the next *)
      pose proof (close_pending s done current) as Hp.
      unfold close_finish in Hp.
      cbn [map concat].
      specialize (IH (done ++ close_subpath (PATH_TOLERANCE s) current)
                     [(move, x, y)]).
      cbn [subpath_start] in IH.
      rewrite app_assoc, <- IH. clear IH.
      f_equal. f_equal. f_equal.
      destruct (subpath_start current) as [start|] eqn:Hs.
      * rewrite <- Hp.
        assert (Hlen : (0 <? length (done ++ current))%nat = true).
        { apply Nat.ltb_lt. rewrite length_app.
          pose proof (subpath_start_nonempty _ _ Hs).
          destruct current; [congruence | simpl; lia]. }
        rewrite Hlen. reflexivity.
      * unfold close_subpath. now rewrite Hs.
    + specialize (IH done (current ++ [(line, x, y)])).
      rewrite subpath_start_snoc_line, app_assoc in IH.
      exact IH.
Qed.

Lemma detect_closed_paths_subpaths (s : Settings) (cmds : list command) :
  detect_closed_paths s cmds =
  concat (map (close_subpath (PATH_TOLERANCE s)) (subpaths cmds)).
Proof.
  unfold detect_closed_paths, subpaths.
  destruct cmds as [|c rest]; [reflexivity|].
  cbn [is_empty].
  pose proof (close_loop_subpaths s (c :: rest) [] []) as H.
  cbn [app subpath_start] in H. rewrite <- H.
  unfold close_finish.
  destruct (close_loop s (c :: rest) [] None); reflexivity.
Qed.

(** The closing rule in terms of the real distance: the corrective [line]
    is appended exactly when the distance from the final point to the start
    point is strictly below the tolerance and the two points differ. *)
Lemma close_subpath_real (tolerance : Q) (sp : list command) (start : Q * Q) :
  subpath_start sp = Some start ->
  let final := subpath_end sp in
  let d := distance (fst final) (snd final) (fst start) (snd start) in
  ((root_value d < Q2R tolerance)%R /\
   ~ (fst final == fst start /\ snd final == snd start) ->
   close_subpath tolerance sp = sp ++ [(line, fst start, snd start)]) /\
  ((Q2R tolerance <= root_value d)%R \/
   (fst final == fst start /\ snd final == snd start) ->
   close_subpath tolerance sp = sp).
Proof.
  intros Hs final d. unfold close_subpath. rewrite Hs. fold final. fold d.
  pose proof (root_lt_real d tolerance
                (distance_radicand_nonneg _ _ _ _)) as Hlt.
  assert (Heq : position_eqb final start = true <->
                (fst final == fst start /\ snd final == snd start)).
  { unfold position_eqb. rewrite andb_true_iff, !Qeq_bool_iff. tauto. }
  split.
  - intros [Hd Hne].
    apply Hlt in Hd. rewrite Hd.
    destruct (position_eqb final start); [|reflexivity].
    exfalso. apply Hne, Heq. reflexivity.
  - intros [Hd | He].
    + destruct (root_lt d tolerance) eqn:E; [|reflexivity].
      exfalso.
      assert (root_value d < Q2R tolerance)%R by (apply Hlt; reflexivity).
      Lra.lra.
    + apply Heq in He. rewrite He. now rewrite andb_false_r.
Qed.

(** A subpath that ends 0.3 units from its start. *)
Definition near_closed_path : list command :=
  [(move, 0, 0); (line, 10, 0); (line, 10, 10); (line, 3 # 10, 0)].

(** A subpath that ends exactly 0.5 units from its start. *)
Definition boundary_path : list command :=
  [(move, 0, 0); (line, 10, 0); (line, 1 # 2, 0)].

(** The rule [detect_closed_paths] implements, read in exact arithmetic: it
    appends to every subpath (delimited by [move] boundaries) exactly one
    corrective [line] to the subpath's exact start coordinates when the
    final point lies at a distance strictly below [PATH_TOLERANCE] from the
    start point and differs from it, and appends nothing to the subpath
    otherwise.  A subpath ending 0.3 units from its start gets the
    corrective [line] with tolerance 0.5 and none with tolerance 0.1. *)
Lemma detect_closed_paths_closes_near_misses
    (s : Settings) (cmds : list command) :
  detect_closed_paths s cmds =
  concat (map (close_subpath (PATH_TOLERANCE s)) (subpaths cmds)) /\
  detect_closed_paths (with_tolerance s (5 # 10)) near_closed_path =
  near_closed_path ++ [(line, 0, 0)] /\
  detect_closed_paths (with_tolerance s (1 # 10)) near_closed_path =
  near_closed_path.
Proof.
  split; [apply detect_closed_paths_subpaths|].
  split; reflexivity.
Qed.

(** On the boundary: the final point of [boundary_path] lies within the
    tolerance 0.5 of the start point (at distance 0.5 exactly) and differs
    from it, so the rule with the boundary included appends the corrective
    [line]; [detect_closed_paths] returns the path unchanged. *)
Lemma detect_closed_paths_open_at_tolerance :
  root_value (distance (1 # 2) 0 0 0) = Q2R (PATH_TOLERANCE source_settings) /\
  root_le (distance (1 # 2) 0 0 0) (PATH_TOLERANCE source_settings) = true /\
  position_eqb (1 # 2, 0) (0, 0) = false /\
  concat (map (close_subpath_inclusive (PATH_TOLERANCE source_settings))
              (subpaths boundary_path)) =
  boundary_path ++ [(line, 0, 0)] /\
  detect_closed_paths source_settings boundary_path = boundary_path.
Proof.
  split; [|repeat split; reflexivity].
  unfold root_value. cbn [distance radicand source_settings PATH_TOLERANCE].
  replace (Q2R ((0 - (1 # 2)) ^ 2 + (0 - 0) ^ 2))
    with (Q2R (1 # 2) * Q2R (1 # 2))%R.
  - apply sqrt_square. unfold Q2R. simpl. Lra.lra.
  - unfold Q2R. simpl. Lra.lra.
Qed.

(** ** The workspace mapper *)

Definition fold_min (f : command -> Q) (l : list command) (a : Q) : Q :=
  fold_left (fun m c => Qmin m (f c)) l a.

Definition fold_max (f : command -> Q) (l : list command) (a : Q) : Q :=
  fold_left (fun m c => Qmax m (f c)) l a.

Lemma box_fold (rest : list command) :
  forall a b c d,
    fold_left
      (fun '(min_x, min_y, max_x, max_y) cmd =>
         (Qmin min_x (cmd_x cmd), Qmin min_y (cmd_y cmd),
          Qmax max_x (cmd_x cmd), Qmax max_y (cmd_y cmd)))
      rest (a, b, c, d) =
    (fold_min cmd_x rest a, fold_min cmd_y rest b,
     fold_max cmd_x rest c, fold_max cmd_y rest d).
Proof.
  induction rest as [|cmd rest IH]; intros a b c d; [reflexivity|].
  cbn [fold_left]. rewrite IH. reflexivity.
Qed.

Lemma bounding_box_folds (first : command) (rest : list command) :
  bounding_box first rest =
  (fold_min cmd_x rest (cmd_x first), fold_min cmd_y rest (cmd_y first),
   fold_max cmd_x rest (cmd_x first), fold_max cmd_y rest (cmd_y first)).
Proof. apply box_fold. Qed.

(** The size of a non-empty drawing: [svg_width] and [svg_height]. *)
Definition svg_width (first : command) (rest : list command) : Q :=
  fold_max cmd_x rest (cmd_x first) - fold_min cmd_x rest (cmd_x first).

Definition svg_height (first : command) (rest : list command) : Q :=
  fold_max cmd_y rest (cmd_y first) - fold_min cmd_y rest (cmd_y first).

Definition svg_center_x (first : command) (rest : list command) : Q :=
  fold_min cmd_x rest (cmd_x first) + svg_width first rest / 2.

Definition svg_center_y (first : command) (rest : list command) : Q :=
  fold_min cmd_y rest (cmd_y first) + svg_height first rest / 2.

Lemma scale_to_robot_coordinates_unfold
    (self : SVGToTrajectoryConverter) (first : command) (rest : list command) :
  scale_to_robot_coordinates self (first :: rest) =
  (sc <- scaling_factors self (svg_width first rest) (svg_height first rest) ;;
   Ok (map (to_robot self (svg_center_x first rest) (svg_center_y first rest)
                     (fst sc) (snd sc))
           (first :: rest))).
Proof.
  unfold scale_to_robot_coordinates. rewrite bounding_box_folds.
  fold (svg_width first rest). fold (svg_height first rest).
  fold (svg_center_x first rest). fold (svg_center_y first rest).
  destruct (scaling_factors _ _ _) as [[sx sy]|e]; reflexivity.
Qed.







Lemma fdiv_zero (a b : Q) : b == 0 -> fdiv a b = Raise ZeroDivisionError.
Proof.
  intro H. unfold fdiv. apply Qeq_bool_iff in H. now rewrite H.
Qed.


Lemma fdiv_cases (a b : Q) :
  fdiv a b = Raise ZeroDivisionError \/ fdiv a b = Ok (a / b).
Proof. unfold fdiv. destruct (Qeq_bool b 0); auto. Qed.

(** A drawing with no width or no height makes the mapper divide by zero,
    in both scaling modes. *)
Lemma scale_to_robot_coordinates_degenerate
    (self : SVGToTrajectoryConverter) (first : command) (rest : list command) :
  svg_width first rest == 0 \/ svg_height first rest == 0 ->
  scale_to_robot_coordinates self (first :: rest) = Raise ZeroDivisionError.
Proof.
  intro H. rewrite scale_to_robot_coordinates_unfold.
  unfold scaling_factors.
  destruct (fdiv_cases A4_WIDTH (svg_width first rest)) as [Hw|Hw];
    rewrite Hw; cbn [bind];
    [destruct (preserve_aspect_ratio self); reflexivity|].
  destruct H as [H|H].
  - rewrite (fdiv_zero _ _ H) in Hw. discriminate.
  - rewrite (fdiv_zero _ _ H).
    destruct (preserve_aspect_ratio self); reflexivity.
Qed.

(** C4 on the code: the mapper of [Onlab/svg_code.py] raises
    [ZeroDivisionError] on a single point, on a horizontal stroke and on a
    vertical stroke, whatever the configuration; it has no fall-back to
    the scale factor 1. *)
Theorem scale_to_robot_coordinates_raises_on_flat_drawings
    (self : SVGToTrajectoryConverter) :
  scale_to_robot_coordinates self [(move, 5, 5)] = Raise ZeroDivisionError /\
  scale_to_robot_coordinates self [(move, 0, 0); (line, 10, 0)] =
  Raise ZeroDivisionError /\
  scale_to_robot_coordinates self [(move, 0, 0); (line, 0, 10)] =
  Raise ZeroDivisionError.
Proof.
  repeat split; apply scale_to_robot_coordinates_degenerate;
    [left | right | left]; reflexivity.
Qed.

(** The sibling mapper of the root converter has the fall-back: on a single
    point both factors are 1 and the point lands on the centre. *)
Lemma Root_scale_to_a4_single_point (self : Root.SVGToTrajectoryConverter) :
  Forall2 cmd_equiv
    (Root.scale_to_a4 self [(move, 5, 5)])
    [(move, Root.center_x self, Root.center_y self)].
Proof.
  unfold Root.scale_to_a4.
  change (bounding_box (move, 5, 5) []) with (5, 5, 5, 5).
  cbn [map]. constructor; [|constructor].
  unfold cmd_equiv, cmd_tag, cmd_x, cmd_y. cbn [fst snd].
  change (Qlt_bool 0 (5 - 5)) with false. cbn iota.
  change (Qmin 1 1) with 1.
  split; [reflexivity|]. split; field.
Qed.

(** The mapped point lies in the target rectangle centred at the configured
    centre. *)
Definition in_rectangle (self : SVGToTrajectoryConverter) (c : command) : Prop :=
  Qabs (cmd_x c - center_x (robot_config self)) <= A4_WIDTH / 2 /\
  Qabs (cmd_y c - center_y (robot_config self)) <= A4_HEIGHT / 2.











(** The converter [main] builds: the constants of the source and no
    calibration file. *)
Definition source_converter : SVGToTrajectoryConverter :=
  new_converter source_settings (default_robot_config source_settings).


(** A converter with a negative margin factor. *)
Definition mirroring_converter : SVGToTrajectoryConverter := {|
  robot_config := default_robot_config source_settings;
  scale_factor := -2;
  preserve_aspect_ratio := true;
  offset_x := 0;
  offset_y := 0;
  pen_up_z := 20;
  pen_down_z := 0
|}.

Definition unit_diagonal : list command := [(move, 0, 0); (line, 1, 1)].

Definition right_angle : list command :=
  [(move, 0, 0); (line, 10, 0); (line, 10, 10)].






(** A margin factor below 0 is "at most 1" too, and takes mapped points out
    of the rectangle: the claim needs the margin factor to be at least 0. *)
Lemma negative_margin_leaves_rectangle :
  scale_factor mirroring_converter <= 1 /\
  exists out,
    scale_to_robot_coordinates mirroring_converter right_angle = Ok out /\
    ~ Forall (in_rectangle mirroring_converter) out.
Proof.
  split; [vm_compute; discriminate|].
  eexists. split; [vm_compute; reflexivity|].
  intro H. inversion H as [|c l [Hx _] _]; subst.
  revert Hx. vm_compute. intro Hx. apply Hx. reflexivity.
Qed.

(** *** Uniform scaling of the source drawing *)



















(** ** The trajectory generator *)

(** A step at pen-up height and a step at pen-down height. *)
Definition pen_up_step (self : SVGToTrajectoryConverter) (x y : Q) : step :=
  (move, pose_at self x y (pen_up_z self)).

Definition pen_down_step (self : SVGToTrajectoryConverter) (x y : Q) : step :=
  (line, pose_at self x y (pen_down_z self)).

(** The pen machine of the specification, from the state [pen] at the
    current position [cur] ([None] before the first command): what it
    emits for a command list, final lift included.  A lift or a lowering
    in place needs a current position. *)
Fixpoint pen_machine (self : SVGToTrajectoryConverter)
    (pen : pen_state) (cur : option (Q * Q)) (cmds : list command)
  : list step :=
  match cmds with
  | [] =>
      match pen, cur with
      | down, Some (cx, cy) => [pen_up_step self cx cy]
      | _, _ => []
      end
  | (move, x, y) :: rest =>
      match pen, cur with
      | down, Some (cx, cy) =>
          pen_up_step self cx cy :: pen_up_step self x y
            :: pen_machine self up (Some (x, y)) rest
      | _, _ =>
          pen_up_step self x y :: pen_machine self pen (Some (x, y)) rest
      end
  | (line, x, y) :: rest =>
      match pen, cur with
      | up, Some (cx, cy) =>
          pen_down_step self cx cy :: pen_down_step self x y
            :: pen_machine self down (Some (x, y)) rest
      | _, _ =>
          pen_down_step self x y :: pen_machine self down (Some (x, y)) rest
      end
  end.

(** The trajectory after the final lift, before the home step. *)
Definition lifted (self : SVGToTrajectoryConverter) (st : gen_state)
  : list step :=
  match pen st, current st with
  | down, Some (current_x, current_y) =>
      trajectory st ++ [(move, pose_at self current_x current_y (pen_up_z self))]
  | _, _ => trajectory st
  end.

Lemma generate_loop_machine (self : SVGToTrajectoryConverter)
    (cmds : list command) :
  forall st,
    lifted self (fold_left (generate_step self) cmds st) =
    trajectory st ++ pen_machine self (pen st) (current st) cmds.
Proof.
  induction cmds as [|[[t x] y] rest IH]; intro st.
  - cbn [fold_left pen_machine]. unfold lifted, pen_up_step.
    destruct (pen st), (current st) as [[cx cy]|];
      rewrite ?app_nil_r; reflexivity.
  - cbn [fold_left]. rewrite IH. clear IH.
    destruct st as [traj p cur].
    destruct t, p, cur as [[cx cy]|];
      cbn [generate_step pen_machine pen current trajectory];
      unfold pen_up_step, pen_down_step;
      rewrite <- ?app_assoc; reflexivity.
Qed.

Lemma pen_machine_nonempty (self : SVGToTrajectoryConverter)
    (pen : pen_state) (cur : option (Q * Q))
    (cmd : command) (rest : list command) :
  pen_machine self pen cur (cmd :: rest) <> [].
Proof.
  destruct cmd as [[[] x] y], pen, cur as [[cx cy]|]; discriminate.
Qed.

(** The home step appended at the end. *)
Definition home_step (self : SVGToTrajectoryConverter) (hx hy hz : Q) : step :=
  (move, [hx; hy; hz;
          rx (robot_config self); ry (robot_config self);
          rz (robot_config self)]).

Lemma generate_trajectory_machine (self : SVGToTrajectoryConverter)
    (cmd : command) (rest : list command) (hx hy hz : Q) (tl : list Q) :
  home_position (robot_config self) = hx :: hy :: hz :: tl ->
  generate_trajectory self (cmd :: rest) =
  Ok (pen_machine self up None (cmd :: rest) ++ [home_step self hx hy hz]).
Proof.
  intro Hhome. unfold generate_trajectory. cbn [is_empty].
  unfold generate_finish.
  pose proof (generate_loop_machine self (cmd :: rest) initial_gen_state) as H.
  unfold lifted in H. rewrite H. clear H.
  cbn [initial_gen_state trajectory pen current app].
  pose proof (pen_machine_nonempty self up None cmd rest) as Hne.
  destruct (pen_machine self up None (cmd :: rest)) as [|s0 l];
    [congruence|].
  cbn [is_empty negb]. rewrite Hhome. reflexivity.
Qed.

(** The planar position of a pose. *)
Definition xy (p : pose) : option (Q * Q) :=
  match p with
  | x :: y :: _ => Some (x, y)
  | _ => None
  end.

(** The step stays at the planar position [prev] of the step before. *)
Definition in_place (prev : option (Q * Q)) (p : pose) : bool :=
  match prev, xy p with
  | Some (px, py), Some (x, y) => Qeq_bool px x && Qeq_bool py y
  | _, _ => false
  end.

(** The pen-state invariant, read off a trajectory: replaying the tags
    from the pen state [pen], a [line] step met with the pen up is the
    pen-lower transition and must be in place, a [move] step met with the
    pen down is the pen-lift and must be in place, the other steps travel;
    the trajectory must end with the pen up.  So every travelling [line]
    step has exactly one pen-lower transition between it and the last
    pen-lift. *)
Fixpoint pen_protocol (pen : pen_state) (prev : option (Q * Q))
    (traj : list step) : bool :=
  match traj with
  | [] => match pen with up => true | down => false end
  | (tag, p) :: rest =>
      match tag, pen with
      | move, up => pen_protocol up (xy p) rest
      | move, down => in_place prev p && pen_protocol up (xy p) rest
      | line, up => in_place prev p && pen_protocol down (xy p) rest
      | line, down => pen_protocol down (xy p) rest
      end
  end.

Definition starts_with_move (cmds : list command) : bool :=
  match cmds with
  | (move, _, _) :: _ => true
  | _ => false
  end.

Lemma in_place_pose_at (self : SVGToTrajectoryConverter) (x y offset : Q) :
  in_place (Some (x, y)) (pose_at self x y offset) = true.
Proof.
  unfold in_place, pose_at, xy. now rewrite !Qeq_bool_refl.
Qed.

Lemma pen_machine_protocol (self : SVGToTrajectoryConverter)
    (final : list step) (cmds : list command) :
  pen_protocol up None final = true ->
  (forall prev, pen_protocol up prev final = true) ->
  forall pen cur,
    (cur = None -> pen = up /\ (cmds = [] \/ starts_with_move cmds = true)) ->
    pen_protocol pen cur (pen_machine self pen cur cmds ++ final) = true.
Proof.
  intros Hf Hfinal.
  induction cmds as [|[[t x] y] rest IH]; intros pen cur Hcur.
  - cbn [pen_machine].
    destruct cur as [[cx cy]|].
    + destruct pen; cbn [app]; [apply Hfinal|].
      unfold pen_up_step. cbn [pen_protocol].
      rewrite in_place_pose_at. apply Hfinal.
    + destruct (Hcur eq_refl) as [-> _]. apply Hfinal.
  - assert (Hrest : forall p, pen_protocol p (Some (x, y))
                       (pen_machine self p (Some (x, y)) rest ++ final) = true)
      by (intro p; apply IH; discriminate).
    destruct cur as [[cx cy]|].
    + destruct t, pen; cbn [pen_machine app];
        unfold pen_up_step, pen_down_step; cbn [pen_protocol];
        rewrite ?in_place_pose_at; cbn [andb xy pose_at]; apply Hrest.
    + destruct (Hcur eq_refl) as [-> [Hnil|Hmove]]; [discriminate|].
      destruct t; [|discriminate].
      cbn [pen_machine app]. unfold pen_up_step. cbn [pen_protocol].
      apply Hrest.
Qed.

(** C2, as amended: for every non-empty command sequence (and a home
    position that holds its three coordinates) the generator returns the
    trajectory of the two-state pen machine started in PEN_UP, followed by
    exactly one [move] to the home pose: on a [move] while PEN_DOWN a lift in
    place at the current XY, then the target at pen-up Z; on a [line] while
    PEN_UP a lowering in place at the current XY, then the target at
    pen-down Z, provided there is a current XY, that is provided the [line]
    is not the first command (a leading [line] is emitted directly and
    leaves the pen down); at the end a lift in place if PEN_DOWN.  When the
    sequence starts with a [move], the trajectory obeys the pen-state
    invariant: every travelling [line] step has exactly one pen-lower
    transition since the last pen-lift, and the trajectory ends in
    PEN_UP. *)
Theorem generate_trajectory_is_pen_machine
    (self : SVGToTrajectoryConverter)
    (cmd : command) (rest : list command) (hx hy hz : Q) (tl : list Q) :
  home_position (robot_config self) = hx :: hy :: hz :: tl ->
  generate_trajectory self (cmd :: rest) =
  Ok (pen_machine self up None (cmd :: rest) ++ [home_step self hx hy hz]) /\
  (starts_with_move (cmd :: rest) = true ->
   pen_protocol up None
     (pen_machine self up None (cmd :: rest) ++ [home_step self hx hy hz])
   = true).
Proof.
  intro Hhome.
  split; [exact (generate_trajectory_machine self cmd rest hx hy hz tl Hhome)|].
  intro Hmove. apply pen_machine_protocol; try reflexivity.
  intros _. split; [reflexivity | right; exact Hmove].
Qed.

Definition two_strokes : list command :=
  [(move, 0, 0); (line, 10, 0); (move, 3, 3); (line, 10, 10)].

Lemma generate_trajectory_is_pen_machine_witness :
  home_position (robot_config source_converter) =
  -37 :: -295 :: -42 :: [22 # 10; 22 # 10; 0] /\
  generate_trajectory source_converter two_strokes =
  Ok (pen_machine source_converter up None two_strokes
        ++ [home_step source_converter (-37) (-295) (-42)]) /\
  (starts_with_move two_strokes = true ->
   pen_protocol up None
     (pen_machine source_converter up None two_strokes
        ++ [home_step source_converter (-37) (-295) (-42)])
   = true).
Proof.
  split; [reflexivity|].
  exact (generate_trajectory_is_pen_machine source_converter
           (move, 0, 0) [(line, 10, 0); (move, 3, 3); (line, 10, 10)]
           (-37) (-295) (-42) [22 # 10; 22 # 10; 0] eq_refl).
Defined.

(** C2, as stated, fails on a sequence that starts with a [line]: the pen
    is up and there is no current XY, so no lowering in place is emitted;
    the first step of the trajectory is the [line] target itself, and the
    pen-state invariant does not hold. *)
Lemma leading_line_is_not_lowered :
  generate_trajectory source_converter [(line, 10, 0)] =
  Ok [pen_down_step source_converter 10 0;
      pen_up_step source_converter 10 0;
      home_step source_converter (-37) (-295) (-42)] /\
  pen_protocol up None
    [pen_down_step source_converter 10 0;
     pen_up_step source_converter 10 0;
     home_step source_converter (-37) (-295) (-42)] = false.
Proof. split; reflexivity. Qed.

(** *** Heights *)

(** The Z component of a pose. *)
Definition pose_z (p : pose) : option Q := nth_error p 2.

(** The height a tag stands for: pen-up Z for [move], pen-down Z for
    [line]. *)
Definition tag_height (self : SVGToTrajectoryConverter) (t : cmd_type) : Q :=
  z_surface (robot_config self) +
  match t with
  | move => pen_up_z self
  | line => pen_down_z self
  end.

Definition at_tag_height (self : SVGToTrajectoryConverter) (st : step) : Prop :=
  pose_z (step_pose st) = Some (tag_height self (step_tag st)).

Definition root_at_tag_height (self : Root.SVGToTrajectoryConverter)
    (st : step) : Prop :=
  pose_z (step_pose st) =
  Some (Root.z_surface self +
        match step_tag st with
        | move => Root.pen_up_z self
        | line => Root.pen_down_z self
        end).

Lemma pen_machine_heights (self : SVGToTrajectoryConverter)
    (cmds : list command) :
  forall pen cur, Forall (at_tag_height self) (pen_machine self pen cur cmds).
Proof.
  induction cmds as [|[[t x] y] rest IH]; intros pen cur.
  - destruct pen, cur as [[cx cy]|]; repeat constructor.
  - destruct t, pen, cur as [[cx cy]|]; cbn [pen_machine];
      repeat (constructor; [reflexivity|]); apply IH.
Qed.

Lemma generate_trajectory_short_home (self : SVGToTrajectoryConverter)
    (cmd : command) (rest : list command) :
  (length (home_position (robot_config self)) < 3)%nat ->
  generate_trajectory self (cmd :: rest) = Raise IndexError.
Proof.
  intro Hlen. unfold generate_trajectory. cbn [is_empty].
  unfold generate_finish.
  pose proof (generate_loop_machine self (cmd :: rest) initial_gen_state) as H.
  unfold lifted in H. rewrite H. clear H.
  cbn [initial_gen_state trajectory pen current app].
  pose proof (pen_machine_nonempty self up None cmd rest) as Hne.
  destruct (pen_machine self up None (cmd :: rest)) as [|s0 l];
    [congruence|].
  cbn [is_empty negb].
  destruct (home_position (robot_config self)) as [|hx [|hy [|hz tl]]];
    try reflexivity.
  simpl in Hlen. lia.
Qed.

Lemma root_generate_trajectory_heights (self : Root.SVGToTrajectoryConverter)
    (cmds : list command) :
  Forall (root_at_tag_height self) (Root.generate_trajectory self cmds).
Proof.
  unfold Root.generate_trajectory.
  induction cmds as [|[[t x] y] rest IH]; cbn [map]; constructor;
    [destruct t; reflexivity | exact IH].
Qed.

(** C3, as amended: in every trajectory the generator produces, every step
    but the last is at the height of its tag, [z_surface + pen_down_z] for
    [line] and [z_surface + pen_up_z] for [move], the inserted lift and
    lowering steps included; the last step is the [move] to the home
    position and has the home position's own Z.  The root converter emits
    no home step and all its steps are at the height of their tag.  With
    the offsets written in the two sources the pen-down offset is below the
    pen-up offset. *)
Theorem generate_trajectory_heights
    (self : SVGToTrajectoryConverter) (cmds : list command) (traj : list step)
    (root_self : Root.SVGToTrajectoryConverter) (root_cmds : list command) :
  generate_trajectory self cmds = Ok traj ->
  (cmds = [] /\ traj = [] \/
   exists body hx hy hz,
     traj = body ++ [home_step self hx hy hz] /\
     nth_error (home_position (robot_config self)) 2 = Some hz /\
     Forall (at_tag_height self) body) /\
  Forall (root_at_tag_height root_self)
         (Root.generate_trajectory root_self root_cmds) /\
  pen_down_z source_converter < pen_up_z source_converter /\
  Root.pen_down_z Root.source_converter < Root.pen_up_z Root.source_converter.
Proof.
  intro Hgen.
  split; [|split; [apply root_generate_trajectory_heights|split; reflexivity]].
  destruct cmds as [|cmd rest].
  - left. split; [reflexivity|]. cbn in Hgen. congruence.
  - right.
    destruct (home_position (robot_config self)) as [|hx [|hy [|hz tl]]] eqn:E.
    1-3: rewrite generate_trajectory_short_home in Hgen
           by (rewrite E; simpl; lia); discriminate.
    rewrite (generate_trajectory_machine self cmd rest hx hy hz tl E) in Hgen.
    injection Hgen as <-.
    exists (pen_machine self up None (cmd :: rest)), hx, hy, hz.
    split; [reflexivity|]. split; [reflexivity|].
    apply pen_machine_heights.
Qed.

Lemma generate_trajectory_heights_witness :
  generate_trajectory source_converter two_strokes =
  Ok (pen_machine source_converter up None two_strokes
        ++ [home_step source_converter (-37) (-295) (-42)]) /\
  exists body hx hy hz,
    pen_machine source_converter up None two_strokes
      ++ [home_step source_converter (-37) (-295) (-42)]
    = body ++ [home_step source_converter hx hy hz] /\
    nth_error (home_position (robot_config source_converter)) 2 = Some hz /\
    Forall (at_tag_height source_converter) body.
Proof.
  assert (H : generate_trajectory source_converter two_strokes =
              Ok (pen_machine source_converter up None two_strokes
                    ++ [home_step source_converter (-37) (-295) (-42)]))
    by reflexivity.
  split; [exact H|].
  destruct (generate_trajectory_heights source_converter two_strokes _
              Root.source_converter [] H) as [[[Hnil _]|Hbody] _].
  - discriminate Hnil.
  - exact Hbody.
Defined.

(** C3, as stated, fails on the trailing home step: with the converter of
    the source the trajectory of a single [move] ends with a step tagged
    [move] whose Z is the home position's -42, not
    [z_surface + pen_up_z = 20]. *)
Lemma home_step_is_not_at_pen_up_height :
  generate_trajectory source_converter [(move, 0, 0)] =
  Ok [pen_up_step source_converter 0 0;
      home_step source_converter (-37) (-295) (-42)] /\
  step_tag (home_step source_converter (-37) (-295) (-42)) = move /\
  pose_z (step_pose (home_step source_converter (-37) (-295) (-42))) =
  Some (-42) /\
  ~ -42 == z_surface (robot_config source_converter)
           + pen_up_z source_converter.
Proof.
  repeat split. vm_compute. discriminate.
Qed.

(** ** The trajectory writer *)

(** The record written for one step: a one-element array holding the array
    of the rounded pose components. *)
Definition record_of (p : pose) : json :=
  JArray [JArray (map (fun c => JNumber (format_2f c)) p)].

(** The record the root converter writes for one step. *)
Definition root_record_of (st : step) : json :=
  JArray [JString (Root.tag_name (step_tag st));
          JArray (map JNumber (step_pose st))].

Lemma save_trajectory_records (traj : list step) :
  traj <> [] ->
  save_trajectory traj =
  Some (JArray (map (fun st => record_of (step_pose st)) traj)).
Proof.
  intro Hne. unfold save_trajectory.
  destruct traj as [|s0 l]; [congruence|]. cbn [is_empty].
  do 2 f_equal. apply map_ext. intros [tag p]. reflexivity.
Qed.

Lemma root_save_trajectory_records (traj : list step) :
  traj <> [] ->
  Root.save_trajectory traj = Some (JArray (map root_record_of traj)).
Proof.
  intro Hne. unfold Root.save_trajectory.
  destruct traj as [|s0 l]; [congruence|]. cbn [is_empty].
  do 2 f_equal. apply map_ext. intros [tag p]. reflexivity.
Qed.

(** Rounding to the nearest integer moves a number by at most one half. *)
Lemma round_half_even_near (q : Q) :
  Qabs (inject_Z (round_half_even q) - q) <= 1 # 2.
Proof.
  unfold round_half_even.
  pose proof (Qfloor_le q) as Hlo. pose proof (Qlt_floor q) as Hhi.
  rewrite inject_Z_plus in Hhi. change (inject_Z 1) with 1 in Hhi.
  set (f := Qfloor q) in *.
  apply Qabs_Qle_condition.
  destruct (Qcompare (q - inject_Z f) (1 # 2)) eqn:E.
  - apply Qeq_alt in E. destruct (Z.even f).
    + lra.
    + rewrite inject_Z_plus. change (inject_Z 1) with 1. lra.
  - apply Qlt_alt in E. lra.
  - apply Qgt_alt in E. rewrite inject_Z_plus. change (inject_Z 1) with 1. lra.
Qed.

(** [format_2f] yields a number of hundredths within half a hundredth of
    its argument. *)
Lemma format_2f_rounds (p : Q) :
  (exists n : Z, format_2f p == inject_Z n / 100) /\
  Qabs (format_2f p - p) <= 1 # 200.
Proof.
  split; [eexists; reflexivity|].
  unfold format_2f.
  pose proof (round_half_even_near (p * 100)) as H.
  apply Qabs_Qle_condition in H. apply Qabs_Qle_condition.
  set (r := inject_Z (round_half_even (p * 100))) in *.
  assert (E : r / 100 == r * (1 # 100)) by field.
  rewrite E. lra.
Qed.

Lemma pen_machine_poses (self : SVGToTrajectoryConverter)
    (cmds : list command) :
  forall pen cur,
    Forall (fun st => length (step_pose st) = 6%nat)
           (pen_machine self pen cur cmds).
Proof.
  induction cmds as [|[[t x] y] l IH]; intros pen cur.
  - destruct pen, cur as [[cx cy]|]; cbn [pen_machine];
      repeat (constructor; [reflexivity|]); constructor.
  - destruct t, pen, cur as [[cx cy]|]; cbn [pen_machine];
      repeat (constructor; [reflexivity|]); apply IH.
Qed.

(** Every pose the generator emits has six components. *)
Lemma generate_trajectory_poses (self : SVGToTrajectoryConverter)
    (cmds : list command) (traj : list step) :
  generate_trajectory self cmds = Ok traj ->
  Forall (fun st => length (step_pose st) = 6%nat) traj.
Proof.
  intro Hgen. destruct cmds as [|cmd rest].
  - cbn in Hgen. injection Hgen as <-. constructor.
  - destruct (home_position (robot_config self)) as [|hx [|hy [|hz tl]]] eqn:E.
    1-3: rewrite generate_trajectory_short_home in Hgen
           by (rewrite E; simpl; lia); discriminate.
    rewrite (generate_trajectory_machine self cmd rest hx hy hz tl E) in Hgen.
    injection Hgen as <-.
    apply Forall_app.
    split; [exact (pen_machine_poses self (cmd :: rest) up None)|].
    constructor; [reflexivity | constructor].
Qed.

Lemma map_JNumber_injective (p p' : pose) :
  map JNumber p = map JNumber p' -> p = p'.
Proof.
  revert p'. induction p as [|a p IH]; intros [|a' p'] H;
    try discriminate; [reflexivity|].
  cbn [map] in H. injection H as Ha Hp. rewrite Ha. f_equal. now apply IH.
Qed.

(** The record of the root converter tells the step: its tag and its
    pose. *)
Lemma root_record_of_injective (a b : step) :
  root_record_of a = root_record_of b -> a = b.
Proof.
  destruct a as [ta pa], b as [tb pb]. unfold root_record_of.
  cbn [step_tag step_pose fst snd]. intro H. injection H as Htag Hpose.
  apply map_JNumber_injective in Hpose. subst pb.
  destruct ta, tb; try reflexivity; discriminate Htag.
Qed.

Lemma root_records_injective (traj traj' : list step) :
  map root_record_of traj' = map root_record_of traj -> traj' = traj.
Proof.
  revert traj. induction traj' as [|a l IH]; intros [|b l'] H;
    try discriminate; [reflexivity|].
  cbn [map] in H.
  pose proof (f_equal (@hd_error json) H) as Ha.
  pose proof (f_equal (@tl json) H) as Hl.
  cbn [hd_error tl] in Ha, Hl.
  assert (Hab : root_record_of a = root_record_of b) by congruence.
  apply root_record_of_injective in Hab. subst b. f_equal. now apply IH.
Qed.

(** The other tag. *)
Definition other_tag (t : cmd_type) : cmd_type :=
  match t with
  | move => line
  | line => move
  end.

(** C10: for every non-empty trajectory the writer of [Onlab/svg_code.py]
    writes a JSON array with exactly one record per step, each record a
    one-element array whose only item is the array of the pose components
    rounded to 2 decimal places (six of them for the poses the generator
    emits); the tag is dropped, so trajectories with the same poses and any
    tags are written to the same document; the writer of the root
    converter writes the pair of the tag, as the string ["move"] or
    ["line"], and the unrounded pose for every step, and the two documents
    of one trajectory are never the same.  The document of the root
    converter tells the trajectory, tags included: two trajectories with
    the same root document are the same; a trajectory with one tag changed
    has the same Onlab document and another root document. *)
Theorem save_trajectory_drops_tags (traj : list step) :
  traj <> [] ->
  save_trajectory traj =
  Some (JArray (map (fun st => record_of (step_pose st)) traj)) /\
  length (map (fun st => record_of (step_pose st)) traj) = length traj /\
  (forall p,
     (exists items, record_of p = JArray [JArray items] /\
                    length items = length p) /\
     forall c, In c p ->
       (exists n : Z, format_2f c == inject_Z n / 100) /\
       Qabs (format_2f c - c) <= 1 # 200) /\
  (forall self cmds generated,
     generate_trajectory self cmds = Ok generated ->
     Forall (fun st => length (step_pose st) = 6%nat) generated) /\
  (forall traj',
     map step_pose traj' = map step_pose traj ->
     save_trajectory traj' = save_trajectory traj) /\
  Root.save_trajectory traj = Some (JArray (map root_record_of traj)) /\
  Root.save_trajectory traj <> save_trajectory traj /\
  (forall tag p,
     root_record_of (tag, p) =
     JArray [JString (match tag with
                      | move => "move"
                      | line => "line"
                      end)%string;
             JArray (map JNumber p)]) /\
  (forall traj',
     Root.save_trajectory traj' = Root.save_trajectory traj -> traj' = traj) /\
  (exists traj',
     map step_pose traj' = map step_pose traj /\
     map step_tag traj' <> map step_tag traj /\
     save_trajectory traj' = save_trajectory traj /\
     Root.save_trajectory traj' <> Root.save_trajectory traj).
Proof.
  intro Hne.
  assert (Hsame : forall traj',
             map step_pose traj' = map step_pose traj ->
             save_trajectory traj' = save_trajectory traj).
  { intros traj' Hposes.
    assert (Hne' : traj' <> []).
    { intros ->. destruct traj; [congruence | discriminate]. }
    rewrite !save_trajectory_records by assumption.
    rewrite <- (map_map step_pose record_of traj').
    rewrite <- (map_map step_pose record_of traj).
    now rewrite Hposes. }
  assert (Hroot : forall traj',
             Root.save_trajectory traj' = Root.save_trajectory traj ->
             traj' = traj).
  { intros traj' H.
    rewrite (root_save_trajectory_records traj Hne) in H.
    destruct traj' as [|a l]; [discriminate H|].
    rewrite root_save_trajectory_records in H by discriminate.
    injection H as H. now apply root_records_injective. }
  split; [now apply save_trajectory_records|].
  split; [apply length_map|].
  split.
  { intro p. split.
    - eexists. split; [reflexivity | apply length_map].
    - intros c _. apply format_2f_rounds. }
  split; [exact generate_trajectory_poses|].
  split; [exact Hsame|].
  split; [now apply root_save_trajectory_records|].
  split.
  { rewrite root_save_trajectory_records, save_trajectory_records by assumption.
    destruct traj as [|[tag p] l]; [congruence|].
    cbn [map]. unfold root_record_of, record_of. intro H. discriminate H. }
  split; [intros [] p; reflexivity|].
  split; [exact Hroot|].
  destruct traj as [|[tag p] l]; [congruence|].
  exists ((other_tag tag, p) :: l).
  assert (Hposes : map step_pose ((other_tag tag, p) :: l) =
                   map step_pose ((tag, p) :: l)) by reflexivity.
  assert (Htags : map step_tag ((other_tag tag, p) :: l) <>
                  map step_tag ((tag, p) :: l)).
  { cbn [map step_tag fst]. intro H. injection H as H.
    destruct tag; discriminate H. }
  split; [exact Hposes|]. split; [exact Htags|].
  split; [exact (Hsame _ Hposes)|].
  intro H. apply Hroot in H. apply Htags. now rewrite H.
Qed.

(** A pen-down step and a pen-up step at the same pose. *)
Definition drawn : list step := [(line, [10; 0; -145; 22 # 10; 22 # 10; 0])].
Definition lifted_copy : list step :=
  [(move, [10; 0; -145; 22 # 10; 22 # 10; 0])].

Lemma save_trajectory_drops_tags_witness :
  drawn <> [] /\
  save_trajectory lifted_copy = save_trajectory drawn /\
  Root.save_trajectory drawn <> save_trajectory drawn /\
  Root.save_trajectory lifted_copy <> Root.save_trajectory drawn.
Proof.
  assert (Hne : drawn <> []) by discriminate.
  split; [exact Hne|].
  destruct (save_trajectory_drops_tags drawn Hne)
    as [_ [_ [_ [_ [Hsame [_ [Hdiff [_ [Hroot _]]]]]]]]].
  split; [apply Hsame; reflexivity|].
  split; [exact Hdiff|].
  intro H. apply Hroot in H. discriminate H.
Defined.

(** ** The arc flattener *)

(** C8, as amended: on a degenerate elliptical arc the flattener samples
    nothing, raises nothing and settles the segment locally: when the
    start point equals the end point it returns without emitting any
    command (the arc is dropped); otherwise, when a radius is 0, it emits
    exactly one [line] to the arc's end point. *)
Theorem approximate_arc_degenerate
    (math : MathModule) (commands : list command)
    (x0 y0 rx ry angle : Q) (large_arc sweep : Z) (x y : Q) (steps : nat) :
  (x0 == x /\ y0 == y) \/ rx == 0 \/ ry == 0 ->
  (x0 == x /\ y0 == y ->
   approximate_arc math commands x0 y0 rx ry angle large_arc sweep x y steps
   = Ok commands) /\
  (~ (x0 == x /\ y0 == y) ->
   approximate_arc math commands x0 y0 rx ry angle large_arc sweep x y steps
   = Ok (commands ++ [(line, x, y)])).
Proof.
  intro Hdeg. unfold approximate_arc.
  destruct (Qeq_bool x0 x && Qeq_bool y0 y) eqn:Esame.
  - apply andb_true_iff in Esame. rewrite !Qeq_bool_iff in Esame.
    split; [reflexivity | tauto].
  - assert (Hdiff : ~ (x0 == x /\ y0 == y)).
    { intros [Hx Hy]. apply Qeq_bool_iff in Hx, Hy.
      rewrite Hx, Hy in Esame. discriminate. }
    split; [tauto|]. intros _.
    destruct Hdeg as [Hsame|Hzero]; [tauto|].
    assert (Hr : Qeq_bool (Qabs rx) 0 || Qeq_bool (Qabs ry) 0 = true).
    { apply orb_true_iff. rewrite !Qeq_bool_iff.
      destruct Hzero as [H|H]; [left|right]; rewrite H; reflexivity. }
    rewrite Hr. reflexivity.
Qed.

Lemma approximate_arc_degenerate_witness :
  ((0 == 10 /\ 0 == 10) \/ 0 == 0 \/ 5 == 0) /\
  forall math,
    approximate_arc math [(move, 0, 0)] 0 0 0 5 0 0 1 10 10 20 =
    Ok [(move, 0, 0); (line, 10, 10)].
Proof.
  assert (H : (0 == 10 /\ 0 == 10) \/ 0 == 0 \/ 5 == 0)
    by (right; left; reflexivity).
  split; [exact H|]. intro math.
  apply (approximate_arc_degenerate math [(move, 0, 0)] 0 0 0 5 0 0 1 10 10 20 H).
  intros [Hx _]. discriminate Hx.
Defined.

(** A stand-in for the [math] module; the degenerate branches never call
    it, so any module gives the same result. *)
Definition idle_math : MathModule := {|
  math_radians := fun a => a;
  math_cos := fun _ => 1;
  math_sin := fun _ => 0;
  math_sqrt := fun a => a;
  math_atan2 := fun _ _ => 0;
  math_acos := fun _ => 0;
  math_pi := 355 # 113
|}.

(** C8, as stated, fails when the start point equals the end point: the
    flattener emits no [line] at all, with radii that are zero or not. *)
Lemma closed_arc_emits_nothing :
  approximate_arc idle_math [(move, 3, 4)] 3 4 5 5 0 0 1 3 4 20 =
  Ok [(move, 3, 4)] /\
  approximate_arc idle_math [(move, 3, 4)] 3 4 0 5 0 0 1 3 4 20 =
  Ok [(move, 3, 4)].
Proof. split; reflexivity. Qed.

(** ** The path interpreter *)

(** C1 on the code: on a path with two subpaths closed by a final [Z] the
    interpreter emits no closing [line] at all.  The letter [Z] is read by
    the branch that records command letters, and the branch that closes
    the path only runs for a token after it that is not a command letter;
    at the end of the path, or before the next [M], there is none. *)
Theorem parse_path_data_ignores_final_close (math : MathModule) :
  parse_path_data float_of_string math "M 0 0 L 10 0 M 5 5 L 6 5 Z" =
  Ok [(move, 0, 0); (line, 10, 0); (move, 5, 5); (line, 6, 5)].
Proof. reflexivity. Qed.

(** The square written by [create_square_svg] stays open as well. *)
Lemma parse_path_data_square_stays_open (math : MathModule) :
  parse_path_data float_of_string math "M 50,50 L 150,50 L 150,150 L 50,150 Z"
  = Ok [(move, 50, 50); (line, 150, 50); (line, 150, 150); (line, 50, 150)].
Proof. reflexivity. Qed.

(** A close between two subpaths is ignored in the same way. *)
Lemma parse_path_data_ignores_inner_close (math : MathModule) :
  parse_path_data float_of_string math "M 0 0 L 10 0 L 10 10 Z M 5 5 L 6 5" =
  Ok [(move, 0, 0); (line, 10, 0); (line, 10, 10); (move, 5, 5); (line, 6, 5)].
Proof. reflexivity. Qed.

(** When the closing branch does run (here for the stray token after [Z]),
    it draws to [first_position], which the second [M] did not update
    because the command before it was a [line]: the second subpath is
    closed to the start of the first one, (0, 0), not to its own start,
    (5, 5). *)
Lemma parse_path_data_closes_to_first_subpath (math : MathModule) :
  parse_path_data float_of_string math "M 0 0 L 10 0 M 5 5 L 6 5 Z 7" =
  Ok [(move, 0, 0); (line, 10, 0); (move, 5, 5); (line, 6, 5); (line, 0, 0)].
Proof. reflexivity. Qed.

(** The loop of the first example ends by its own test: all thirteen
    tokens are consumed. *)
Lemma parse_path_data_final_state (math : MathModule) :
  length (tokenize "M 0 0 L 10 0 M 5 5 L 6 5 Z") = 13%nat /\
  i (fst (run_path_data float_of_string math "M 0 0 L 10 0 M 5 5 L 6 5 Z"))
  = 13%nat /\
  first_position
    (fst (run_path_data float_of_string math "M 0 0 L 10 0 M 5 5 L 6 5 Z"))
  = (0, 0) /\
  start_position
    (fst (run_path_data float_of_string math "M 0 0 L 10 0 M 5 5 L 6 5 Z"))
  = (5, 5).
Proof. repeat split. Qed.

(** The interpreter of the root converter has the same two defects: a final
    [Z] closes nothing, and a [Z] that runs draws to the first [move] of
    the whole drawing. *)
Lemma root_parse_path_commands_close :
  Root.parse_path_commands float_of_string
    ["M 0 0 L 10 0 L 10 10 Z"%string; "M 5 5 L 6 5 Z"%string] =
  [(move, 0, 0); (line, 10, 0); (line, 10, 10); (move, 5, 5); (line, 6, 5)] /\
  Root.parse_path_commands float_of_string
    ["M 0 0 L 10 0 L 10 10 Z"%string; "M 5 5 L 6 5 Z 7"%string] =
  [(move, 0, 0); (line, 10, 0); (line, 10, 10); (move, 5, 5); (line, 6, 5);
   (line, 0, 0)].
Proof. split; reflexivity. Qed.

(** *** The interpreter loop ends by its own test

    Every statement of the loop body either leaves [i] alone or is the
    final [i += k] of its branch; so an iteration that ends normally has
    moved [i] forward, and [len(tokens)] rounds are enough. *)

Definition keeps_i {A : Type} (m : stmt A) : Prop :=
  forall st st' r, m st = (st', r) -> i st' = i st.

Definition moves_on (m : stmt unit) : Prop :=
  forall st st' r, m st = (st', r) ->
    match r with
    | Ok _ => (i st < i st')%nat
    | Raise _ => i st' = i st
    end.

Lemma keeps_ret {A : Type} (a : A) : keeps_i (ret a).
Proof. intros st st' r H. now inversion H. Qed.

Lemma keeps_raise {A : Type} (e : error) : keeps_i (@raise A e).
Proof. intros st st' r H. now inversion H. Qed.

Lemma keeps_get : keeps_i get.
Proof. intros st st' r H. now inversion H. Qed.

Lemma keeps_lift_result {A : Type} (r : result A) : keeps_i (lift_result r).
Proof. intros st st' r' H. now inversion H. Qed.

Lemma keeps_set_current_cmd (c : string) : keeps_i (set_current_cmd c).
Proof. intros st st' r H. now inversion H. Qed.

Lemma keeps_set_drawing_commands (l : list command) :
  keeps_i (set_drawing_commands l).
Proof. intros st st' r H. now inversion H. Qed.

Lemma keeps_append (c : command) : keeps_i (append c).
Proof. intros st st' r H. now inversion H. Qed.

Lemma keeps_set_abs_position (p : Q * Q) : keeps_i (set_abs_position p).
Proof. intros st st' r H. now inversion H. Qed.

Lemma keeps_set_start_position (p : Q * Q) : keeps_i (set_start_position p).
Proof. intros st st' r H. now inversion H. Qed.

Lemma keeps_set_first_position (p : Q * Q) : keeps_i (set_first_position p).
Proof. intros st st' r H. now inversion H. Qed.

Lemma keeps_set_x1 (v : Q) : keeps_i (set_x1 v).
Proof. intros st st' r H. now inversion H. Qed.

Lemma keeps_set_y1 (v : Q) : keeps_i (set_y1 v).
Proof. intros st st' r H. now inversion H. Qed.

Lemma keeps_float_token (float : string -> option Q) (tokens : list string)
    (k : nat) : keeps_i (float_token float tokens k).
Proof.
  unfold float_token.
  destruct (nth_error tokens k) as [tok|]; [|apply keeps_raise].
  destruct (float tok); [apply keeps_ret | apply keeps_raise].
Qed.

Lemma keeps_seq {A B : Type} (m : stmt A) (k : A -> stmt B) :
  keeps_i m -> (forall a, keeps_i (k a)) -> keeps_i (seq_stmt m k).
Proof.
  intros Hm Hk st st' r H. unfold seq_stmt in H.
  destruct (m st) as [st1 [a|e]] eqn:E.
  - rewrite (Hk a _ _ _ H). exact (Hm _ _ _ E).
  - inversion H; subst. exact (Hm _ _ _ E).
Qed.

Lemma moves_on_advance (k : nat) : (0 < k)%nat -> moves_on (advance k).
Proof. intros Hk st st' r H. inversion H; subst. cbn. lia. Qed.

Lemma moves_on_raise (e : error) : moves_on (raise e).
Proof. intros st st' r H. now inversion H. Qed.

Lemma moves_on_seq {A : Type} (m : stmt A) (k : A -> stmt unit) :
  keeps_i m -> (forall a, moves_on (k a)) -> moves_on (seq_stmt m k).
Proof.
  intros Hm Hk st st' r H. unfold seq_stmt in H.
  destruct (m st) as [st1 [a|e]] eqn:E.
  - pose proof (Hk a _ _ _ H) as H1. rewrite (Hm _ _ _ E) in H1. exact H1.
  - inversion H; subst. exact (Hm _ _ _ E).
Qed.

Lemma moves_on_try_except (body handler : stmt unit) :
  moves_on body -> moves_on handler -> moves_on (try_except body handler).
Proof.
  intros Hb Hh st st' r H. unfold try_except in H.
  destruct (body st) as [st1 [[]|e]] eqn:E.
  - inversion H; subst. exact (Hb _ _ _ E).
  - pose proof (Hb _ _ _ E) as H1. cbn in H1.
    destruct e; try (inversion H; subst; exact H1).
    pose proof (Hh _ _ _ H) as H2. rewrite H1 in H2. exact H2.
Qed.

Create HintDb interp.

#[local] Hint Resolve keeps_ret keeps_raise keeps_get keeps_lift_result
  keeps_set_current_cmd keeps_set_drawing_commands keeps_append
  keeps_set_abs_position keeps_set_start_position keeps_set_first_position
  keeps_set_x1 keeps_set_y1 keeps_float_token moves_on_raise : interp.

(** One step of the structural argument on a statement. *)
Ltac interp_step :=
  match goal with
  | |- forall _, _ => intro
  | |- moves_on (advance _) => apply moves_on_advance; lia
  | |- moves_on (try_except _ _) => apply moves_on_try_except
  | |- moves_on (seq_stmt _ _) => apply moves_on_seq
  | |- keeps_i (seq_stmt _ _) => apply keeps_seq
  | |- context [if ?c then _ else _] => destruct c
  | |- context [let '(_, _) := ?p in _] => destruct p
  | |- _ => solve [auto with interp]
  end.

Ltac interp_solve := repeat interp_step.

Section InterpreterProgress.

Variable float : string -> option Q.
Variable math : MathModule.
Variable tokens : list string.

Lemma iteration_moves_on : moves_on (iteration float math tokens).
Proof.
  unfold iteration.
  apply moves_on_seq; [apply keeps_get|]. intro st.
  destruct (nth_error tokens (i st)) as [tok|]; [|apply moves_on_raise].
  destruct (str_in tok command_letters); [interp_solve|].
  destruct (current_cmd st) as [cmd|]; [|apply moves_on_raise].
  cbv zeta.
  unfold move_command, line_command, horizontal_command, vertical_command,
    close_command, cubic_command, smooth_cubic_command, quadratic_command,
    smooth_quadratic_command, arc_command.
  interp_solve.
Qed.

Lemma parse_loop_reaches_end (fuel : nat) :
  forall st st',
    parse_loop float math tokens fuel st = (st', Ok tt) ->
    (length tokens <= i st + fuel)%nat ->
    (length tokens <= i st')%nat.
Proof.
  induction fuel as [|fuel IH]; intros st st' Hrun Hfuel.
  - inversion Hrun; subst. lia.
  - cbn [parse_loop] in Hrun. unfold seq_stmt, get in Hrun.
    destruct (i st <? length tokens)%nat eqn:E.
    + destruct (iteration float math tokens st) as [st1 [[]|e]] eqn:Eit;
        [|discriminate].
      pose proof (iteration_moves_on _ _ _ Eit) as Hmove. cbn in Hmove.
      apply (IH st1 st' Hrun). lia.
    + inversion Hrun; subst. apply Nat.ltb_ge in E. exact E.
Qed.

End InterpreterProgress.

(** Whenever [parse_path_data] returns, its loop has consumed every
    token: the bound on the number of iterations is never what stops it. *)
Lemma parse_loop_finished (float : string -> option Q) (math : MathModule)
    (path_d : string) (st : parse_state) :
  run_path_data float math path_d = (st, Ok tt) ->
  (length (tokenize path_d) <= i st)%nat.
Proof.
  unfold run_path_data. intro H.
  apply (parse_loop_reaches_end float math _ _ _ _ H). cbn. lia.
Qed.

(** The same holds for the loop of the root converter. *)

Lemma moves_on_try_except2 (body handler : stmt unit) :
  moves_on body -> moves_on handler ->
  moves_on (Root.try_except2 body handler).
Proof.
  intros Hb Hh st st' r H. unfold Root.try_except2 in H.
  destruct (body st) as [st1 [[]|e]] eqn:E.
  - inversion H; subst. exact (Hb _ _ _ E).
  - pose proof (Hb _ _ _ E) as H1. cbn in H1.
    destruct e; try (inversion H; subst; exact H1);
      pose proof (Hh _ _ _ H) as H2; rewrite H1 in H2; exact H2.
Qed.

Lemma keeps_int_token (commands : list string) (k : nat) :
  keeps_i (Root.int_token commands k).
Proof.
  unfold Root.int_token.
  destruct (nth_error commands k) as [tok|]; [|apply keeps_raise].
  destruct (Root.int_of_string tok); [apply keeps_ret | apply keeps_raise].
Qed.

Lemma root_iteration_moves_on (float : string -> option Q)
    (commands : list string) :
  moves_on (Root.iteration float commands).
Proof.
  unfold Root.iteration.
  apply moves_on_seq; [apply keeps_get|]. intro st.
  destruct (nth_error commands (i st)) as [tok|]; [|apply moves_on_raise].
  destruct (str_in tok Root.command_letters); [interp_solve|].
  destruct (current_cmd st) as [cmd|]; [|apply moves_on_raise].
  cbv zeta.
  unfold Root.move_command, Root.line_command, Root.horizontal_command,
    Root.vertical_command, Root.close_command, Root.cubic_command,
    Root.quadratic_command, Root.arc_command.
  repeat match goal with
         | |- moves_on (Root.try_except2 _ _) => apply moves_on_try_except2
         | |- keeps_i (Root.int_token _ _) => apply keeps_int_token
         | |- _ => interp_step
         end.
Qed.

Lemma root_parse_loop_reaches_end (float : string -> option Q)
    (commands : list string) (fuel : nat) :
  forall st st',
    Root.parse_loop float commands fuel st = (st', Ok tt) ->
    (length commands <= i st + fuel)%nat ->
    (length commands <= i st')%nat.
Proof.
  induction fuel as [|fuel IH]; intros st st' Hrun Hfuel.
  - inversion Hrun; subst. lia.
  - cbn [Root.parse_loop] in Hrun. unfold seq_stmt, get in Hrun.
    destruct (i st <? length commands)%nat eqn:E.
    + destruct (Root.iteration float commands st) as [st1 [[]|e]] eqn:Eit;
        [|discriminate].
      pose proof (root_iteration_moves_on _ _ _ _ _ Eit) as Hmove.
      cbn in Hmove. apply (IH st1 st' Hrun). lia.
    + inversion Hrun; subst. apply Nat.ltb_ge in E. exact E.
Qed.

(** * Further properties of the pipeline *)

(** ** Curves and shapes *)

Lemma fold_append {A B : Type} (f : A -> B) (l : list A) :
  forall init : list B,
    fold_left (fun acc a => acc ++ [f a]) l init = init ++ map f l.
Proof.
  induction l as [|a l IH]; intro init; cbn [fold_left map].
  - now rewrite app_nil_r.
  - rewrite IH, <- app_assoc. reflexivity.
Qed.

(** The point of the cubic Bezier curve at parameter [t]. *)
Definition cubic_point (p0 p1 p2 p3 t : Q) : Q :=
  (1 - t) ^ 3 * p0 + 3 * (1 - t) ^ 2 * t * p1
  + 3 * (1 - t) * t ^ 2 * p2 + t ^ 3 * p3.

Lemma approximate_bezier_curve_samples (commands : list command)
    (x0 y0 x1 y1 x2 y2 x3 y3 : Q) (steps : nat) :
  approximate_bezier_curve commands x0 y0 x1 y1 x2 y2 x3 y3 steps =
  commands ++
  map (fun i => (line,
                 cubic_point x0 x1 x2 x3 (of_nat i / of_nat steps),
                 cubic_point y0 y1 y2 y3 (of_nat i / of_nat steps)))
      (range1 steps).
Proof.
  unfold approximate_bezier_curve.
  exact (fold_append _ (range1 steps) commands).
Qed.

Lemma of_nat_positive (n : nat) : (0 < n)%nat -> 0 < of_nat n.
Proof.
  intro H. unfold of_nat.
  change 0 with (inject_Z 0). rewrite <- Zlt_Qlt. lia.
Qed.

Lemma cubic_point_at_one (p0 p1 p2 p3 t : Q) :
  t == 1 -> cubic_point p0 p1 p2 p3 t == p3.
Proof. intro H. unfold cubic_point. rewrite H. ring. Qed.

(** The flattened cubic Bezier segment keeps the commands it is given,
    appends exactly [steps] commands, all of them [line]s, and ends exactly
    on the end point of the segment. *)
Theorem approximate_bezier_curve_reaches_end_point
    (commands : list command) (x0 y0 x1 y1 x2 y2 x3 y3 : Q) (steps : nat) :
  (0 < steps)%nat ->
  exists body x y,
    approximate_bezier_curve commands x0 y0 x1 y1 x2 y2 x3 y3 steps =
    commands ++ body ++ [(line, x, y)] /\
    S (length body) = steps /\
    Forall (fun c => cmd_tag c = line) body /\
    x == x3 /\ y == y3.
Proof.
  intro Hsteps. rewrite approximate_bezier_curve_samples.
  destruct steps as [|n]; [lia|].
  unfold range1. rewrite seq_S, map_app. cbn [map Nat.add].
  eexists. do 2 eexists. split; [reflexivity|].
  split; [now rewrite length_map, length_seq|].
  split.
  - apply Forall_forall. intros c Hc. apply in_map_iff in Hc.
    destruct Hc as [k [<- _]]. reflexivity.
  - assert (Hone : of_nat (S n) / of_nat (S n) == 1).
    { pose proof (of_nat_positive (S n) Hsteps). field. lra. }
    split; apply cubic_point_at_one; exact Hone.
Qed.

Lemma approximate_bezier_curve_reaches_end_point_witness :
  (0 < 10)%nat /\
  exists body x y,
    approximate_bezier_curve [(move, 0, 0)] 0 0 0 10 10 10 10 0 10 =
    [(move, 0, 0)] ++ body ++ [(line, x, y)] /\
    S (length body) = 10%nat /\
    Forall (fun c => cmd_tag c = line) body /\
    x == 10 /\ y == 0.
Proof.
  assert (H : (0 < 10)%nat) by lia.
  split; [exact H|].
  exact (approximate_bezier_curve_reaches_end_point
           [(move, 0, 0)] 0 0 0 10 10 10 10 0 10 H).
Defined.

Lemma circle_to_commands_samples (math : MathModule) (cx cy r : Q)
    (num_segments : nat) :
  circle_to_commands math cx cy r num_segments =
  (move, cx + r * math_cos math (math_radians math 0),
         cy + r * math_sin math (math_radians math 0)) ::
  map (fun i =>
         (line,
          cx + r * math_cos math
                 (math_radians math (of_nat (i * 360) / of_nat num_segments)),
          cy + r * math_sin math
                 (math_radians math (of_nat (i * 360) / of_nat num_segments))))
      (range1 num_segments).
Proof.
  unfold circle_to_commands.
  exact (fold_append _ (range1 num_segments) [_]).
Qed.

(** [circle_to_commands] emits one [move] followed by [num_segments]
    [line]s. *)
Theorem circle_to_commands_count (math : MathModule) (cx cy r : Q)
    (num_segments : nat) :
  exists first rest,
    circle_to_commands math cx cy r num_segments = first :: rest /\
    cmd_tag first = move /\
    length rest = num_segments /\
    Forall (fun c => cmd_tag c = line) rest.
Proof.
  rewrite circle_to_commands_samples.
  do 2 eexists. split; [reflexivity|].
  split; [reflexivity|].
  split; [unfold range1; now rewrite length_map, length_seq|].
  apply Forall_forall. intros c Hc. apply in_map_iff in Hc.
  destruct Hc as [k [<- _]]. reflexivity.
Qed.

Lemma arc_samples_samples (math : MathModule) (commands : list command)
    (cx cy rx ry cos_angle sin_angle start_angle angle_extent : Q)
    (steps : nat) :
  exists body,
    arc_samples math commands cx cy rx ry cos_angle sin_angle
                start_angle angle_extent steps = commands ++ body /\
    length body = steps /\
    Forall (fun c => cmd_tag c = line) body.
Proof.
  unfold arc_samples.
  eexists. split; [exact (fold_append _ (range1 steps) commands)|].
  split; [unfold range1; now rewrite length_map, length_seq|].
  apply Forall_forall. intros c Hc. apply in_map_iff in Hc.
  destruct Hc as [k [<- _]]. reflexivity.
Qed.

(** Whenever [approximate_arc] returns, it has kept the commands it was
    given and appended only [line]s: none, one, or [steps]. *)
Theorem approximate_arc_appends_lines
    (math : MathModule) (commands out : list command)
    (x0 y0 rx ry angle : Q) (large_arc sweep : Z) (x y : Q) (steps : nat) :
  approximate_arc math commands x0 y0 rx ry angle large_arc sweep x y steps
  = Ok out ->
  exists body,
    out = commands ++ body /\
    Forall (fun c => cmd_tag c = line) body /\
    (length body = 0 \/ length body = 1 \/ length body = steps)%nat.
Proof.
  unfold approximate_arc.
  destruct (Qeq_bool x0 x && Qeq_bool y0 y).
  { intro H. injection H as <-. exists []. rewrite app_nil_r.
    split; [reflexivity|]. split; [constructor | left; reflexivity]. }
  destruct (Qeq_bool (Qabs rx) 0 || Qeq_bool (Qabs ry) 0).
  { intro H. injection H as <-. exists [(line, x, y)].
    split; [reflexivity|].
    split; [repeat constructor | right; left; reflexivity]. }
  repeat match goal with
         | |- context [fdiv ?a ?b] =>
             destruct (fdiv_cases a b) as [Hd|Hd]; rewrite Hd; clear Hd;
             cbn [bind]; [discriminate|]
         | |- context [let '(_, _) := (if ?c then _ else _) in _] =>
             destruct c
         end.
  all: intro H; injection H as <-.
  all: match goal with
       | |- exists _, arc_samples ?m ?c ?a1 ?a2 ?a3 ?a4 ?a5 ?a6 ?a7 ?a8 ?n
                      = _ /\ _ =>
           destruct (arc_samples_samples m c a1 a2 a3 a4 a5 a6 a7 a8 n)
             as [body [Hb [Hl Hf]]];
           exists body; rewrite Hb;
           split; [reflexivity|]; split; [exact Hf | right; right; exact Hl]
       end.
Qed.

Lemma approximate_arc_appends_lines_witness :
  approximate_arc idle_math [(move, 0, 0)] 0 0 5 5 0 0 1 10 0 4 =
  Ok [(move, 0, 0); (line, 8000 # 800, 0 # 800); (line, 8000 # 800, 0 # 800);
      (line, 8000 # 800, 0 # 800); (line, 8000 # 800, 0 # 800)] /\
  exists body,
    [(move, 0, 0); (line, 8000 # 800, 0 # 800); (line, 8000 # 800, 0 # 800);
     (line, 8000 # 800, 0 # 800); (line, 8000 # 800, 0 # 800)] =
    [(move, 0, 0)] ++ body /\
    Forall (fun c => cmd_tag c = line) body /\
    (length body = 0 \/ length body = 1 \/ length body = 4)%nat.
Proof.
  assert (H : approximate_arc idle_math [(move, 0, 0)] 0 0 5 5 0 0 1 10 0 4 =
              Ok [(move, 0, 0); (line, 8000 # 800, 0 # 800);
                  (line, 8000 # 800, 0 # 800); (line, 8000 # 800, 0 # 800);
                  (line, 8000 # 800, 0 # 800)])
    by (vm_compute; reflexivity).
  split; [exact H|].
  exact (approximate_arc_appends_lines idle_math _ _ _ _ _ _ _ _ _ _ _ _ H).
Defined.

(** ** More on the path optimizer *)

(** [s] with another [MAX_SEGMENTS_PER_PATH]. *)
Definition with_max_segments (s : Settings) (n : nat) : Settings := {|
  DRAWING_SCALE := DRAWING_SCALE s;
  PRESERVE_ASPECT_RATIO := PRESERVE_ASPECT_RATIO s;
  DRAWING_OFFSET_X := DRAWING_OFFSET_X s;
  DRAWING_OFFSET_Y := DRAWING_OFFSET_Y s;
  PEN_UP_Z := PEN_UP_Z s;
  PEN_DOWN_Z := PEN_DOWN_Z s;
  RX := RX s;
  RY := RY s;
  RZ := RZ s;
  PATH_OPTIMIZATION := PATH_OPTIMIZATION s;
  PATH_TOLERANCE := PATH_TOLERANCE s;
  MAX_SEGMENTS_PER_PATH := n
|}.

(** The cap [MAX_SEGMENTS_PER_PATH] has no effect on what [optimize_paths]
    returns. *)
Theorem optimize_paths_ignores_segment_cap
    (s : Settings) (n : nat) (c : list command) :
  optimize_paths (with_max_segments s n) c = optimize_paths s c.
Proof. rewrite !optimize_paths_rewrites. reflexivity. Qed.

(** What may happen to one command: it is kept, or it is a [move] that
    became a [line] to the same point. *)
Definition kept_or_joined (a b : command) : Prop :=
  b = a \/ (cmd_tag a = move /\ b = (line, cmd_x a, cmd_y a)).

Lemma rewrite_moves_pointwise (tolerance : Q) (cmds : list command) :
  forall prev,
    Forall2 kept_or_joined cmds (rewrite_moves tolerance prev cmds).
Proof.
  induction cmds as [|[[t x] y] rest IH]; intro prev; cbn [rewrite_moves];
    constructor; [|apply IH].
  destruct t, prev as [[px py]|]; try (left; reflexivity).
  destruct (root_le _ _); [right; split; reflexivity | left; reflexivity].
Qed.

(** [optimize_paths] returns as many commands as it is given, with the same
    points in the same order; a command is either kept or is a [move]
    turned into a [line]; the first command is always kept. *)
Theorem optimize_paths_keeps_points (s : Settings) (c : list command) :
  Forall2 kept_or_joined c (optimize_paths s c) /\
  length (optimize_paths s c) = length c /\
  hd_error (optimize_paths s c) = hd_error c.
Proof.
  rewrite optimize_paths_rewrites.
  destruct (PATH_OPTIMIZATION s).
  - split; [apply rewrite_moves_pointwise|].
    split; [apply rewrite_moves_length|].
    destruct c as [|[[[] x] y] rest]; reflexivity.
  - split; [|split; reflexivity].
    induction c; constructor; [left; reflexivity | assumption].
Qed.

(** ** More on the subpath closer *)

Definition lines_only (l : list command) : Prop :=
  Forall (fun c => cmd_tag c = line) l.

(** A subpath proper: a [move] followed by [line]s. *)
Definition is_chunk (sp : list command) : Prop :=
  exists x y tl, sp = (move, x, y) :: tl /\ lines_only tl.

Lemma subpaths_from_lines (l : list command) :
  lines_only l ->
  forall cur rest,
    subpaths_from cur (l ++ rest) = subpaths_from (cur ++ l) rest.
Proof.
  induction 1 as [|[[t x] y] l Ht _ IH]; intros cur rest.
  - now rewrite app_nil_r.
  - cbn in Ht. subst t. cbn [app subpaths_from].
    rewrite IH, <- app_assoc. reflexivity.
Qed.

(** Splitting what was put together from chunks gives the chunks back. *)
Lemma subpaths_from_chunks (chunks : list (list command)) :
  Forall is_chunk chunks ->
  forall cur, subpaths_from cur (concat chunks) = cur :: chunks.
Proof.
  induction 1 as [|sp chunks [x [y [tl [-> Htl]]]] _ IH]; intro cur.
  - reflexivity.
  - cbn [concat app subpaths_from]. f_equal.
    rewrite (subpaths_from_lines tl Htl). apply IH.
Qed.

(** Splitting yields a first chunk that extends [current] by [line]s, and
    subpaths proper after it; together they are the commands split. *)
Lemma subpaths_from_shape (cmds : list command) :
  forall cur,
    exists l chunks,
      subpaths_from cur cmds = (cur ++ l) :: chunks /\
      lines_only l /\ Forall is_chunk chunks /\
      cmds = l ++ concat chunks.
Proof.
  induction cmds as [|[[t x] y] rest IH]; intro cur.
  - exists [], []. rewrite app_nil_r. repeat split; constructor.
  - destruct t; cbn [subpaths_from].
    + destruct (IH [(move, x, y)]) as [l [chunks [E [Hl [Hc Hr]]]]].
      exists [], (((move, x, y) :: l) :: chunks).
      rewrite app_nil_r, E. cbn [app concat].
      split; [reflexivity|]. split; [constructor|].
      split; [|now rewrite Hr].
      constructor; [|exact Hc]. exists x, y, l. split; [reflexivity|exact Hl].
    + destruct (IH (cur ++ [(line, x, y)])) as [l [chunks [E [Hl [Hc Hr]]]]].
      exists ((line, x, y) :: l), chunks.
      rewrite <- app_assoc in E. cbn [app] in E.
      split; [exact E|]. split; [constructor; [reflexivity|exact Hl]|].
      split; [exact Hc | now rewrite Hr].
Qed.

Lemma close_subpath_lines (tolerance : Q) (l : list command) :
  lines_only l -> close_subpath tolerance l = l.
Proof.
  intro H. unfold close_subpath.
  destruct H as [|[[t x] y] l Ht _]; [reflexivity|].
  cbn in Ht. subst t. reflexivity.
Qed.

Lemma close_subpath_chunk (tolerance : Q) (sp : list command) :
  is_chunk sp -> is_chunk (close_subpath tolerance sp).
Proof.
  intros [x [y [tl [-> Htl]]]]. unfold close_subpath. cbn [subpath_start].
  destruct (_ && _).
  - exists x, y, (tl ++ [(line, x, y)]). split; [reflexivity|].
    apply Forall_app. split; [exact Htl | repeat constructor].
  - exists x, y, tl. split; [reflexivity | exact Htl].
Qed.

Lemma close_subpath_closed (tolerance : Q) (sp : list command) (sx sy : Q) :
  subpath_start sp = Some (sx, sy) ->
  close_subpath tolerance (sp ++ [(line, sx, sy)]) = sp ++ [(line, sx, sy)].
Proof.
  intro Hs. unfold close_subpath.
  assert (Hs' : subpath_start (sp ++ [(line, sx, sy)]) = Some (sx, sy)).
  { destruct sp as [|[[[] x] y] tl]; try discriminate. exact Hs. }
  rewrite Hs'. unfold subpath_end. rewrite last_cmd_snoc.
  unfold position_eqb, cmd_x, cmd_y. cbn [fst snd].
  rewrite !Qeq_bool_refl. cbn [andb negb]. now rewrite andb_false_r.
Qed.

Lemma close_subpath_cases (tolerance : Q) (sp : list command) :
  close_subpath tolerance sp = sp \/
  exists sx sy,
    subpath_start sp = Some (sx, sy) /\
    close_subpath tolerance sp = sp ++ [(line, sx, sy)].
Proof.
  unfold close_subpath.
  destruct (subpath_start sp) as [[sx sy]|]; [|now left].
  destruct (_ && _); [|now left].
  right. exists sx, sy. split; reflexivity.
Qed.

Lemma close_subpath_idempotent (tolerance : Q) (sp : list command) :
  close_subpath tolerance (close_subpath tolerance sp) =
  close_subpath tolerance sp.
Proof.
  destruct (close_subpath_cases tolerance sp) as [E|[sx [sy [Hs E]]]];
    rewrite E.
  - exact E.
  - now apply close_subpath_closed.
Qed.

(** Closing is idempotent: a drawing that went through
    [detect_closed_paths] comes out of a second pass unchanged. *)
Theorem detect_closed_paths_idempotent (s : Settings) (cmds : list command) :
  detect_closed_paths s (detect_closed_paths s cmds) =
  detect_closed_paths s cmds.
Proof.
  rewrite !detect_closed_paths_subpaths. unfold subpaths.
  destruct (subpaths_from_shape cmds []) as [l [chunks [E [Hl [Hc _]]]]].
  rewrite E. cbn [app map concat].
  rewrite (close_subpath_lines _ l Hl).
  assert (Hc' : Forall is_chunk (map (close_subpath (PATH_TOLERANCE s)) chunks)).
  { apply Forall_forall. intros sp Hsp. apply in_map_iff in Hsp.
    destruct Hsp as [sp0 [<- Hin]]. apply close_subpath_chunk.
    rewrite Forall_forall in Hc. now apply Hc. }
  rewrite (subpaths_from_lines l Hl), (subpaths_from_chunks _ Hc').
  cbn [app map concat].
  rewrite (close_subpath_lines _ l Hl). f_equal. f_equal.
  rewrite map_map. apply map_ext. intro sp. apply close_subpath_idempotent.
Qed.

Lemma subpath_start_in (sp : list command) (sx sy : Q) :
  subpath_start sp = Some (sx, sy) -> In (move, sx, sy) sp.
Proof.
  destruct sp as [|[[[] x] y] tl]; try discriminate.
  intro H. injection H as -> ->. left. reflexivity.
Qed.

Lemma subpaths_from_concat (cmds : list command) :
  forall cur, concat (subpaths_from cur cmds) = cur ++ cmds.
Proof.
  induction cmds as [|[[t x] y] rest IH]; intro cur.
  - cbn. now rewrite app_nil_r.
  - destruct t; cbn [subpaths_from].
    + cbn [concat]. rewrite IH. reflexivity.
    + rewrite IH, <- app_assoc. reflexivity.
Qed.

(** The closer adds no new point and drops nothing: every command it
    returns is a command of the input or a [line] to the target of a
    [move] of the input, and every command of the input is returned. *)
Theorem detect_closed_paths_adds_no_point (s : Settings) (cmds : list command) :
  (forall c, In c (detect_closed_paths s cmds) ->
     In c cmds \/
     (cmd_tag c = line /\ In (move, cmd_x c, cmd_y c) cmds)) /\
  (forall c, In c cmds -> In c (detect_closed_paths s cmds)).
Proof.
  rewrite detect_closed_paths_subpaths.
  pose proof (subpaths_from_concat cmds []) as Hall. cbn [app] in Hall.
  fold (subpaths cmds) in Hall.
  split; intros c Hc.
  - apply in_concat in Hc. destruct Hc as [sp' [Hsp' Hin]].
    apply in_map_iff in Hsp'. destruct Hsp' as [sp [<- Hsp]].
    assert (Hsub : forall d, In d sp -> In d cmds).
    { intros d Hd. rewrite <- Hall. apply in_concat. now exists sp. }
    unfold close_subpath in Hin.
    destruct (subpath_start sp) as [[sx sy]|] eqn:Hs; [|left; now apply Hsub].
    destruct (_ && _); [|left; now apply Hsub].
    apply in_app_or in Hin. destruct Hin as [Hin|[<-|[]]].
    + left. now apply Hsub.
    + right. split; [reflexivity|].
      apply Hsub. now apply subpath_start_in.
  - rewrite <- Hall in Hc. apply in_concat in Hc.
    destruct Hc as [sp [Hsp Hin]].
    apply in_concat. exists (close_subpath (PATH_TOLERANCE s) sp).
    split; [now apply in_map|].
    unfold close_subpath.
    destruct (subpath_start sp) as [[sx sy]|]; [|exact Hin].
    destruct (_ && _); [apply in_or_app; now left | exact Hin].
Qed.

(** ** More on the trajectory generator *)

(** The orientation part of a pose. *)
Definition orientation (p : pose) : list Q := skipn 3 p.

Definition config_orientation (self : SVGToTrajectoryConverter) : list Q :=
  [rx (robot_config self); ry (robot_config self); rz (robot_config self)].

Lemma pen_machine_orientation (self : SVGToTrajectoryConverter)
    (cmds : list command) :
  forall pen cur,
    Forall (fun st => orientation (step_pose st) = config_orientation self)
           (pen_machine self pen cur cmds).
Proof.
  induction cmds as [|[[t x] y] l IH]; intros pen cur.
  - destruct pen, cur as [[cx cy]|]; cbn [pen_machine];
      repeat (constructor; [reflexivity|]); constructor.
  - destruct t, pen, cur as [[cx cy]|]; cbn [pen_machine];
      repeat (constructor; [reflexivity|]); apply IH.
Qed.

Lemma pen_machine_length (self : SVGToTrajectoryConverter)
    (cmds : list command) :
  forall pen cur,
    (length cmds <= length (pen_machine self pen cur cmds)
     <= 2 * length cmds + 1)%nat.
Proof.
  induction cmds as [|[[t x] y] l IH]; intros pen cur.
  - destruct pen, cur as [[cx cy]|]; cbn; lia.
  - destruct t, pen, cur as [[cx cy]|]; cbn [pen_machine length];
      match goal with
      | |- context [pen_machine self ?p ?c l] =>
          pose proof (IH p c)
      end; lia.
Qed.

Lemma generate_trajectory_orientation
    (self : SVGToTrajectoryConverter) (cmds : list command) (traj : list step) :
  generate_trajectory self cmds = Ok traj ->
  Forall (fun st => orientation (step_pose st) = config_orientation self) traj.
Proof.
  destruct cmds as [|cmd rest].
  { cbn. intro H. injection H as <-. constructor. }
  destruct (home_position (robot_config self)) as [|hx [|hy [|hz tl]]] eqn:E.
  1-3: rewrite generate_trajectory_short_home by (rewrite E; simpl; lia);
       discriminate.
  rewrite (generate_trajectory_machine self cmd rest hx hy hz tl E).
  intro H. injection H as <-.
  apply Forall_app.
  split; [exact (pen_machine_orientation self (cmd :: rest) up None)|].
  constructor; [reflexivity | constructor].
Qed.

(** What [generate_trajectory] returns or raises: it raises only
    [IndexError], exactly when there are commands and the home position
    has fewer than three entries; a trajectory it returns for [n > 0]
    commands has between [n + 1] and [2 n + 2] steps, and every pose in it
    carries the orientation of the robot configuration. *)
Theorem generate_trajectory_outcomes
    (self : SVGToTrajectoryConverter) (cmds : list command) :
  match generate_trajectory self cmds with
  | Raise e =>
      e = IndexError /\ cmds <> [] /\
      (length (home_position (robot_config self)) < 3)%nat
  | Ok traj =>
      (cmds = [] /\ traj = [] \/
       cmds <> [] /\
       (3 <= length (home_position (robot_config self)))%nat /\
       (length cmds + 1 <= length traj <= 2 * length cmds + 2)%nat) /\
      Forall (fun st => orientation (step_pose st) = config_orientation self)
             traj
  end.
Proof.
  destruct cmds as [|cmd rest].
  { cbn. split; [left; split; reflexivity | constructor]. }
  destruct (home_position (robot_config self)) as [|hx [|hy [|hz tl]]] eqn:E.
  1-3: rewrite generate_trajectory_short_home by (rewrite E; simpl; lia);
       split; [reflexivity|]; split; [discriminate | simpl; lia].
  rewrite (generate_trajectory_machine self cmd rest hx hy hz tl E).
  pose proof (pen_machine_length self (cmd :: rest) up None) as Hlen.
  split.
  - right. split; [discriminate|]. split; [simpl; lia|].
    rewrite length_app. cbn [length] in *. lia.
  - apply Forall_app.
    split; [exact (pen_machine_orientation self (cmd :: rest) up None)|].
    constructor; [reflexivity | constructor].
Qed.

(** ** Calibration *)

(** With a calibrated home position of six entries or more, the centre of
    the drawing and the tool orientation are read from it, and every
    trajectory generated on that configuration ends with a [move] to
    exactly the first six entries of the home position. *)
Theorem calibrated_home_is_the_last_pose
    (s : Settings) (calibration : Calibration) (home : list Q)
    (cmd : command) (rest : list command) :
  calibrated_home_position calibration = Some home ->
  (6 <= length home)%nat ->
  let config := new_robot_config s (Some calibration) in
  home_position config = home /\
  [center_x config; center_y config] = firstn 2 home /\
  [rx config; ry config; rz config] = firstn 3 (skipn 3 home) /\
  exists body,
    generate_trajectory (new_converter s config) (cmd :: rest) =
    Ok (body ++ [(move, firstn 6 home)]).
Proof.
  intros Hhome Hlen config.
  destruct home as [|h0 [|h1 [|h2 [|h3 [|h4 [|h5 tl]]]]]];
    try (simpl in Hlen; lia).
  assert (Hc : config = {|
            center_x := h0; center_y := h1;
            z_surface := get_default (drawing_surface calibration) 0;
            rx := h3; ry := h4; rz := h5;
            home_position := h0 :: h1 :: h2 :: h3 :: h4 :: h5 :: tl |}).
  { unfold config, new_robot_config, load_calibration.
    rewrite Hhome. reflexivity. }
  rewrite Hc. cbn [home_position center_x center_y rx ry rz firstn skipn].
  repeat (split; [reflexivity|]).
  eexists.
  rewrite (generate_trajectory_machine _ cmd rest h0 h1 h2 (h3 :: h4 :: h5 :: tl))
    by reflexivity.
  reflexivity.
Qed.

Definition bench_home : list Q := [-37; -295; -42; 22 # 10; 22 # 10; 0].

Definition bench_calibration : Calibration := {|
  drawing_surface := Some (-145);
  calibrated_home_position := Some bench_home
|}.

Definition short_home : list Q := [-37; -295].

Definition short_calibration : Calibration := {|
  drawing_surface := None;
  calibrated_home_position := Some short_home
|}.

Lemma calibrated_home_is_the_last_pose_witness :
  calibrated_home_position bench_calibration = Some bench_home /\
  (6 <= length bench_home)%nat /\
  exists body,
    generate_trajectory
      (new_converter source_settings
         (new_robot_config source_settings (Some bench_calibration)))
      [(move, 0, 0); (line, 10, 0)] =
    Ok (body ++ [(move, firstn 6 bench_home)]).
Proof.
  assert (H1 : calibrated_home_position bench_calibration = Some bench_home)
    by reflexivity.
  assert (H2 : (6 <= length bench_home)%nat) by (simpl; lia).
  split; [exact H1|]. split; [exact H2|].
  exact (proj2 (proj2 (proj2
           (calibrated_home_is_the_last_pose source_settings bench_calibration
              bench_home (move, 0, 0) [(line, 10, 0)] H1 H2)))).
Defined.

(** A calibrated home position of fewer than three entries is accepted by
    [load_calibration] (the [IndexError] on the centre is caught, when
    there is one), stays in the configuration, and makes every later
    generation of a trajectory fail with [IndexError]. *)
Theorem short_calibrated_home_breaks_generation
    (s : Settings) (calibration : Calibration) (home : list Q)
    (cmd : command) (rest : list command) :
  calibrated_home_position calibration = Some home ->
  (length home < 3)%nat ->
  let config := new_robot_config s (Some calibration) in
  home_position config = home /\
  generate_trajectory (new_converter s config) (cmd :: rest)
  = Raise IndexError.
Proof.
  intros Hhome Hlen config.
  assert (Hh : home_position config = home).
  { unfold config, new_robot_config, load_calibration. rewrite Hhome.
    cbn [get_default].
    destruct home as [|h0 [|h1 [|h2 tl]]]; try reflexivity.
    simpl in Hlen. lia. }
  split; [exact Hh|].
  apply generate_trajectory_short_home.
  cbn [new_converter robot_config]. now rewrite Hh.
Qed.

Lemma short_calibrated_home_breaks_generation_witness :
  calibrated_home_position short_calibration = Some short_home /\
  (length short_home < 3)%nat /\
  generate_trajectory
    (new_converter source_settings
       (new_robot_config source_settings (Some short_calibration)))
    [(move, 0, 0)]
  = Raise IndexError.
Proof.
  assert (H2 : (length short_home < 3)%nat) by (simpl; lia).
  split; [reflexivity|]. split; [exact H2|].
  exact (proj2 (short_calibrated_home_breaks_generation source_settings
                  short_calibration short_home (move, 0, 0) [] eq_refl H2)).
Defined.

(** Without a calibration file the drawing is centred on (0, 0); with a
    calibration file that has no home position it is centred on the first
    two entries of the built-in home position, (-37, -295), and the
    orientation is read from that home position instead of [RX], [RY],
    [RZ]. *)
Theorem centre_depends_on_calibration_file
    (s : Settings) (surface : option Q) :
  let missing := new_robot_config s None in
  let present :=
    new_robot_config s
      (Some {| drawing_surface := surface;
               calibrated_home_position := None |}) in
  (center_x missing, center_y missing) = (0, 0) /\
  (rx missing, ry missing, rz missing) = (RX s, RY s, RZ s) /\
  (center_x present, center_y present) = (-37, -295) /\
  (rx present, ry present, rz present) = (22 # 10, 22 # 10, 0) /\
  z_surface present = get_default surface 0 /\
  home_position present = home_position missing.
Proof. repeat split. Qed.

(** ** Writing and reading the trajectory file *)

(** The rounded pose as it stands in the file. *)
Definition written_pose (p : pose) : json :=
  JArray (map (fun c => JNumber (format_2f c)) p).

Lemma first_items_records (traj : list step) :
  first_items (map (fun st => record_of (step_pose st)) traj) =
  Some (map (fun st => written_pose (step_pose st)) traj).
Proof.
  induction traj as [|st l IH]; [reflexivity|].
  cbn [map first_items]. rewrite IH. reflexivity.
Qed.

Lemma first_items_root_records (traj : list step) :
  first_items (map root_record_of traj) =
  Some (map (fun st => JString (Root.tag_name (step_tag st))) traj).
Proof.
  induction traj as [|st l IH]; [reflexivity|].
  cbn [map first_items]. rewrite IH. reflexivity.
Qed.

(** Round trip through the file: reading back with
    [load_trajectory_from_json] what [save_trajectory] of
    [Onlab/svg_code.py] wrote gives the poses of the trajectory, rounded,
    one per step and in order; applied to the file of the root converter
    the same reader returns the tags and no pose. *)
Theorem saved_trajectory_reads_back (traj : list step) :
  match save_trajectory traj with
  | Some document =>
      load_coordinates document =
      Some (map (fun st => written_pose (step_pose st)) traj)
  | None => traj = []
  end /\
  match Root.save_trajectory traj with
  | Some document =>
      load_coordinates document =
      Some (map (fun st => JString (Root.tag_name (step_tag st))) traj)
  | None => traj = []
  end.
Proof.
  destruct traj as [|st l]; [split; reflexivity|].
  rewrite save_trajectory_records, root_save_trajectory_records
    by discriminate.
  split; [apply first_items_records | apply first_items_root_records].
Qed.

Lemma round_half_even_integer (q : Q) (n : Z) :
  q == inject_Z n -> round_half_even q = n.
Proof.
  intro H. unfold round_half_even.
  rewrite (Qfloor_comp _ _ H), Qfloor_Z.
  assert (E : Qcompare (q - inject_Z n) (1 # 2) = Lt).
  { apply Qlt_alt.
    assert (E0 : q - inject_Z n == 0) by (rewrite H; ring).
    rewrite E0. reflexivity. }
  now rewrite E.
Qed.

(** Rounding is stable: a value that [format_2f] produced is written
    unchanged when the pose is saved again. *)
Theorem format_2f_idempotent (p : Q) :
  format_2f (format_2f p) = format_2f p.
Proof.
  unfold format_2f at 1 3.
  rewrite (round_half_even_integer (format_2f p * 100)
             (round_half_even (p * 100))); [reflexivity|].
  unfold format_2f. field.
Qed.

(** ** The consumers' pose helpers *)

Lemma assign_in_range {A : Type} (l : list A) (k : nat) (v : A) :
  (k < length l)%nat ->
  assign l k v = Ok (firstn k l ++ v :: skipn (S k) l).
Proof.
  revert k. induction l as [|a l IH]; intros k Hk; [simpl in Hk; lia|].
  destruct k as [|k]; [reflexivity|].
  cbn [assign]. rewrite IH by (simpl in Hk; lia). reflexivity.
Qed.

Lemma mm_to_m_cases (position_mm : list Q) :
  match position_mm with
  | x :: y :: z :: others =>
      mm_to_m position_mm = Ok (x / 1000 :: y / 1000 :: z / 1000 :: others)
  | _ => mm_to_m position_mm = Raise IndexError
  end.
Proof.
  destruct position_mm as [|x [|y [|z others]]]; reflexivity.
Qed.

(** Every pose of a generated trajectory goes through [mm_to_m] without an
    error: the result has the position divided by 1000 and the orientation
    of the robot configuration, untouched. *)
Theorem generated_poses_convert_to_metres
    (self : SVGToTrajectoryConverter) (cmds : list command) (traj : list step) :
  generate_trajectory self cmds = Ok traj ->
  Forall (fun st =>
            exists x y z,
              firstn 3 (step_pose st) = [x; y; z] /\
              mm_to_m (step_pose st) =
              Ok ([x / 1000; y / 1000; z / 1000] ++ config_orientation self))
         traj.
Proof.
  intro Hgen.
  pose proof (generate_trajectory_poses self cmds traj Hgen) as Hsix.
  pose proof (generate_trajectory_orientation self cmds traj Hgen) as Hori.
  rewrite Forall_forall in *. intros st Hst.
  specialize (Hsix st Hst). specialize (Hori st Hst).
  destruct (step_pose st) as [|x [|y [|z others]]]; try discriminate.
  exists x, y, z. split; [reflexivity|].
  unfold orientation in Hori. cbn [skipn] in Hori. subst others.
  reflexivity.
Qed.

Lemma generated_poses_convert_to_metres_witness :
  generate_trajectory source_converter two_strokes =
  Ok (pen_machine source_converter up None two_strokes
        ++ [home_step source_converter (-37) (-295) (-42)]) /\
  Forall (fun st =>
            exists x y z,
              firstn 3 (step_pose st) = [x; y; z] /\
              mm_to_m (step_pose st) =
              Ok ([x / 1000; y / 1000; z / 1000]
                    ++ config_orientation source_converter))
         (pen_machine source_converter up None two_strokes
            ++ [home_step source_converter (-37) (-295) (-42)]).
Proof.
  assert (H : generate_trajectory source_converter two_strokes =
              Ok (pen_machine source_converter up None two_strokes
                    ++ [home_step source_converter (-37) (-295) (-42)]))
    by reflexivity.
  split; [exact H|].
  exact (generated_poses_convert_to_metres source_converter two_strokes _ H).
Defined.




(** ** The whole conversion *)








Lemma close_subpath_head (tolerance : Q) (sp : list command) :
  hd_error (close_subpath tolerance sp) = hd_error sp.
Proof.
  destruct sp as [|c sp]; [reflexivity|].
  unfold close_subpath.
  destruct (subpath_start (c :: sp)) as [start|]; [|reflexivity].
  destruct (_ && _); reflexivity.
Qed.

Lemma hd_error_app {A : Type} (l l' : list A) :
  l <> [] -> hd_error (l ++ l') = hd_error l.
Proof. destruct l; [congruence | reflexivity]. Qed.

Lemma subpaths_from_head (tolerance : Q) (cmds : list command) :
  forall cur,
    cur <> [] ->
    hd_error (concat (map (close_subpath tolerance) (subpaths_from cur cmds)))
    = hd_error cur.
Proof.
  assert (Hclose : forall cur, cur <> [] -> close_subpath tolerance cur <> []).
  { intros cur Hcur E. pose proof (close_subpath_head tolerance cur) as H.
    rewrite E in H. destruct cur; [congruence | discriminate]. }
  induction cmds as [|[[t x] y] rest IH]; intros cur Hcur.
  - cbn [subpaths_from map concat]. rewrite app_nil_r.
    apply close_subpath_head.
  - destruct t; cbn [subpaths_from map concat].
    + rewrite hd_error_app by now apply Hclose. apply close_subpath_head.
    + rewrite IH by (destruct cur; discriminate).
      now apply hd_error_app.
Qed.

(** The first command of a drawing goes through the closer and the
    optimizer as it is. *)
Lemma detect_closed_paths_head (s : Settings) (cmds : list command) :
  hd_error (detect_closed_paths s cmds) = hd_error cmds.
Proof.
  rewrite detect_closed_paths_subpaths. unfold subpaths.
  destruct cmds as [|[[t x] y] rest]; [reflexivity|].
  destruct t; cbn [subpaths_from map concat app].
  - change (close_subpath (PATH_TOLERANCE s) []) with (@nil command).
    cbn [app]. now rewrite subpaths_from_head.
  - now rewrite subpaths_from_head.
Qed.

Lemma optimize_paths_head (s : Settings) (cmds : list command) :
  hd_error (optimize_paths s cmds) = hd_error cmds.
Proof.
  rewrite optimize_paths_rewrites.
  destruct (PATH_OPTIMIZATION s); [|reflexivity].
  destruct cmds as [|[[[] x] y] rest]; reflexivity.
Qed.

(** The commands the mapper is given by [convert_svg_to_trajectory]. *)
Definition prepared (s : Settings) (cmds : list command) : list command :=
  let closed := detect_closed_paths s cmds in
  if PATH_OPTIMIZATION s then optimize_paths s closed else closed.

Lemma prepared_head (s : Settings) (cmds : list command) :
  hd_error (prepared s cmds) = hd_error cmds.
Proof.
  unfold prepared. destruct (PATH_OPTIMIZATION s);
    now rewrite ?optimize_paths_head, detect_closed_paths_head.
Qed.


Section Conversion.

Variable float : string -> option Q.
Variable math : MathModule.

Lemma convert_svg_to_trajectory_prepared (s : Settings)
    (self : SVGToTrajectoryConverter) (document : svg_document)
    (first : command) (rest : list command) :
  parse_svg_path float math document = first :: rest ->
  exists first' rest',
    prepared s (first :: rest) = first' :: rest' /\
    cmd_tag first' = cmd_tag first /\
    convert_svg_to_trajectory float math s self document =
    (robot_commands <- scale_to_robot_coordinates self (first' :: rest') ;;
     if is_empty robot_commands then Ok []
     else generate_trajectory self robot_commands).
Proof.
  intro Hparse.
  pose proof (prepared_head s (first :: rest)) as Hhd.
  destruct (prepared s (first :: rest)) as [|first' rest'] eqn:E;
    [discriminate|].
  injection Hhd as ->.
  exists first, rest'. split; [reflexivity|]. split; [reflexivity|].
  unfold convert_svg_to_trajectory. rewrite Hparse. cbn [is_empty].
  unfold prepared in E. cbv zeta in E. cbv zeta.
  destruct (PATH_OPTIMIZATION s); rewrite E; reflexivity.
Qed.


(** When the parsed drawing starts with a [move], a trajectory the
    conversion returns obeys the pen protocol from the first step to the
    last (the pen is lowered in place before every stroke, lifted in place
    after it, and is up at the end), and its last step is the [move] to the
    home position. *)
Theorem convert_svg_to_trajectory_pen_protocol
    (s : Settings) (self : SVGToTrajectoryConverter)
    (document : svg_document) (traj : list step) :
  starts_with_move (parse_svg_path float math document) = true ->
  convert_svg_to_trajectory float math s self document = Ok traj ->
  pen_protocol up None traj = true /\
  exists hx hy hz tl body,
    home_position (robot_config self) = hx :: hy :: hz :: tl /\
    traj = body ++ [home_step self hx hy hz].
Proof.
  intros Hmove Hconv.
  destruct (parse_svg_path float math document) as [|first rest] eqn:Hparse;
    [discriminate|].
  destruct (convert_svg_to_trajectory_prepared s self document first rest
              Hparse) as [first' [rest' [_ [Htag Hrun]]]].
  rewrite Hrun in Hconv. clear Hrun.
  rewrite scale_to_robot_coordinates_unfold in Hconv.
  destruct (scaling_factors self _ _) as [sc|e]; [|discriminate].
  cbn [bind map is_empty] in Hconv.
  set (mapped := to_robot self _ _ _ _) in Hconv.
  assert (Hstart : starts_with_move (mapped first' :: map mapped rest') = true).
  { unfold mapped, to_robot. cbn [starts_with_move]. rewrite Htag.
    destruct first as [[[] x] y]; [reflexivity | discriminate]. }
  destruct (home_position (robot_config self)) as [|hx [|hy [|hz tl]]] eqn:E.
  1-3: rewrite generate_trajectory_short_home in Hconv
         by (rewrite E; simpl; lia); discriminate.
  rewrite (generate_trajectory_machine self _ _ hx hy hz tl E) in Hconv.
  assert (Ht : traj = pen_machine self up None (mapped first' :: map mapped rest')
                      ++ [home_step self hx hy hz]) by congruence.
  rewrite Ht. split.
  - apply pen_machine_protocol; try reflexivity.
    intros _. split; [reflexivity | right; exact Hstart].
  - exists hx, hy, hz, tl. eexists. split; reflexivity.
Qed.

End Conversion.

Definition empty_document : svg_document := {|
  path_elements := [];
  circle_elements := [];
  rect_elements := [];
  line_elements := [];
  polyline_elements := [];
  polygon_elements := []
|}.


(** [<rect x="0" y="0" width="10" height="20"/>]. *)
Definition rect_document : svg_document := {|
  path_elements := [];
  circle_elements := [];
  rect_elements :=
    [(Some "0"%string, Some "0"%string, Some "10"%string, Some "20"%string)];
  line_elements := [];
  polyline_elements := [];
  polygon_elements := []
|}.

Definition rect_trajectory : list step :=
  Eval vm_compute in
    match convert_svg_to_trajectory float_of_string idle_math source_settings
            source_converter rect_document with
    | Ok traj => traj
    | Raise _ => []
    end.


Lemma convert_svg_to_trajectory_pen_protocol_witness :
  length rect_trajectory = 8%nat /\
  convert_svg_to_trajectory float_of_string idle_math source_settings
    source_converter rect_document = Ok rect_trajectory /\
  pen_protocol up None rect_trajectory = true /\
  exists hx hy hz tl body,
    home_position (robot_config source_converter) = hx :: hy :: hz :: tl /\
    rect_trajectory = body ++ [home_step source_converter hx hy hz].
Proof.
  assert (H : convert_svg_to_trajectory float_of_string idle_math
                source_settings source_converter rect_document
              = Ok rect_trajectory) by (vm_compute; reflexivity).
  split; [reflexivity|]. split; [exact H|].
  exact (convert_svg_to_trajectory_pen_protocol float_of_string idle_math
           source_settings source_converter rect_document rect_trajectory
           eq_refl H).
Defined.

(** ** Reading the document: [parse_svg_path] *)

(** What the elements of one kind add when none of them raises. *)
Fixpoint all_ok {A : Type} (element : A -> result (list command))
    (elements : list A) : option (list command) :=
  match elements with
  | [] => Some []
  | e :: rest =>
      match element e, all_ok element rest with
      | Ok cmds, Some l => Some (cmds ++ l)
      | _, _ => None
      end
  end.

Lemma extend_all_all_ok {A : Type} (element : A -> result (list command))
    (elements : list A) :
  forall drawing_commands,
    match all_ok element elements with
    | Some l =>
        extend_all element elements drawing_commands
        = Ok (drawing_commands ++ l)
    | None =>
        exists e, extend_all element elements drawing_commands = Raise e
    end.
Proof.
  induction elements as [|e rest IH]; intro drawing_commands;
    cbn [all_ok extend_all].
  - now rewrite app_nil_r.
  - destruct (element e) as [cmds|err]; cbn [bind]; [|now exists err].
    specialize (IH (drawing_commands ++ cmds)).
    destruct (all_ok element rest) as [l|]; [|exact IH].
    now rewrite IH, app_assoc.
Qed.

Section Document.

Variable float : string -> option Q.
Variable math : MathModule.

(** [parse_svg_path] is all or nothing: when no element raises, the result
    is what the paths add, then the circles, the rectangles, the lines, the
    polylines and the polygons, each kind in document order; when one
    element of any kind raises (a malformed number in an attribute of a
    shape, a path that [parse_path_data] fails on), the result is the empty
    list, whatever the other elements hold. *)
Theorem parse_svg_path_all_or_nothing (document : svg_document) :
  parse_svg_path float math document =
  match all_ok (path_element float math) (path_elements document),
        all_ok (circle_element float math) (circle_elements document),
        all_ok (rect_element float) (rect_elements document),
        all_ok (line_element float) (line_elements document),
        all_ok (poly_element float false) (polyline_elements document),
        all_ok (poly_element float true) (polygon_elements document)
  with
  | Some paths, Some circles, Some rects, Some lines,
    Some polylines, Some polygons =>
      paths ++ circles ++ rects ++ lines ++ polylines ++ polygons
  | _, _, _, _, _, _ => []
  end.
Proof.
  unfold parse_svg_path, collect_commands.
  pose proof (extend_all_all_ok (path_element float math)
                (path_elements document) []) as H1.
  destruct (all_ok (path_element float math) _) as [paths|];
    [|destruct H1 as [e ->]; reflexivity].
  rewrite H1. cbn [bind app].
  pose proof (extend_all_all_ok (circle_element float math)
                (circle_elements document) paths) as H2.
  destruct (all_ok (circle_element float math) _) as [circles|];
    [|destruct H2 as [e ->]; reflexivity].
  rewrite H2. cbn [bind].
  pose proof (extend_all_all_ok (rect_element float)
                (rect_elements document) (paths ++ circles)) as H3.
  destruct (all_ok (rect_element float) _) as [rects|];
    [|destruct H3 as [e ->]; reflexivity].
  rewrite H3. cbn [bind].
  pose proof (extend_all_all_ok (line_element float)
                (line_elements document) ((paths ++ circles) ++ rects)) as H4.
  destruct (all_ok (line_element float) _) as [lines|];
    [|destruct H4 as [e ->]; reflexivity].
  rewrite H4. cbn [bind].
  pose proof (extend_all_all_ok (poly_element float false)
                (polyline_elements document)
                (((paths ++ circles) ++ rects) ++ lines)) as H5.
  destruct (all_ok (poly_element float false) _) as [polylines|];
    [|destruct H5 as [e ->]; reflexivity].
  rewrite H5. cbn [bind].
  pose proof (extend_all_all_ok (poly_element float true)
                (polygon_elements document)
                ((((paths ++ circles) ++ rects) ++ lines) ++ polylines)) as H6.
  destruct (all_ok (poly_element float true) _) as [polygons|];
    [|destruct H6 as [e ->]; reflexivity].
  rewrite H6. now rewrite <- !app_assoc.
Qed.

End Document.

(** A valid rectangle is lost when a circle of the same document has a
    malformed radius. *)
Lemma malformed_circle_empties_the_drawing :
  parse_svg_path float_of_string idle_math
    {| path_elements := [];
       circle_elements := [(Some "5"%string, Some "5"%string, Some "r"%string)];
       rect_elements := rect_elements rect_document;
       line_elements := [];
       polyline_elements := [];
       polygon_elements := [] |} = [] /\
  parse_svg_path float_of_string idle_math rect_document =
  [(move, 0, 0); (line, 10, 0); (line, 10, 20); (line, 0, 20); (line, 0, 0)].
Proof. split; reflexivity. Qed.

(** *** Point lists of [<polyline>] and [<polygon>] *)

Fixpoint no_space (s : string) : bool :=
  match s with
  | EmptyString => true
  | String c rest => negb (is_space c) && no_space rest
  end.

Lemma no_space_append (a b : string) :
  no_space a = true -> no_space b = true -> no_space (a ++ b)%string = true.
Proof.
  induction a as [|c a IH]; intros Ha Hb; [exact Hb|].
  cbn [String.append no_space] in *.
  apply andb_true_iff in Ha. destruct Ha as [Hc Ha].
  now rewrite Hc, IH.
Qed.

Lemma split_from_no_space (s : string) :
  forall word,
    no_space word = true ->
    Forall (fun tok => no_space tok = true) (split_from word s).
Proof.
  induction s as [|a rest IH]; intros word Hword; cbn [split_from].
  - destruct word; [constructor | now repeat constructor].
  - destruct (is_space a) eqn:Ea.
    + destruct word; [now apply IH|].
      constructor; [exact Hword | now apply IH].
    + apply IH. apply no_space_append; [exact Hword|].
      cbn [no_space]. now rewrite Ea.
Qed.

Lemma no_space_not_in (tok : string) :
  no_space tok = true -> str_in " " tok = false.
Proof.
  induction tok as [|c tok IH]; intro H; [reflexivity|].
  cbn [no_space] in H. apply andb_true_iff in H. destruct H as [Hc Htok].
  cbn [str_in String.prefix]. rewrite (IH Htok), orb_false_r.
  destruct (Ascii.ascii_dec " " c) as [<-|Hne]; [discriminate|].
  reflexivity.
Qed.

Section Points.

Variable float : string -> option Q.

Lemma points_loop_whole (polygon : bool) (coords todo : list string) :
  Forall (fun tok => no_space tok = true) todo ->
  points_loop float polygon coords todo [] =
  if Nat.even (length coords) && negb (is_empty todo)
  then coordinate_pairs float coords
  else Ok [].
Proof.
  induction 1 as [|tok rest Htok _ IH]; cbn [points_loop is_empty negb].
  - now rewrite andb_false_r.
  - rewrite (no_space_not_in tok Htok), andb_true_r.
    destruct (Nat.even (length coords)); [reflexivity|].
    exact IH.
Qed.

(** The point list of a [<polyline>] or [<polygon>] is all or nothing: with
    an even number of coordinates (separated by commas or white space) the
    coordinates are paired in order, and one of them that [float] rejects
    raises [ValueError]; with an odd number the element has no points and
    adds no command, silently.  The branch for a token with a space in it
    never runs. *)
Theorem poly_element_pairs_or_nothing (polygon : bool) (points : string) :
  poly_element float polygon (Some points) =
  let coords := split (replace_char "," " " points) in
  if Nat.even (length coords)
  then point_list <- coordinate_pairs float coords ;;
       Ok (poly_cmds polygon point_list)
  else Ok [].
Proof.
  cbv zeta.
  assert (H : parse_points float polygon points =
              if Nat.even (length (split (replace_char "," " " points)))
              then coordinate_pairs float (split (replace_char "," " " points))
              else Ok []).
  { unfold parse_points. cbv zeta.
    rewrite points_loop_whole
      by (apply split_from_no_space; reflexivity).
    destruct (split (replace_char "," " " points)) as [|tok rest];
      [reflexivity|].
    cbn [is_empty negb]. now rewrite andb_true_r. }
  destruct points as [|c points'].
  - reflexivity.
  - cbn [poly_element]. rewrite H.
    destruct (Nat.even _); reflexivity.
Qed.

End Points.

(** Three coordinates give no command; four give a [move] and a [line],
    and the polygon its closing [line]. *)
Lemma poly_element_examples :
  poly_element float_of_string true (Some "0,0 10,0 5"%string) = Ok [] /\
  poly_element float_of_string false (Some "0,0 10 5"%string) =
  Ok [(move, 0, 0); (line, 10, 5)] /\
  poly_element float_of_string true (Some "0,0 10 5"%string) =
  Ok [(move, 0, 0); (line, 10, 5); (line, 0, 0)] /\
  poly_element float_of_string true (Some "0,0 10 x"%string) =
  Raise ValueError.
Proof. repeat split. Qed.

(** ** Errors of the path interpreter *)

(** The errors a statement may end with, whatever the state. *)
Definition raises_only (E : error -> Prop) {A : Type} (m : stmt A) : Prop :=
  forall st st' e, m st = (st', Raise e) -> E e.

(** The same on one state. *)
Definition raises_at (E : error -> Prop) {A : Type} (m : stmt A)
    (st : parse_state) : Prop :=
  forall st' e, m st = (st', Raise e) -> E e.

(** A statement that leaves a recorded command letter recorded. *)
Definition cmd_stays {A : Type} (m : stmt A) : Prop :=
  forall st st' r, m st = (st', r) ->
    current_cmd st <> None -> current_cmd st' <> None.

Lemma raises_at_of_only (E : error -> Prop) {A : Type} (m : stmt A)
    (st : parse_state) :
  raises_only E m -> raises_at E m st.
Proof. intros H st' e. apply H. Qed.

Lemma raises_at_get (E : error -> Prop) {A : Type}
    (k : parse_state -> stmt A) (st : parse_state) :
  raises_at E (k st) st -> raises_at E (seq_stmt get k) st.
Proof. intros H st' e. unfold seq_stmt, get. apply H. Qed.

Lemma raises_ret (E : error -> Prop) {A : Type} (a : A) :
  raises_only E (ret a).
Proof. intros st st' e H. inversion H. Qed.

Lemma raises_get (E : error -> Prop) : raises_only E get.
Proof. intros st st' e H. inversion H. Qed.

Lemma raises_advance (E : error -> Prop) (k : nat) :
  raises_only E (advance k).
Proof. intros st st' e H. inversion H. Qed.

Lemma raises_set_current_cmd (E : error -> Prop) (c : string) :
  raises_only E (set_current_cmd c).
Proof. intros st st' e H. inversion H. Qed.

Lemma raises_set_drawing_commands (E : error -> Prop) (l : list command) :
  raises_only E (set_drawing_commands l).
Proof. intros st st' e H. inversion H. Qed.

Lemma raises_append (E : error -> Prop) (c : command) :
  raises_only E (append c).
Proof. intros st st' e H. inversion H. Qed.

Lemma raises_set_abs_position (E : error -> Prop) (p : Q * Q) :
  raises_only E (set_abs_position p).
Proof. intros st st' e H. inversion H. Qed.

Lemma raises_set_start_position (E : error -> Prop) (p : Q * Q) :
  raises_only E (set_start_position p).
Proof. intros st st' e H. inversion H. Qed.

Lemma raises_set_first_position (E : error -> Prop) (p : Q * Q) :
  raises_only E (set_first_position p).
Proof. intros st st' e H. inversion H. Qed.

Lemma raises_set_x1 (E : error -> Prop) (v : Q) : raises_only E (set_x1 v).
Proof. intros st st' e H. inversion H. Qed.

Lemma raises_set_y1 (E : error -> Prop) (v : Q) : raises_only E (set_y1 v).
Proof. intros st st' e H. inversion H. Qed.

Lemma raises_lift_result (E : error -> Prop) {A : Type} (r : result A) :
  (forall e, r = Raise e -> E e) -> raises_only E (lift_result r).
Proof. intros Hr st st' e H. inversion H. now apply Hr. Qed.

Lemma raises_float_token (E : error -> Prop) (float : string -> option Q)
    (tokens : list string) (k : nat) :
  (k < length tokens)%nat -> E ValueError ->
  raises_only E (float_token float tokens k).
Proof.
  intros Hk HE st st' e H. unfold float_token in H.
  destruct (nth_error tokens k) as [tok|] eqn:Etok.
  - destruct (float tok); inversion H; subst. exact HE.
  - apply nth_error_None in Etok. lia.
Qed.

Lemma raises_seq (E : error -> Prop) {A B : Type}
    (m : stmt A) (k : A -> stmt B) :
  raises_only E m -> (forall a, raises_only E (k a)) ->
  raises_only E (seq_stmt m k).
Proof.
  intros Hm Hk st st' e H. unfold seq_stmt in H.
  destruct (m st) as [st1 [a|e1]] eqn:Em.
  - exact (Hk a _ _ _ H).
  - inversion H; subst. exact (Hm _ _ _ Em).
Qed.

Lemma raises_try_except (E : error -> Prop) (body handler : stmt unit) :
  raises_only (fun e => e = ValueError \/ E e) body ->
  raises_only E handler ->
  raises_only E (try_except body handler).
Proof.
  intros Hb Hh st st' e H. unfold try_except in H.
  destruct (body st) as [st1 [[]|e1]] eqn:Eb; [inversion H|].
  destruct (Hb _ _ _ Eb) as [->|He1].
  - exact (Hh _ _ _ H).
  - destruct e1; inversion H; subst; try exact He1.
    exact (Hh _ _ _ H).
Qed.

Lemma approximate_arc_raises (math : MathModule) (commands : list command)
    (x0 y0 rx ry angle : Q) (large_arc sweep : Z) (x y : Q) (steps : nat)
    (e : error) :
  approximate_arc math commands x0 y0 rx ry angle large_arc sweep x y steps
  = Raise e ->
  e = ZeroDivisionError.
Proof.
  unfold approximate_arc.
  destruct (Qeq_bool x0 x && Qeq_bool y0 y); [discriminate|].
  destruct (Qeq_bool (Qabs rx) 0 || Qeq_bool (Qabs ry) 0); [discriminate|].
  repeat match goal with
         | |- context [fdiv ?a ?b] =>
             destruct (fdiv_cases a b) as [Hd|Hd]; rewrite Hd; clear Hd;
             cbn [bind]; [congruence|]
         | |- context [let '(_, _) := (if ?c then _ else _) in _] =>
             destruct c
         end.
  all: discriminate.
Qed.

Create HintDb raises.

#[local] Hint Resolve raises_ret raises_get raises_advance
  raises_set_current_cmd raises_set_drawing_commands raises_append
  raises_set_abs_position raises_set_start_position raises_set_first_position
  raises_set_x1 raises_set_y1 : raises.

Ltac raises_step :=
  match goal with
  | |- forall _, _ => intro
  | |- raises_only _ (try_except _ _) => apply raises_try_except
  | |- raises_only _ (seq_stmt _ _) => apply raises_seq
  | |- raises_only _ (float_token _ _ _) =>
      apply raises_float_token; [lia | cbv beta; auto]
  | |- raises_only _ (lift_result _) =>
      apply raises_lift_result; intros ? Harc;
      apply approximate_arc_raises in Harc; cbv beta; auto
  | |- context [if ?c then _ else _] => destruct c
  | |- context [let '(_, _) := ?p in _] => destruct p
  | |- _ => solve [auto with raises]
  end.

Ltac raises_solve := repeat raises_step.

(** The guard of a branch, as a fact. *)
Ltac guard_facts :=
  repeat match goal with
         | H : (_ && _) = true |- _ =>
             apply andb_true_iff in H; destruct H
         | H : (_ <? _)%nat = true |- _ => apply Nat.ltb_lt in H
         end.

Section InterpreterErrors.

Variable float : string -> option Q.
Variable math : MathModule.
Variable tokens : list string.

Lemma iteration_raises (st : parse_state) :
  (i st < length tokens)%nat ->
  current_cmd st <> None ->
  raises_at (fun e => e = ZeroDivisionError) (iteration float math tokens) st.
Proof.
  intros Hi Hcmd. unfold iteration. apply raises_at_get.
  destruct (nth_error tokens (i st)) as [tok|] eqn:Etok;
    [|apply nth_error_None in Etok; lia].
  destruct (str_in tok command_letters);
    [apply raises_at_of_only; raises_solve|].
  destruct (current_cmd st) as [cmd|]; [clear Hcmd | congruence].
  cbv zeta.
  destruct (str_in cmd "Mm").
  { unfold move_command. apply raises_at_get.
    destruct (i st + 1 <? length tokens)%nat eqn:G; guard_facts;
      apply raises_at_of_only; raises_solve. }
  destruct (str_in cmd "Ll").
  { unfold line_command. apply raises_at_get.
    destruct (i st + 1 <? length tokens)%nat eqn:G; guard_facts;
      apply raises_at_of_only; raises_solve. }
  destruct (str_in cmd "Hh").
  { unfold horizontal_command. apply raises_at_get.
    destruct (i st <? length tokens)%nat eqn:G; guard_facts;
      apply raises_at_of_only; raises_solve. }
  destruct (str_in cmd "Vv").
  { unfold vertical_command. apply raises_at_get.
    destruct (i st <? length tokens)%nat eqn:G; guard_facts;
      apply raises_at_of_only; raises_solve. }
  destruct (str_in cmd "Zz").
  { unfold close_command. apply raises_at_get.
    apply raises_at_of_only; raises_solve. }
  destruct (str_in cmd "Cc" && (i st + 5 <? length tokens)%nat) eqn:Gc.
  { guard_facts. unfold cubic_command. apply raises_at_get.
    apply raises_at_of_only; cbv zeta; raises_solve. }
  destruct (str_in cmd "Ss" && (i st + 3 <? length tokens)%nat) eqn:Gs.
  { guard_facts. unfold smooth_cubic_command. apply raises_at_get.
    apply raises_at_of_only; cbv zeta; raises_solve. }
  destruct (str_in cmd "Qq" && (i st + 3 <? length tokens)%nat) eqn:Gq.
  { guard_facts. unfold quadratic_command. apply raises_at_get.
    apply raises_at_of_only; cbv zeta; raises_solve. }
  destruct (str_in cmd "Tt" && (i st + 1 <? length tokens)%nat) eqn:Gt.
  { guard_facts. unfold smooth_quadratic_command. apply raises_at_get.
    apply raises_at_of_only; cbv zeta; raises_solve. }
  destruct (str_in cmd "Aa" && (i st + 6 <? length tokens)%nat) eqn:Ga.
  { guard_facts. unfold arc_command. apply raises_at_get.
    apply raises_at_of_only; cbv zeta; raises_solve. }
  apply raises_at_of_only; raises_solve.
Qed.

End InterpreterErrors.

Lemma stays_ret {A : Type} (a : A) : cmd_stays (ret a).
Proof. intros st st' r H. now inversion H. Qed.

Lemma stays_raise {A : Type} (e : error) : cmd_stays (@raise A e).
Proof. intros st st' r H. now inversion H. Qed.

Lemma stays_get : cmd_stays get.
Proof. intros st st' r H. now inversion H. Qed.

Lemma stays_lift_result {A : Type} (r : result A) : cmd_stays (lift_result r).
Proof. intros st st' r' H. now inversion H. Qed.

Lemma stays_advance (k : nat) : cmd_stays (advance k).
Proof. intros st st' r H. now inversion H. Qed.

Lemma stays_set_current_cmd (c : string) : cmd_stays (set_current_cmd c).
Proof. intros st st' r H _. inversion H. discriminate. Qed.

Lemma stays_set_drawing_commands (l : list command) :
  cmd_stays (set_drawing_commands l).
Proof. intros st st' r H. now inversion H. Qed.

Lemma stays_append (c : command) : cmd_stays (append c).
Proof. intros st st' r H. now inversion H. Qed.

Lemma stays_set_abs_position (p : Q * Q) : cmd_stays (set_abs_position p).
Proof. intros st st' r H. now inversion H. Qed.

Lemma stays_set_start_position (p : Q * Q) : cmd_stays (set_start_position p).
Proof. intros st st' r H. now inversion H. Qed.

Lemma stays_set_first_position (p : Q * Q) : cmd_stays (set_first_position p).
Proof. intros st st' r H. now inversion H. Qed.

Lemma stays_set_x1 (v : Q) : cmd_stays (set_x1 v).
Proof. intros st st' r H. now inversion H. Qed.

Lemma stays_set_y1 (v : Q) : cmd_stays (set_y1 v).
Proof. intros st st' r H. now inversion H. Qed.

Lemma stays_float_token (float : string -> option Q) (tokens : list string)
    (k : nat) : cmd_stays (float_token float tokens k).
Proof.
  unfold float_token.
  destruct (nth_error tokens k) as [tok|]; [|apply stays_raise].
  destruct (float tok); [apply stays_ret | apply stays_raise].
Qed.

Lemma stays_seq {A B : Type} (m : stmt A) (k : A -> stmt B) :
  cmd_stays m -> (forall a, cmd_stays (k a)) -> cmd_stays (seq_stmt m k).
Proof.
  intros Hm Hk st st' r H Hcmd. unfold seq_stmt in H.
  destruct (m st) as [st1 [a|e]] eqn:E.
  - exact (Hk a _ _ _ H (Hm _ _ _ E Hcmd)).
  - inversion H; subst. exact (Hm _ _ _ E Hcmd).
Qed.

Lemma stays_try_except (body handler : stmt unit) :
  cmd_stays body -> cmd_stays handler -> cmd_stays (try_except body handler).
Proof.
  intros Hb Hh st st' r H Hcmd. unfold try_except in H.
  destruct (body st) as [st1 [[]|e]] eqn:E.
  - inversion H; subst. exact (Hb _ _ _ E Hcmd).
  - pose proof (Hb _ _ _ E Hcmd) as H1.
    destruct e; try (inversion H; subst; exact H1).
    exact (Hh _ _ _ H H1).
Qed.

#[local] Hint Resolve stays_ret stays_raise stays_get stays_lift_result
  stays_advance stays_set_current_cmd stays_set_drawing_commands stays_append
  stays_set_abs_position stays_set_start_position stays_set_first_position
  stays_set_x1 stays_set_y1 stays_float_token : raises.

Ltac stays_step :=
  match goal with
  | |- forall _, _ => intro
  | |- cmd_stays (try_except _ _) => apply stays_try_except
  | |- cmd_stays (seq_stmt _ _) => apply stays_seq
  | |- context [if ?c then _ else _] => destruct c
  | |- context [let '(_, _) := ?p in _] => destruct p
  | |- _ => solve [auto with raises]
  end.

(** The locals after a first token that is the command letter [tok]. *)
Definition first_state (tok : string) : parse_state := {|
  i := 1;
  current_cmd := Some tok;
  drawing_commands := [];
  abs_position := (0, 0);
  start_position := (0, 0);
  first_position := (0, 0);
  x1 := None;
  y1 := None
|}.

(** The first token of a path, when there is one, is a command letter. *)
Definition starts_with_letter (tokens : list string) : bool :=
  match tokens with
  | [] => true
  | tok :: _ => str_in tok command_letters
  end.

Section InterpreterOutcomes.

Variable float : string -> option Q.
Variable math : MathModule.
Variable tokens : list string.

Lemma iteration_cmd_stays : cmd_stays (iteration float math tokens).
Proof.
  unfold iteration.
  apply stays_seq; [apply stays_get|]. intro st.
  destruct (nth_error tokens (i st)) as [tok|]; [|apply stays_raise].
  destruct (str_in tok command_letters); [repeat stays_step|].
  destruct (current_cmd st) as [cmd|]; [|apply stays_raise].
  cbv zeta.
  unfold move_command, line_command, horizontal_command, vertical_command,
    close_command, cubic_command, smooth_cubic_command, quadratic_command,
    smooth_quadratic_command, arc_command.
  repeat stays_step.
Qed.

Lemma parse_loop_raises (fuel : nat) :
  forall st st' e,
    current_cmd st <> None ->
    parse_loop float math tokens fuel st = (st', Raise e) ->
    e = ZeroDivisionError.
Proof.
  induction fuel as [|fuel IH]; intros st st' e Hcmd Hrun.
  - inversion Hrun.
  - cbn [parse_loop] in Hrun. unfold seq_stmt, get in Hrun.
    destruct (i st <? length tokens)%nat eqn:Ei; [|inversion Hrun].
    apply Nat.ltb_lt in Ei.
    destruct (iteration float math tokens st) as [st1 [[]|e1]] eqn:Eit.
    + apply (IH st1 st' e); [|exact Hrun].
      exact (iteration_cmd_stays _ _ _ Eit Hcmd).
    + inversion Hrun; subst.
      exact (iteration_raises float math tokens st Ei Hcmd _ _ Eit).
Qed.

Lemma parse_loop_first (tok : string) (rest : list string) (fuel : nat) :
  tokens = tok :: rest ->
  parse_loop float math tokens (S fuel) initial_parse_state =
  if str_in tok command_letters
  then parse_loop float math tokens fuel (first_state tok)
  else (initial_parse_state, Raise TypeError).
Proof.
  intro Etokens. cbn [parse_loop].
  unfold seq_stmt at 1, get at 1.
  replace (i initial_parse_state <? length tokens)%nat with true
    by now rewrite Etokens.
  unfold seq_stmt at 1, iteration at 1, seq_stmt at 1, get at 1.
  replace (nth_error tokens (i initial_parse_state)) with (Some tok)
    by now rewrite Etokens.
  destruct (str_in tok command_letters); reflexivity.
Qed.

Lemma parse_loop_outcomes :
  match parse_loop float math tokens (length tokens) initial_parse_state with
  | (_, Ok _) => starts_with_letter tokens = true
  | (_, Raise e) =>
      if starts_with_letter tokens then e = ZeroDivisionError
      else e = TypeError
  end.
Proof.
  destruct tokens as [|tok rest] eqn:Etokens; [reflexivity|].
  rewrite <- Etokens.
  replace (length tokens) with (S (length rest)) by now rewrite Etokens.
  replace (starts_with_letter tokens) with (str_in tok command_letters)
    by now rewrite Etokens.
  rewrite (parse_loop_first tok rest (length rest) Etokens).
  destruct (str_in tok command_letters); [|reflexivity].
  destruct (parse_loop float math tokens (length rest) (first_state tok))
    as [st' [[]|e]] eqn:Erun; [reflexivity|].
  apply (parse_loop_raises (length rest) (first_state tok) st' e);
    [discriminate | exact Erun].
Qed.

End InterpreterOutcomes.

(** [parse_path_data] raises [TypeError] exactly when the first token of
    the path is not a command letter (the test [current_cmd in "Mm"] on
    [None]); [ValueError] and [IndexError] never leave it: a token that is
    not a number and a command that lacks arguments are skipped.  (What
    else can leave it comes from the arithmetic of the arc branch; the
    [OverflowError] of a number out of the range of doubles is not part of
    this model.) *)
Theorem parse_path_data_type_error (float : string -> option Q)
    (math : MathModule) (path_d : string) :
  (parse_path_data float math path_d = Raise TypeError <->
   starts_with_letter (tokenize path_d) = false) /\
  parse_path_data float math path_d <> Raise ValueError /\
  parse_path_data float math path_d <> Raise IndexError.
Proof.
  unfold parse_path_data, run_path_data. cbv zeta.
  pose proof (parse_loop_outcomes float math (tokenize path_d)) as H.
  destruct (parse_loop float math (tokenize path_d) _ initial_parse_state)
    as [st [[]|e]];
    destruct (starts_with_letter (tokenize path_d)); subst;
    repeat split; try discriminate; try intros; congruence.
Qed.

(** A valid path after a stray number is lost with it, and a token that is
    not a number is skipped. *)
Lemma parse_path_data_error_examples (math : MathModule) :
  parse_path_data float_of_string math "10 20 L 5 5" = Raise TypeError /\
  parse_path_data float_of_string math "M 1 2 L x 3 4 5" =
  Ok [(move, 1, 2); (line, 3, 4)].
Proof. split; reflexivity. Qed.

(** ** The Koch curve generator *)

Section KochProperties.

Variable math : MathModule.
Variable draws : nat -> Q.

Lemma removelast_length {A : Type} (l : list A) :
  length (removelast l) = pred (length l).
Proof.
  induction l as [|a [|b l] IH]; try reflexivity.
  cbn [removelast length] in *. now rewrite IH.
Qed.

Lemma removelast_head {A : Type} (l : list A) :
  (2 <= length l)%nat -> hd_error (removelast l) = hd_error l.
Proof. destruct l as [|a [|b l]]; cbn; intros; try lia; reflexivity. Qed.

Lemma last_app_nonempty {A : Type} (l l' : list A) (d : A) :
  l' <> [] -> last (l ++ l') d = last l' d.
Proof.
  intro H. induction l as [|a l IH]; [reflexivity|].
  cbn [app last]. destruct (l ++ l') eqn:E; [|exact IH].
  apply app_eq_nil in E. destruct E. congruence.
Qed.

Lemma generate_koch_points_shape (depth : nat) :
  forall start_x start_y end_x end_y randomize rand_factor rng,
    let points :=
      fst (generate_koch_points math draws start_x start_y end_x end_y depth
             randomize rand_factor rng) in
    length points = (4 ^ depth + 1)%nat /\
    hd_error points = Some (start_x, start_y) /\
    last points (0, 0) = (end_x, end_y).
Proof.
  induction depth as [|depth IH];
    intros start_x start_y end_x end_y randomize rand_factor rng.
  { cbn. repeat split. }
  cbv zeta. cbn [generate_koch_points].
  repeat match goal with
         | |- context [let '(_, _) := ?p in _] =>
             lazymatch p with
             | generate_koch_points _ _ _ _ _ _ _ _ _ _ => fail
             | _ => destruct p
             end
         end.
  repeat match goal with
         | |- context [generate_koch_points math draws ?a ?b ?c ?d depth ?r ?f ?g] =>
             let H := fresh "H" in
             pose proof (IH a b c d r f g) as H; cbv zeta in H;
             destruct (generate_koch_points math draws a b c d depth r f g)
               as [? ?]; cbn [fst] in H;
             destruct H as [? [? ?]]
         end.
  cbn [fst].
  assert (Hpos : (1 <= 4 ^ depth)%nat).
  { pose proof (Nat.pow_nonzero 4 depth). lia. }
  split; [|split].
  - rewrite !length_app, !removelast_length.
    cbn [Nat.pow]. lia.
  - rewrite hd_error_app.
    + rewrite removelast_head by lia. assumption.
    + intro E. apply (f_equal (@length _)) in E.
      rewrite removelast_length in E. cbn in E. lia.
  - rewrite !last_app_nonempty; try assumption;
      intro E; apply (f_equal (@length _)) in E;
      rewrite ?length_app in E; cbn in E; lia.
Qed.

End KochProperties.

Section KochCurves.

Variable math : MathModule.
Variable draws : nat -> Q.

(** A Koch curve of depth [depth] has [4 ^ depth + 1] points, starts at the
    start point and ends at the end point it is given, with or without
    randomisation and whatever the random draws are. *)
Theorem generate_koch_points_count_and_ends
    (start_x start_y end_x end_y : Q) (depth : nat) (randomize : bool)
    (rand_factor : Q) (rng : nat) :
  let points :=
    fst (generate_koch_points math draws start_x start_y end_x end_y depth
           randomize rand_factor rng) in
  length points = (4 ^ depth + 1)%nat /\
  hd_error points = Some (start_x, start_y) /\
  last points (0, 0) = (end_x, end_y).
Proof. apply generate_koch_points_shape. Qed.

Lemma koch_side_points (vertices : list (Q * Q)) (all_points : list (Q * Q))
    (rng i : nat) (start finish : Q * Q) :
  vertex vertices i = Ok start ->
  vertex vertices ((i + 1) mod 6) = Ok finish ->
  exists points rng',
    koch_side math draws vertices (Ok (all_points, rng)) i =
    Ok (all_points ++ points, rng') /\
    length points = 256%nat /\
    hd_error points = Some start.
Proof.
  intros Hs Hf. unfold koch_side. cbn [bind]. rewrite Hs, Hf. cbn [bind].
  destruct start as [sx sy], finish as [fx fy]. cbn [fst snd].
  destruct (Nat.even i).
  - pose proof (generate_koch_points_shape math draws 4 sx sy fx fy false
                  (2 # 10) rng) as H.
    cbv zeta in H.
    destruct (generate_koch_points math draws sx sy fx fy 4 false (2 # 10) rng)
      as [points rng'].
    cbn [fst] in H. destruct H as [Hlen [Hhd _]].
    exists (removelast points), rng'. split; [reflexivity|].
    rewrite removelast_length, Hlen. split; [reflexivity|].
    rewrite removelast_head by (rewrite Hlen; cbn; lia). exact Hhd.
  - pose proof (generate_koch_points_shape math draws 4 sx sy fx fy true
                  (3 # 10) rng) as H.
    cbv zeta in H.
    destruct (generate_koch_points math draws sx sy fx fy 4 true (3 # 10) rng)
      as [points rng'].
    cbn [fst] in H. destruct H as [Hlen [Hhd _]].
    exists (removelast points), rng'. split; [reflexivity|].
    rewrite removelast_length, Hlen. split; [reflexivity|].
    rewrite removelast_head by (rewrite Hlen; cbn; lia). exact Hhd.
Qed.

(** The outline [create_abstract_koch] writes has 1537 points, whatever
    the random draws are: 256 for each of the six sides and the closing
    one; it starts at the first vertex of the hexagon and ends there. *)
Theorem abstract_koch_points_count (rng : nat) :
  exists all_points,
    abstract_koch_points math draws rng = Ok all_points /\
    length all_points = 1537%nat /\
    hd_error all_points = hd_error (hexagon_vertices math) /\
    Some (last all_points (0, 0)) = hd_error (hexagon_vertices math).
Proof.
  unfold abstract_koch_points. cbv zeta.
  destruct (hexagon_vertices math) as [|v0 [|v1 [|v2 [|v3 [|v4 [|v5 [|]]]]]]]
    eqn:Ev; try discriminate.
  cbn [seq fold_left].
  destruct (koch_side_points [v0; v1; v2; v3; v4; v5] [] rng 0 v0 v1
              eq_refl eq_refl) as [p0 [r0 [E0 [L0 H0]]]].
  rewrite E0. cbn [app].
  destruct (koch_side_points [v0; v1; v2; v3; v4; v5] p0 r0 1 v1 v2
              eq_refl eq_refl) as [p1 [r1 [E1 [L1 _]]]].
  rewrite E1.
  destruct (koch_side_points [v0; v1; v2; v3; v4; v5] (p0 ++ p1) r1 2 v2 v3
              eq_refl eq_refl) as [p2 [r2 [E2 [L2 _]]]].
  rewrite E2.
  destruct (koch_side_points [v0; v1; v2; v3; v4; v5] ((p0 ++ p1) ++ p2) r2
              3 v3 v4 eq_refl eq_refl) as [p3 [r3 [E3 [L3 _]]]].
  rewrite E3.
  destruct (koch_side_points [v0; v1; v2; v3; v4; v5]
              (((p0 ++ p1) ++ p2) ++ p3) r3
              4 v4 v5 eq_refl eq_refl) as [p4 [r4 [E4 [L4 _]]]].
  rewrite E4.
  destruct (koch_side_points [v0; v1; v2; v3; v4; v5]
              ((((p0 ++ p1) ++ p2) ++ p3) ++ p4) r4
              5 v5 v0 eq_refl eq_refl) as [p5 [r5 [E5 [L5 _]]]].
  rewrite E5. cbn [bind fst].
  destruct p0 as [|q0 p0]; [discriminate|].
  cbn [hd_error] in H0. injection H0 as ->.
  cbn [app bind]. eexists. split; [reflexivity|].
  split; [|split].
  - cbn [length] in *. rewrite !length_app. cbn [length]. lia.
  - reflexivity.
  - cbn [hd_error]. f_equal.
    change (v0 :: ((((p0 ++ p1) ++ p2) ++ p3) ++ p4) ++ p5)
      with ((v0 :: ((((p0 ++ p1) ++ p2) ++ p3) ++ p4) ++ p5)).
    rewrite app_comm_cons.
    now rewrite last_app_nonempty by discriminate.
Qed.

End KochCurves.

(** * The passes on doubles *)

Lemma flush_any {A : Type} (optimized current_path : list A) :
  (if negb (is_empty current_path)
   then (optimized ++ current_path, [])
   else (optimized, current_path)) = (optimized ++ current_path, []).
Proof.
  destruct current_path; simpl; [now rewrite app_nil_r | reflexivity].
Qed.

(** The commands the two accumulators of the optimizer hold. *)
Definition joined {A : Type} (acc : result (list A * list A))
  : result (list A) :=
  match acc with
  | Ok (optimized, current_path) => Ok (optimized ++ current_path)
  | Raise e => Raise e
  end.

Section OptimizerOnDoubles.

Import PrimFloat.
Local Open Scope float_scope.

Variable square : float -> result float.
Variable optimization : bool.
Variable tolerance : float.
Variable cap : nat.

(** The optimizer in the words of the specification, with the distance the
    code computes: a [move] becomes a [line] when
    [math.sqrt((x2 - x1)**2 + (y2 - y1)**2)], evaluated in double
    precision from the point emitted just before it, is at most the
    tolerance; every other command is kept; an [OverflowError] of a square
    ends the pass. *)
Fixpoint double_rewrite_moves (prev : option (float * float))
    (cmds : list Doubles.command) : result (list Doubles.command) :=
  match cmds with
  | [] => Ok []
  | (t, x, y) :: rest =>
      t' <- match t, prev with
            | move, Some (px, py) =>
                d <- Doubles.distance square px py x y ;;
                Ok (if d <=? tolerance then line else move)
            | _, _ => Ok t
            end ;;
      rest' <- double_rewrite_moves (Some (x, y)) rest ;;
      Ok ((t', x, y) :: rest')
  end.

Definition double_last_point (l : list Doubles.command)
  : option (float * float) :=
  match l with
  | [] => None
  | _ => Some (Doubles.cmd_x (Doubles.last_cmd l),
               Doubles.cmd_y (Doubles.last_cmd l))
  end.

Lemma double_last_point_snoc (l : list Doubles.command) (t : cmd_type)
    (x y : float) :
  double_last_point (l ++ [(t, x, y)]) = Some (x, y).
Proof.
  unfold double_last_point, Doubles.last_cmd. rewrite last_last.
  destruct l; reflexivity.
Qed.

Lemma double_optimize_step_emits (n : nat) (cmd : Doubles.command)
    (optimized current_path : list Doubles.command) :
  n = length (optimized ++ current_path) ->
  joined (Doubles.optimize_step square tolerance cap n cmd
            optimized current_path) =
  (r <- double_rewrite_moves (double_last_point (optimized ++ current_path))
          [cmd] ;;
   Ok ((optimized ++ current_path) ++ r)).
Proof.
  intro Hn. destruct cmd as [[t x] y].
  cbn [double_rewrite_moves]. destruct t; cbn [Doubles.optimize_step].
  - rewrite flush_any.
    remember (optimized ++ current_path) as flushed eqn:Hfl.
    destruct flushed as [|c0 fl].
    + subst n. reflexivity.
    + assert (Hpos : ((0 <? n) && (0 <? length (c0 :: fl)) = true)%nat)
        by (subst n; reflexivity).
      rewrite Hpos. cbn [double_last_point].
      destruct (Doubles.distance square _ _ x y) as [d|e]; cbn [bind];
        [|reflexivity].
      destruct (d <=? tolerance); cbn [joined bind];
        [now rewrite app_nil_r | reflexivity].
  - cbn [bind].
    destruct (cap <=? _)%nat; cbn [joined].
    + rewrite app_nil_r, app_assoc. reflexivity.
    + now rewrite app_assoc.
Qed.


Lemma double_optimize_loop_emits (cmds : list Doubles.command) :
  forall (n : nat) (optimized current_path : list Doubles.command),
    n = length (optimized ++ current_path) ->
    joined (Doubles.optimize_loop square tolerance cap n cmds
              optimized current_path) =
    (r <- double_rewrite_moves
            (double_last_point (optimized ++ current_path)) cmds ;;
     Ok ((optimized ++ current_path) ++ r)).
Proof.
  induction cmds as [|cmd rest IH]; intros n optimized current_path Hn.
  - cbn. now rewrite app_nil_r.
  - cbn [Doubles.optimize_loop].
    pose proof (double_optimize_step_emits n cmd optimized current_path Hn)
      as Hstep.
    destruct cmd as [[t x] y].
    destruct (Doubles.optimize_step square tolerance cap n (t, x, y)
                optimized current_path) as [[o1 c1]|e]; cbn [joined bind fst snd]
      in *.
    + cbn [double_rewrite_moves] in *.
      destruct (match t, double_last_point (optimized ++ current_path) with
                | move, Some (px, py) => _
                | _, _ => _
                end) as [t'|e]; [|discriminate].
      cbn [bind] in *. injection Hstep as Hstep.
      rewrite (IH (S n) o1 c1)
        by (rewrite Hstep, length_app; cbn; lia).
      rewrite Hstep, double_last_point_snoc.
      destruct (double_rewrite_moves (Some (x, y)) rest) as [rest'|e];
        cbn [bind]; [|reflexivity].
      now rewrite <- app_assoc.
    + cbn [double_rewrite_moves] in *.
      destruct (match t, double_last_point (optimized ++ current_path) with
                | move, Some (px, py) => _
                | _, _ => _
                end) as [t'|e']; cbn [bind] in *; [discriminate|].
      exact Hstep.
Qed.

Lemma double_optimize_paths_rewrites (c : list Doubles.command) :
  Doubles.optimize_paths square optimization tolerance cap c =
  if optimization then double_rewrite_moves None c else Ok c.
Proof.
  unfold Doubles.optimize_paths.
  destruct optimization; [|reflexivity].
  destruct c as [|c0 rest]; [reflexivity|].
  cbn [negb orb is_empty].
  pose proof (double_optimize_loop_emits (c0 :: rest) 0 [] [] eq_refl) as H.
  cbn [app double_last_point] in H.
  destruct (double_rewrite_moves None (c0 :: rest)) as [r|e'];
    destruct (Doubles.optimize_loop square tolerance cap 0 (c0 :: rest) [] [])
      as [[o p]|e]; cbn [joined bind] in *; try discriminate.
  - injection H as <-. destruct p; cbn; [now rewrite app_nil_r | reflexivity].
  - exact H.
Qed.


End OptimizerOnDoubles.

Section OptimizedOnDoubles.

Import PrimFloat.
Local Open Scope float_scope.

Variable square : float -> result float.
Variable tolerance : float.

Lemma double_rewrite_moves_no_near_move (cmds : list Doubles.command) :
  forall prev out pre a b post,
    double_rewrite_moves square tolerance prev cmds = Ok out ->
    out = pre ++ a :: b :: post ->
    Doubles.cmd_tag b = move ->
    exists d,
      Doubles.distance square (Doubles.cmd_x a) (Doubles.cmd_y a)
                       (Doubles.cmd_x b) (Doubles.cmd_y b) = Ok d /\
      (d <=? tolerance) = false.
Proof.
  induction cmds as [|[[t x] y] rest IH];
    intros prev out pre a b post Hrun Heq Hb.
  - injection Hrun as <-. destruct pre; discriminate.
  - cbn [double_rewrite_moves] in Hrun.
    destruct (match t, prev with
              | move, Some (px, py) => _
              | _, _ => _
              end) as [t'|e]; [|discriminate].
    cbn [bind] in Hrun.
    destruct (double_rewrite_moves square tolerance (Some (x, y)) rest)
      as [rest'|e] eqn:Erest; [|discriminate].
    injection Hrun as <-.
    destruct pre as [|p pre].
    + cbn [app] in Heq. injection Heq as Ha Hrest. subst a rest'.
      destruct rest as [|[[t2 x2] y2] rest2]; [discriminate|].
      cbn [double_rewrite_moves] in Erest.
      destruct t2.
      * destruct (Doubles.distance square x y x2 y2) as [d|e] eqn:Ed;
          [|discriminate].
        cbn [bind] in Erest.
        destruct (double_rewrite_moves square tolerance (Some (x2, y2)) rest2);
          [|discriminate].
        injection Erest as Eb _. subst b.
        exists d. split; [exact Ed|].
        destruct (d <=? tolerance); [discriminate Hb | reflexivity].
      * cbn [bind] in Erest.
        destruct (double_rewrite_moves square tolerance (Some (x2, y2)) rest2);
          [|discriminate].
        injection Erest as Eb _. subst b. discriminate Hb.
    + cbn [app] in Heq. injection Heq as _ Hrest.
      exact (IH _ _ _ _ _ _ Erest Hrest Hb).
Qed.

End OptimizedOnDoubles.

(** Decimal literals denote the nearest double, as they do in Python. *)
Set Warnings "-inexact-float".

Section OptimizerExamples.

Import PrimFloat.
Local Open Scope float_scope.






(** After optimization no [move] is left whose distance from the point of
    the command before it, as the code computes it, is at most
    [PATH_TOLERANCE]. *)
Theorem optimized_moves_are_beyond_tolerance
    (square : float -> result float)
    (tolerance : float) (cap : nat)
    (c pre post : list Doubles.command) (a b : Doubles.command) :
  Doubles.optimize_paths square true tolerance cap c =
  Ok (pre ++ a :: b :: post) ->
  Doubles.cmd_tag b = move ->
  exists d,
    Doubles.distance square (Doubles.cmd_x a) (Doubles.cmd_y a)
                     (Doubles.cmd_x b) (Doubles.cmd_y b) = Ok d /\
    (d <=? tolerance) = false.
Proof.
  intros H Hb. rewrite double_optimize_paths_rewrites in H.
  exact (double_rewrite_moves_no_near_move square tolerance c None _ pre a b
           post H eq_refl Hb).
Qed.

Lemma optimized_moves_are_beyond_tolerance_witness :
  Doubles.optimize_paths Doubles.rounded_square true 0.5 1000
    [(move, 0, 0); (line, 10, 0); (move, 10, 0.25); (move, 20, 20)] =
  Ok ([(move, 0, 0); (line, 10, 0)] ++
      (line, 10, 0.25) :: (move, 20, 20) :: []) /\
  exists d,
    Doubles.distance Doubles.rounded_square 10 0.25 20 20 = Ok d /\
    (d <=? 0.5) = false.
Proof.
  assert (H : Doubles.optimize_paths Doubles.rounded_square true 0.5
                1000
                [(move, 0, 0); (line, 10, 0); (move, 10, 0.25);
                 (move, 20, 20)] =
              Ok ([(move, 0, 0); (line, 10, 0)] ++
                  (line, 10, 0.25) :: (move, 20, 20) :: []))
    by (vm_compute; reflexivity).
  split; [exact H|].
  exact (optimized_moves_are_beyond_tolerance Doubles.rounded_square
           0.5 1000 _ _ _ (line, 10, 0.25) (move, 20, 20)
           H eq_refl).
Defined.

End OptimizerExamples.

Section CloserOnDoubles.

Import PrimFloat.
Local Open Scope float_scope.

(** A subpath that ends exactly 0.5 from its start. *)
Definition double_boundary_path : list Doubles.command :=
  [(move, 0, 0); (line, 10, 0); (line, 0.5, 0)].

(** A subpath that ends less than 0.5 from its start: the doubles 0.6 and
    0.1 differ by less than one half. *)
Definition double_rounded_path : list Doubles.command :=
  [(move, 0.1, 0); (line, 10, 0); (line, 0.6, 0)].

(** C7 on the code: a subpath whose final point lies within the tolerance
    of its start point, at the tolerance exactly, is left open.  The final
    point of [double_boundary_path] is at 0.5 from the start, the code
    computes 0.5, a distance the test [<=] of the optimizer accepts for the
    same tolerance, and the test [<] of [detect_closed_paths] rejects it:
    the path is returned as it is, where the rule with the boundary
    included appends the corrective [line].  The same happens below the
    tolerance when the subtraction rounds up to it: the doubles 0.6 and
    0.1 are less than 0.5 apart, the code computes 0.5, and
    [double_rounded_path] is left open as well. *)
Theorem detect_closed_paths_leaves_boundary_open :
  Doubles.distance Doubles.rounded_square 0.5 0 0 0 = Ok 0.5 /\
  (0.5 <=? 0.5) = true /\
  (0.5 <? 0.5) = false /\
  Doubles.detect_closed_paths Doubles.rounded_square 0.5
    double_boundary_path = Ok double_boundary_path /\
  (exists a b : Q,
     Doubles.double_value 0.6 = Some a /\
     Doubles.double_value 0.1 = Some b /\
     (0 < a - b)%Q /\ (a - b < 1 # 2)%Q) /\
  Doubles.distance Doubles.rounded_square 0.6 0 0.1 0 = Ok 0.5 /\
  Doubles.detect_closed_paths Doubles.rounded_square 0.5
    double_rounded_path = Ok double_rounded_path /\
  detect_closed_paths source_settings boundary_path = boundary_path /\
  concat (map (close_subpath_inclusive (PATH_TOLERANCE source_settings))
              (subpaths boundary_path)) =
  (boundary_path ++ [(line, 0, 0)])%Q.
Proof.
  split; [vm_compute; reflexivity|].
  split; [vm_compute; reflexivity|].
  split; [vm_compute; reflexivity|].
  split; [vm_compute; reflexivity|].
  split.
  { do 2 eexists. split; [vm_compute; reflexivity|].
    split; [vm_compute; reflexivity|].
    split; vm_compute; reflexivity. }
  split; [vm_compute; reflexivity|].
  split; [vm_compute; reflexivity|].
  split; reflexivity.
Qed.

(** A subpath ending 0.3 from its start is closed with the tolerance 0.5
    and left open with the tolerance 0.1, on doubles as in exact
    arithmetic. *)
Lemma detect_closed_paths_scenario_on_doubles :
  Doubles.detect_closed_paths Doubles.rounded_square 0.5
    [(move, 0, 0); (line, 10, 0); (line, 10, 10); (line, 0.3, 0)] =
  Ok [(move, 0, 0); (line, 10, 0); (line, 10, 10); (line, 0.3, 0);
      (line, 0, 0)] /\
  Doubles.detect_closed_paths Doubles.rounded_square 0.1
    [(move, 0, 0); (line, 10, 0); (line, 10, 10); (line, 0.3, 0)] =
  Ok [(move, 0, 0); (line, 10, 0); (line, 10, 10); (line, 0.3, 0)].
Proof. split; vm_compute; reflexivity. Qed.

End CloserOnDoubles.

Section MapperOnDoubles.

Import PrimFloat.
Local Open Scope float_scope.

(** The converter [main] builds, without a calibration file. *)
Definition double_source_converter : Doubles.Converter := {|
  Doubles.center_x := 0;
  Doubles.center_y := 0;
  Doubles.scale_factor := 0.35;
  Doubles.preserve_aspect_ratio := true;
  Doubles.offset_x := 0;
  Doubles.offset_y := 0
|}.

(** The same with the margin factor 1. *)
Definition double_full_page_converter : Doubles.Converter := {|
  Doubles.center_x := 0;
  Doubles.center_y := 0;
  Doubles.scale_factor := 1;
  Doubles.preserve_aspect_ratio := true;
  Doubles.offset_x := 0;
  Doubles.offset_y := 0
|}.

Definition double_right_angle : list Doubles.command :=
  [(move, 0, 0); (line, 10, 0); (line, 10, 10)].

(** Every source x, y multiplied by [k]. *)
Definition double_scale_drawing (k : float) (cmds : list Doubles.command)
  : list Doubles.command :=
  map (fun c => (Doubles.cmd_tag c, k * Doubles.cmd_x c, k * Doubles.cmd_y c))
      cmds.

(** Pre-scaling on doubles: by 2 the mapped output is the same to the last
    bit, by 3 it differs from it in the last digits, by less than 1e-13. *)
Lemma prescaling_agrees_within_rounding :
  Doubles.scale_to_robot_coordinates double_source_converter
    double_right_angle =
  Ok [(move, -36.75, -36.75); (line, 36.75, -36.75); (line, 36.75, 36.75)] /\
  Doubles.scale_to_robot_coordinates double_source_converter
    (double_scale_drawing 2 double_right_angle) =
  Ok [(move, -36.75, -36.75); (line, 36.75, -36.75); (line, 36.75, 36.75)] /\
  Doubles.scale_to_robot_coordinates double_source_converter
    (double_scale_drawing 3 double_right_angle) =
  Ok [(move, -36.74999999999999, -36.74999999999999);
      (line, 36.74999999999999, -36.74999999999999);
      (line, 36.74999999999999, 36.74999999999999)] /\
  (36.74999999999999 =? 36.75) = false /\
  (abs (36.75 - 36.74999999999999) <? 1e-13) = true.
Proof. repeat split; vm_compute; reflexivity. Qed.

(** With the margin factor 1 the diagonal from (0, 0) to (39, 1) is mapped
    on doubles to x = -105.00000000000001 and x = 105.00000000000001, one
    unit in the last place outside the half width 105 of the sheet. *)
Lemma boundary_point_leaves_rectangle_on_doubles :
  Doubles.scale_to_robot_coordinates double_full_page_converter
    [(move, 0, 0); (line, 39, 1)] =
  Ok [(move, -105.00000000000001, -2.6923076923076925);
      (line, 105.00000000000001, 2.6923076923076925)] /\
  (abs (105.00000000000001 - Doubles.center_x double_full_page_converter)
   <=? Doubles.A4_WIDTH / 2) = false /\
  exists v : Q,
    Doubles.double_value 105.00000000000001 = Some v /\ (105 < v)%Q.
Proof.
  split; [vm_compute; reflexivity|].
  split; [vm_compute; reflexivity|].
  eexists. split; vm_compute; reflexivity.
Qed.

End MapperOnDoubles.
